(** * Relation graph core of relations-obsidian

    A shallow embedding of [src/relation-graph.ts], [src/cycle-detector.ts],
    [src/relationship-engine.ts] and [src/utils/path-finder.ts], with the
    properties of the relationship graph core stated and proved over it;
    and of [src/frontmatter-editor.ts] and the markdown exporter (the second
    part of [src/utils/path-finder.ts]), with what their functions guarantee.

    Conventions.  A JavaScript [Map<string, V>] keeps its keys in insertion
    order, and the order is observable here (it fixes the order of every
    [children] array), so the node map is an association list with the
    [Map.set] discipline: replace in place, or append.  [Set<string>] is only
    ever asked [has] and [add], so it is a [gset string]; the colour map of the
    cycle detector is a [gmap string NodeState].  Recursive and looping code
    whose termination is not structural takes a fuel argument and answers
    [Timeout] when it runs dry; the entry points pick the fuel from the graph
    and are proved never to answer [Timeout].  Code that can throw returns a
    sum, the error on the left.  An options object keeps, for each property,
    whether it is there at all: an object spread copies a property that is
    there with the value [undefined]. *)

From Stdlib Require Import ZArith Lia Sorted.
From stdpp Require Import gmap strings list fin_maps.

Local Open Scope string_scope.
Local Open Scope list_scope.
Local Open Scope Z_scope.

(* ===================================================================== *)
(** ** Documents and the node map *)
(* ===================================================================== *)

(** The two fields of Obsidian's [TFile] that the core reads.  Two documents
    are the same entity when their [path]s are equal. *)
Record TFile := mkTFile { path : string; basename : string }.

#[global] Instance TFile_eq_dec : EqDecision TFile.
Proof. solve_decision. Defined.

(** [interface NodeInfo] *)
Record NodeInfo := mkNodeInfo {
  file : TFile;
  parents : list TFile;
  children : list TFile
}.

(** [private graph = new Map<string, NodeInfo>()] *)
Definition Graph := list (string * NodeInfo).

(** [Map.prototype.get] *)
Fixpoint graph_get (g : Graph) (k : string) : option NodeInfo :=
  match g with
  | [] => None
  | (k', v) :: g' => if decide (k' = k) then Some v else graph_get g' k
  end.

(** [Map.prototype.set]: an existing key keeps its position. *)
Fixpoint graph_set (g : Graph) (k : string) (v : NodeInfo) : Graph :=
  match g with
  | [] => [(k, v)]
  | (k', v') :: g' =>
      if decide (k' = k) then (k, v) :: g' else (k', v') :: graph_set g' k v
  end.

(** [Map.prototype.values], in insertion order. *)
Definition graph_values (g : Graph) : list NodeInfo := map snd g.

Definition graph_keys (g : Graph) : list string := map fst g.

(* ===================================================================== *)
(** ** RelationGraph.build *)
(* ===================================================================== *)

(** The value of [meta?.frontmatter?.[parentField]]: [undefined] (something
    along the chain is missing) or [null], a scalar reference, or an array of
    references. *)
Inductive FieldValue :=
| FAbsent
| FScalar (ref : string)
| FArray (refs : list string).

(** What [build] reads from the Obsidian [App]. *)
Record App := mkApp {
  (** [app.vault.getMarkdownFiles()] *)
  getMarkdownFiles : list TFile;
  (** the tracked field in [app.metadataCache.getFileCache(file)] *)
  fieldOf : TFile -> FieldValue;
  (** [app.metadataCache.getFirstLinkpathDest(ref, meta?.path)] for the
      metadata of the given file; [None] is JavaScript's [null] *)
  getFirstLinkpathDest : string -> TFile -> option TFile
}.

(** [resolveLink(ref, meta)]; [None] is the [null] of [... || null]. *)
Definition resolveLink (app : App) (f : TFile) (ref : string) : option TFile :=
  getFirstLinkpathDest app ref f.

(** [extractParentLinks(meta)]: a falsy field (absent, or the empty string)
    gives [[]]; a scalar is wrapped; unresolved references are filtered out. *)
Definition extractParentLinks (app : App) (f : TFile) : list TFile :=
  match fieldOf app f with
  | FAbsent => []
  | FScalar ref =>
      if decide (ref = "") then [] else omap (resolveLink app f) [ref]
  | FArray refs => omap (resolveLink app f) refs
  end.

(** First pass of [build]: one node per markdown file, no children yet. *)
Definition build_nodes (app : App) : Graph :=
  fold_left
    (fun g f => graph_set g (path f) (mkNodeInfo f (extractParentLinks app f) []))
    (getMarkdownFiles app) [].

(** [this.graph.get(parent.path)?.children.push(child)] *)
Definition push_child (g : Graph) (parent : TFile) (child : TFile) : Graph :=
  match graph_get g (path parent) with
  | Some n =>
      graph_set g (path parent)
        (mkNodeInfo (file n) (parents n) (children n ++ [child]))
  | None => g
  end.

(** The body of the second pass for one node. *)
Definition link_node (g : Graph) (node : NodeInfo) : Graph :=
  fold_left (fun g parent => push_child g parent (file node)) (parents node) g.

(** Second pass of [build].  The loop walks [this.graph.values()] while it
    pushes onto [children] arrays; [file] and [parents] of a node are never
    written, so walking the values of the first pass is the same walk. *)
Definition build_children (g : Graph) : Graph :=
  fold_left link_node (graph_values g) g.

(** [build()] *)
Definition build (app : App) : Graph := build_children (build_nodes app).

(** [getParents(file)] *)
Definition getParents (g : Graph) (f : TFile) : list TFile :=
  match graph_get g (path f) with
  | Some n => parents n
  | None => []
  end.

(** [getChildren(file)] *)
Definition getChildren (g : Graph) (f : TFile) : list TFile :=
  match graph_get g (path f) with
  | Some n => children n
  | None => []
  end.

(** [getAllFiles()] *)
Definition getAllFiles (g : Graph) : list TFile := map file (graph_values g).

(** Results of fuelled runs. *)
Inductive run (A : Type) :=
| Ret (a : A)
| Timeout.
Arguments Ret {A} a.
Arguments Timeout {A}.

(* ===================================================================== *)
(** ** Array helpers of the JavaScript runtime *)
(* ===================================================================== *)

(** [Array.prototype.findIndex]: [-1] when no element passes the test. *)
Fixpoint findIndex {A : Type} (test : A -> bool) (l : list A) : Z :=
  match l with
  | [] => -1
  | x :: l' =>
      if test x then 0
      else let i := findIndex test l' in if i <? 0 then -1 else i + 1
  end.

(** [Array.prototype.slice(start)]: a negative [start] counts from the end. *)
Definition slice_from {A : Type} (l : list A) (start : Z) : list A :=
  if start <? 0
  then drop (Z.to_nat (Z.max (Z.of_nat (length l) + start) 0)) l
  else drop (Z.to_nat start) l.

(* ===================================================================== *)
(** ** CycleDetector *)
(* ===================================================================== *)

(** [enum NodeState] *)
Inductive NodeState := WHITE | GRAY | BLACK.

#[global] Instance NodeState_eq_dec : EqDecision NodeState.
Proof. solve_decision. Defined.

(** [interface CycleInfo]; [startFile] is [path[0]], [None] standing for
    [undefined]. *)
Module CycleInfo.
Record t := mk {
  cyclePath : list TFile;
  startFile : option TFile;
  description : string;
  length : Z
}.
End CycleInfo.

(** [states.get(p) || NodeState.WHITE] *)
Definition state_of (states : gmap string NodeState) (p : string) : NodeState :=
  match states !! p with
  | Some s => s
  | None => WHITE
  end.

(** [buildCycleInfo(cycleStart, path)] *)
Definition buildCycleInfo (cycleStart : TFile) (stack : list TFile) : CycleInfo.t :=
  let cycleStartIndex :=
    findIndex (fun f => bool_decide (path f = path cycleStart)) stack in
  let cyclePath := slice_from stack cycleStartIndex ++ [cycleStart] in
  let names := String.concat " → " (map basename cyclePath) in
  CycleInfo.mk cyclePath (head stack)
    (String.append "Cycle detected: " names)
    (Z.of_nat (length cyclePath) - 1).

(** What one call of [dfs] leaves behind: its return value and the two
    objects it mutates, the colour map and the path stack. *)
Definition DfsResult : Type :=
  option CycleInfo.t * gmap string NodeState * list TFile.

(** The [for (const parent of parents)] loop of [dfs] and the epilogue after
    it; [rec] is the recursive call. *)
Fixpoint dfs_parents
    (rec : TFile -> gmap string NodeState -> list TFile -> run DfsResult)
    (current : TFile) (ps : list TFile)
    (states : gmap string NodeState) (stack : list TFile) : run DfsResult :=
  match ps with
  | [] => Ret (None, <[path current := BLACK]> states, removelast stack)
  | parent :: rest =>
      match state_of states (path parent) with
      | GRAY => Ret (Some (buildCycleInfo parent stack), states, stack)
      | WHITE =>
          match rec parent states stack with
          | Timeout => Timeout
          | Ret (Some cycle, states', stack') => Ret (Some cycle, states', stack')
          | Ret (None, states', stack') =>
              dfs_parents rec current rest states' stack'
          end
      | BLACK => dfs_parents rec current rest states stack
      end
  end.

(** [private dfs(current, states, path)] *)
Fixpoint dfs (fuel : nat) (g : Graph) (current : TFile)
    (states : gmap string NodeState) (stack : list TFile) : run DfsResult :=
  match fuel with
  | O => Timeout
  | S fuel' =>
      dfs_parents (dfs fuel' g) current (getParents g current)
        (<[path current := GRAY]> states) (stack ++ [current])
  end.

(** Every path that occurs in some [parents] array. *)
Definition edge_targets (g : Graph) : list string :=
  flat_map (fun n => map path (parents n)) (graph_values g).

(** Fuel that covers every document a walk of the graph can colour: the
    start, the documents of the graph and the targets of their edges. *)
Definition dfs_fuel (g : Graph) : nat :=
  S (S (length (getAllFiles g) + length (edge_targets g))).

Definition detectCycle_fuel (fuel : nat) (g : Graph) (startFile : TFile)
  : run (option CycleInfo.t) :=
  match dfs fuel g startFile ∅ [] with
  | Ret (r, _, _) => Ret r
  | Timeout => Timeout
  end.

(** [detectCycle(startFile)] *)
Definition detectCycle (g : Graph) (startFile : TFile) : run (option CycleInfo.t) :=
  detectCycle_fuel (dfs_fuel g) g startFile.

(** [getCycleInfo(file)] *)
Definition getCycleInfo (g : Graph) (f : TFile) : run (option CycleInfo.t) :=
  detectCycle g f.

(** The [for (const file of allFiles)] loop of [hasCycles]. *)
Fixpoint hasCycles_loop (fuel : nat) (g : Graph) (files : list TFile)
    (states : gmap string NodeState) : run bool :=
  match files with
  | [] => Ret false
  | f :: rest =>
      match state_of states (path f) with
      | WHITE =>
          match dfs fuel g f states [] with
          | Timeout => Timeout
          | Ret (Some _, _, _) => Ret true
          | Ret (None, states', _) => hasCycles_loop fuel g rest states'
          end
      | _ => hasCycles_loop fuel g rest states
      end
  end.

(** [hasCycles()] *)
Definition hasCycles (g : Graph) : run bool :=
  hasCycles_loop (dfs_fuel g) g (getAllFiles g) ∅.

(* ===================================================================== *)
(** ** RelationshipEngine *)
(* ===================================================================== *)

(** A [TypeError] thrown by the runtime. *)
Inductive JsError := TypeError (msg : string).

(** The object behind [this.graph], as far as the engine touches it: it calls
    [getParents] and, when no depth is passed, [getMaxDepth].  A member the
    object does not have reads as [undefined], here [None]. *)
Record GraphObject := mkGraphObject {
  obj_getParents : TFile -> list TFile;
  obj_getMaxDepth : option (unit -> Z)
}.

(** An instance of [class RelationGraph].  The class declares [build],
    [extractParentLinks], [resolveLink], [getParents], [getChildren],
    [getAllFiles], [detectCycle], [getCycleInfo] and [hasCycles] (and the
    fields [graph], [cycleDetector], [app], [parentField]); it declares no
    [getMaxDepth]. *)
Definition RelationGraph_object (g : Graph) : GraphObject :=
  mkGraphObject (getParents g) None.

(** Calling a member: calling [undefined] throws. *)
Definition call_member {A : Type} (name : string) (m : option (unit -> A))
  : JsError + A :=
  match m with
  | Some f => inr (f tt)
  | None => inl (TypeError (String.append name " is not a function"))
  end.

(** The [for (const parent of parents)] loop of [getAncestors]. *)
Fixpoint stage_parents (ps : list TFile) (nextGeneration : list TFile)
    (seenInGeneration visited : gset string)
  : list TFile * gset string * gset string :=
  match ps with
  | [] => (nextGeneration, seenInGeneration, visited)
  | parent :: rest =>
      if decide (path parent ∈ visited)
      then stage_parents rest nextGeneration seenInGeneration visited
      else if decide (path parent ∈ seenInGeneration)
      then stage_parents rest nextGeneration seenInGeneration visited
      else stage_parents rest (nextGeneration ++ [parent])
             ({[path parent]} ∪ seenInGeneration) ({[path parent]} ∪ visited)
  end.

(** The [for (const current of currentGeneration)] loop. *)
Fixpoint stage_generation (graph : GraphObject) (currentGeneration : list TFile)
    (nextGeneration : list TFile) (seenInGeneration visited : gset string)
  : list TFile * gset string * gset string :=
  match currentGeneration with
  | [] => (nextGeneration, seenInGeneration, visited)
  | current :: rest =>
      let '(next, seen, visited') :=
        stage_parents (obj_getParents graph current)
          nextGeneration seenInGeneration visited in
      stage_generation graph rest next seen visited'
  end.

(** The [for (let level = 0; level < depth; level++)] loop; [levels] is the
    number of iterations still allowed. *)
Fixpoint generations (graph : GraphObject) (levels : nat)
    (currentGeneration : list TFile) (visited : gset string)
    (result : list (list TFile)) : list (list TFile) :=
  match levels with
  | O => result
  | S levels' =>
      let '(nextGeneration, _, visited') :=
        stage_generation graph currentGeneration [] ∅ visited in
      match nextGeneration with
      | [] => result
      | _ :: _ =>
          generations graph levels' nextGeneration visited'
            (result ++ [nextGeneration])
      end
  end.

(** [getAncestors(file, maxDepth?)]; [maxDepth = None] is the omitted
    argument, so that [maxDepth ?? this.graph.getMaxDepth()] evaluates its
    right-hand side. *)
Definition getAncestors (graph : GraphObject) (f : TFile) (maxDepth : option Z)
  : JsError + list (list TFile) :=
  let depth :=
    match maxDepth with
    | Some d => inr d
    | None => call_member "this.graph.getMaxDepth" (obj_getMaxDepth graph)
    end in
  match depth with
  | inl e => inl e
  | inr depth =>
      inr (generations graph (Z.to_nat depth) [f] {[path f]} [])
  end.

(* ===================================================================== *)
(** ** Path finder *)
(* ===================================================================== *)

Inductive Direction := Up | Down | Mixed.

(** [interface NotePath] *)
Module NotePath.
Record t := mk {
  start : TFile;
  end_ : TFile;
  path : list TFile;
  length : Z;
  direction : Direction
}.
End NotePath.

(** One of the two [for] loops in the body of the [while] of
    [findShortestPath]: [inl] is the early [return] with the full path,
    [inr] the visited set and the queue after the loop. *)
Fixpoint scan_neighbours (end_ : TFile) (pth : list TFile) (ns : list TFile)
    (visited : gset string) (queue : list (TFile * list TFile))
  : list TFile + gset string * list (TFile * list TFile) :=
  match ns with
  | [] => inr (visited, queue)
  | n :: rest =>
      if decide (path n = path end_) then inl (pth ++ [n])
      else if decide (path n ∈ visited)
      then scan_neighbours end_ pth rest visited queue
      else scan_neighbours end_ pth rest
             ({[path n]} ∪ visited) (queue ++ [(n, pth ++ [n])])
  end.

(** [while (queue.length > 0)] of [findShortestPath]. *)
Fixpoint bfs (fuel : nat) (g : Graph) (start end_ : TFile)
    (queue : list (TFile * list TFile)) (visited : gset string)
  : run (option NotePath.t) :=
  match fuel with
  | O => Timeout
  | S fuel' =>
      match queue with
      | [] => Ret None
      | (node, pth) :: queue' =>
          match scan_neighbours end_ pth (getParents g node) visited queue' with
          | inl fullPath =>
              Ret (Some (NotePath.mk start end_ fullPath
                           (Z.of_nat (length fullPath) - 1) Up))
          | inr (visited1, queue1) =>
              match scan_neighbours end_ pth (getChildren g node)
                      visited1 queue1 with
              | inl fullPath =>
                  Ret (Some (NotePath.mk start end_ fullPath
                               (Z.of_nat (length fullPath) - 1) Down))
              | inr (visited2, queue2) => bfs fuel' g start end_ queue2 visited2
              end
          end
      end
  end.

(** Every path that occurs in some [children] array. *)
Definition child_targets (g : Graph) : list string :=
  flat_map (fun n => map path (children n)) (graph_values g).

(** Fuel for the search loop: a document enters the queue at most once, and
    only the start or a member of some [parents] or [children] array does. *)
Definition bfs_fuel (g : Graph) : nat :=
  S (S (length (edge_targets g) + length (child_targets g))).

(** [findShortestPath(start, end, graph)] *)
Definition findShortestPath (g : Graph) (start end_ : TFile)
  : run (option NotePath.t) :=
  if decide (path start = path end_)
  then Ret (Some (NotePath.mk start end_ [start] 0 Mixed))
  else bfs (bfs_fuel g) g start end_ [(start, [start])] {[path start]}.

(** The loop of [determineDirection], carrying [hasUp] and [hasDown]. *)
Fixpoint direction_flags (g : Graph) (pth : list TFile) (hasUp hasDown : bool)
  : bool * bool :=
  match pth with
  | current :: (next :: _) as rest =>
      direction_flags g rest
        (if existsb (fun p => bool_decide (path p = path next))
              (getParents g current) then true else hasUp)
        (if existsb (fun c => bool_decide (path c = path next))
              (getChildren g current) then true else hasDown)
  | _ => (hasUp, hasDown)
  end.

(** [determineDirection(path, graph)] *)
Definition determineDirection (pth : list TFile) (g : Graph) : Direction :=
  if Z.of_nat (length pth) <? 2 then Mixed
  else
    let '(hasUp, hasDown) := direction_flags g pth false false in
    if hasUp && negb hasDown then Up
    else if hasDown && negb hasUp then Down
    else Mixed.

(** One of the two [for] loops of the inner [dfs] of [findAllPaths]; every
    recursive call gets its own copy [new Set(visited)], so the set is passed
    by value.  The result is what the calls push onto [paths], in order. *)
Fixpoint explore
    (rec : TFile -> list TFile -> gset string -> run (list NotePath.t))
    (pth : list TFile) (visited : gset string) (ns : list TFile)
  : run (list NotePath.t) :=
  match ns with
  | [] => Ret []
  | n :: rest =>
      if decide (path n ∈ visited) then explore rec pth visited rest
      else
        match rec n (pth ++ [n]) visited with
        | Timeout => Timeout
        | Ret found =>
            match explore rec pth visited rest with
            | Timeout => Timeout
            | Ret more => Ret (found ++ more)
            end
        end
  end.

(** The inner [dfs(current, target, path, visited)] of [findAllPaths]. *)
Fixpoint paths_dfs (fuel : nat) (g : Graph) (start end_ : TFile) (maxLength : Z)
    (current target : TFile) (pth : list TFile) (visited : gset string)
  : run (list NotePath.t) :=
  match fuel with
  | O => Timeout
  | S fuel' =>
      if Z.of_nat (length pth) >? maxLength then Ret []
      else if decide (path current = path target)
      then Ret [NotePath.mk start end_ pth (Z.of_nat (length pth) - 1)
                  (determineDirection pth g)]
      else
        let visited := {[path current]} ∪ visited in
        let rec := fun n p v => paths_dfs fuel' g start end_ maxLength n target p v in
        match explore rec pth visited (getParents g current) with
        | Timeout => Timeout
        | Ret ups =>
            match explore rec pth visited (getChildren g current) with
            | Timeout => Timeout
            | Ret downs => Ret (ups ++ downs)
            end
        end
  end.

(** [paths.sort((a, b) => a.length - b.length)]; the sort is stable. *)
Fixpoint insert_by_length (p : NotePath.t) (l : list NotePath.t)
  : list NotePath.t :=
  match l with
  | [] => [p]
  | q :: l' =>
      if NotePath.length p <=? NotePath.length q then p :: l
      else q :: insert_by_length p l'
  end.

Definition sort_by_length (l : list NotePath.t) : list NotePath.t :=
  foldr insert_by_length [] l.

(** Fuel for the inner [dfs]: the path grows by one document per call. *)
Definition paths_fuel (maxLength : Z) : nat := S (Z.to_nat maxLength).

(** [findAllPaths(start, end, graph, maxLength)] *)
Definition findAllPaths (g : Graph) (start end_ : TFile) (maxLength : Z)
  : run (list NotePath.t) :=
  match paths_dfs (paths_fuel maxLength) g start end_ maxLength
          start end_ [start] ∅ with
  | Timeout => Timeout
  | Ret paths => Ret (sort_by_length paths)
  end.

(** [findAllPaths(start, end, graph)], with [maxLength = 10]. *)
Definition findAllPaths_default (g : Graph) (start end_ : TFile)
  : run (list NotePath.t) :=
  findAllPaths g start end_ 10.

(* ===================================================================== *)
(** ** FrontmatterEditor *)
(* ===================================================================== *)

(** A value of the parsed frontmatter: [null], a boolean, an integer, a
    string, or an array of such values.  Mappings and other numbers are left
    out; a property that is not there reads as [undefined], the [None] of a
    lookup. *)
#[warnings="-register-all"] Inductive JsValue :=
| JNull
| JBool (b : bool)
| JNum (n : Z)
| JStr (s : string)
| JArr (l : list JsValue).

(** The [frontmatter] object handed to the callback of
    [processFrontMatter], by its own properties; the arrays of different
    properties are different objects. *)
Abbreviation Frontmatter := (gmap string JsValue).

(** [interface FrontmatterEditOptions]; every field is optional. *)
Record FrontmatterEditOptions := mkEditOptions {
  createIfMissing : option bool;
  removeIfEmpty : option bool;
  validate : option bool;
  validator : option (string -> bool)
}.

(** [options = {}] *)
Definition no_options : FrontmatterEditOptions :=
  mkEditOptions None None None None.

(** The [operation] of a result: ['add' | 'remove']. *)
Inductive Operation := OpAdd | OpRemove.

(** [interface FrontmatterEditResult] *)
Module FrontmatterEditResult.
Record t := mk {
  success : bool;
  error : option string;
  file : TFile;
  field : string;
  value : string;
  operation : Operation
}.
End FrontmatterEditResult.

(** Truthiness of a value. *)
Definition truthy (v : JsValue) : bool :=
  match v with
  | JNull => false
  | JBool b => b
  | JNum n => negb (n =? 0)
  | JStr s => negb (bool_decide (s = ""))
  | JArr _ => true
  end.

(** Truthiness of an optional flag. *)
Definition flag (o : option bool) : bool := default false o.

(** [v === value] for a string [value]. *)
Definition strict_eq (value : string) (v : JsValue) : bool :=
  match v with
  | JStr s => bool_decide (s = value)
  | _ => false
  end.

(** [fieldArray.includes(value)] *)
Definition includes (fieldArray : list JsValue) (value : string) : bool :=
  existsb (strict_eq value) fieldArray.

(** [Array.isArray(fieldValue) ? fieldValue : [fieldValue]] *)
Definition to_array (fieldValue : JsValue) : list JsValue :=
  match fieldValue with
  | JArr l => l
  | v => [v]
  end.

(** The character that opens and closes a string literal. *)
Definition double_quote : string := String (Ascii.ascii_of_nat 34) EmptyString.

(** [`Field "${fieldName}" does not exist`] *)
Definition field_missing (fieldName : string) : string :=
  String.append "Field "
    (String.append double_quote
       (String.append fieldName (String.append double_quote " does not exist"))).

(** The callback [addToField] passes to [processFrontMatter]: [inl] is the
    message of the error it throws, [inr] the frontmatter it leaves. *)
Definition addToField_callback (fieldName value : string)
    (options : FrontmatterEditOptions) (frontmatter : Frontmatter)
  : string + Frontmatter :=
  match
    match frontmatter !! fieldName with
    | None | Some JNull =>
        if negb (flag (createIfMissing options))
        then inl (field_missing fieldName)
        else inr (JArr [])
    | Some fieldValue => inr fieldValue
    end
  with
  | inl message => inl message
  | inr fieldValue =>
      let fieldArray := to_array fieldValue in
      if match validator options with
         | Some accepts => negb (accepts value)
         | None => false
         end
      then inl (String.append "Invalid value: " value)
      else if includes fieldArray value
      then inl (String.append "Value already exists: " value)
      else inr (<[fieldName := JArr (fieldArray ++ [JStr value])]> frontmatter)
  end.

(** The callback [removeFromField] passes to [processFrontMatter]. *)
Definition removeFromField_callback (fieldName value : string)
    (options : FrontmatterEditOptions) (frontmatter : Frontmatter)
  : string + Frontmatter :=
  match frontmatter !! fieldName with
  | None | Some JNull => inl (field_missing fieldName)
  | Some fieldValue =>
      let fieldArray := to_array fieldValue in
      if negb (includes fieldArray value)
      then inl (String.append "Value not found: " value)
      else
        let filtered :=
          List.filter (fun v => negb (strict_eq value v)) fieldArray in
        match filtered with
        | [] =>
            if flag (removeIfEmpty options)
            then inr (delete fieldName frontmatter)
            else inr (<[fieldName := JArr filtered]> frontmatter)
        | [only] => inr (<[fieldName := only]> frontmatter)
        | _ => inr (<[fieldName := JArr filtered]> frontmatter)
        end
  end.

(** [processFrontMatter(file, fn)] followed by the [try]/[catch] of the two
    methods: the frontmatter of the file is what the callback leaves, or
    stays as it was when the callback throws; [frontmatter] is the
    frontmatter of [file] before the call. *)
Definition edit (operation : Operation)
    (callback : Frontmatter -> string + Frontmatter)
    (frontmatter : Frontmatter) (file : TFile) (fieldName value : string)
  : FrontmatterEditResult.t * Frontmatter :=
  match callback frontmatter with
  | inr written =>
      (FrontmatterEditResult.mk true None file fieldName value operation,
       written)
  | inl message =>
      (FrontmatterEditResult.mk false (Some message) file fieldName value
         operation,
       frontmatter)
  end.

(** [addToField(file, fieldName, value, options)] *)
Definition addToField (frontmatter : Frontmatter) (file : TFile)
    (fieldName value : string) (options : FrontmatterEditOptions)
  : FrontmatterEditResult.t * Frontmatter :=
  edit OpAdd (addToField_callback fieldName value options)
    frontmatter file fieldName value.

(** [removeFromField(file, fieldName, value, options)] *)
Definition removeFromField (frontmatter : Frontmatter) (file : TFile)
    (fieldName value : string) (options : FrontmatterEditOptions)
  : FrontmatterEditResult.t * Frontmatter :=
  edit OpRemove (removeFromField_callback fieldName value options)
    frontmatter file fieldName value.

(** [getFieldValues(file, fieldName)]; [cache] is [cache?.frontmatter] of the
    file, [None] when there is none. *)
Definition getFieldValues (cache : option Frontmatter) (fieldName : string)
  : list JsValue :=
  match cache with
  | None => []
  | Some frontmatter =>
      match frontmatter !! fieldName with
      | None => []
      | Some fieldValue =>
          if negb (truthy fieldValue) then [] else to_array fieldValue
      end
  end.

(** [hasFieldValue(file, fieldName, value)] *)
Definition hasFieldValue (cache : option Frontmatter) (fieldName value : string)
  : bool :=
  match cache with
  | None => false
  | Some frontmatter =>
      match frontmatter !! fieldName with
      | None => false
      | Some fieldValue =>
          if negb (truthy fieldValue) then false
          else includes (to_array fieldValue) value
      end
  end.

(* ===================================================================== *)
(** ** Markdown exporter *)
(* ===================================================================== *)

(** A property of an options object: not there, there with the value
    [undefined], or there with a value. *)
Inductive Optional (A : Type) := Absent | Undefined | Value (a : A).
Arguments Absent {A}.
Arguments Undefined {A}.
Arguments Value {A} a.

(** [TreeNode] of the tree model, without its [metadata]. *)
Module TreeNode.
#[warnings="-register-all"] Inductive t := mk {
  file : TFile;
  children : list t;
  depth : Z;
  isCycle : bool
}.
End TreeNode.

(** [interface MarkdownExportOptions] *)
Module MarkdownExportOptions.
Record t := mk {
  useWikiLinks : Optional bool;
  showCycles : Optional bool;
  indent : Optional string;
  maxDepth : Optional Z;
  includeHeader : Optional bool
}.
End MarkdownExportOptions.

Definition DEFAULT_EXPORT_OPTIONS : MarkdownExportOptions.t :=
  MarkdownExportOptions.mk (Value true) (Value true) (Value "  ") Absent
    (Value true).

(** [options = {}] *)
Definition no_export_options : MarkdownExportOptions.t :=
  MarkdownExportOptions.mk Absent Absent Absent Absent Absent.

(** One property of [{ ...defaults, ...options }]: a property that is there
    in [options] wins, also when its value is [undefined]. *)
Definition spread_property {A : Type} (defaults options : Optional A)
  : Optional A :=
  match options with
  | Absent => defaults
  | _ => options
  end.

(** [{ ...defaults, ...options }] *)
Definition spread (defaults options : MarkdownExportOptions.t)
  : MarkdownExportOptions.t :=
  MarkdownExportOptions.mk
    (spread_property (MarkdownExportOptions.useWikiLinks defaults)
       (MarkdownExportOptions.useWikiLinks options))
    (spread_property (MarkdownExportOptions.showCycles defaults)
       (MarkdownExportOptions.showCycles options))
    (spread_property (MarkdownExportOptions.indent defaults)
       (MarkdownExportOptions.indent options))
    (spread_property (MarkdownExportOptions.maxDepth defaults)
       (MarkdownExportOptions.maxDepth options))
    (spread_property (MarkdownExportOptions.includeHeader defaults)
       (MarkdownExportOptions.includeHeader options)).

(** Truthiness of a boolean property. *)
Definition is_set (o : Optional bool) : bool :=
  match o with
  | Value b => b
  | _ => false
  end.

(** [s.repeat(n)] *)
Fixpoint repeat_string (s : string) (n : nat) : string :=
  match n with
  | O => ""
  | S n' => String.append s (repeat_string s n')
  end.

(** The separator of [lines.join]. *)
Definition newline : string := String (Ascii.ascii_of_nat 10) EmptyString.

(** The name of a note, as a wiki-link or plain. *)
Definition note_name (useWikiLinks : Optional bool) (f : TFile) : string :=
  if is_set useWikiLinks
  then String.append "[[" (String.append (basename f) "]]")
  else basename f.

(** A loop that exports one node after the other; an error ends it. *)
Definition export_each (export : TreeNode.t -> JsError + list string)
  : list TreeNode.t -> JsError + list string :=
  fix go (nodes : list TreeNode.t) : JsError + list string :=
    match nodes with
    | [] => inr []
    | node :: rest =>
        match export node with
        | inl e => inl e
        | inr pushed =>
            match go rest with
            | inl e => inl e
            | inr more => inr (pushed ++ more)
            end
        end
    end.

(** [exportNode(node, depth, lines, options)]: the lines it pushes onto
    [lines], or the [TypeError] of [options.indent!.repeat] on an [indent]
    that is [undefined]. *)
Fixpoint exportNode (node : TreeNode.t) (depth : nat)
    (options : MarkdownExportOptions.t) {struct node} : JsError + list string :=
  match node with
  | TreeNode.mk file children _ isCycle =>
      if match MarkdownExportOptions.maxDepth options with
         | Value m => Z.of_nat depth >? m
         | _ => false
         end
      then inr []
      else
        match MarkdownExportOptions.indent options with
        | Value unit_indent =>
            let indent := repeat_string unit_indent depth in
            let noteName :=
              note_name (MarkdownExportOptions.useWikiLinks options) file in
            let noteName :=
              if is_set (MarkdownExportOptions.showCycles options) && isCycle
              then String.append noteName " ðŸ”„"
              else noteName in
            match export_each (fun child => exportNode child (S depth) options)
                    children with
            | inl e => inl e
            | inr below =>
                inr (String.append indent (String.append "- " noteName)
                       :: below)
            end
        | _ =>
            inl (TypeError
                   "Cannot read properties of undefined (reading 'repeat')")
        end
  end.

(** The header both exports start with: [opts.includeHeader && title]. *)
Definition header_lines (opts : MarkdownExportOptions.t) (title : option string)
  : list string :=
  match title with
  | Some t =>
      if is_set (MarkdownExportOptions.includeHeader opts)
         && negb (bool_decide (t = ""))
      then [String.append "# " t; ""]
      else []
  | None => []
  end.

(** The first argument of [exportTreeToMarkdown]: [TreeNode | TreeNode[]]. *)
Inductive TreeArgument :=
| OneTree (tree : TreeNode.t)
| Trees (trees : list TreeNode.t).

(** [exportTreeToMarkdown(tree, title, options)] *)
Definition exportTreeToMarkdown (tree : TreeArgument) (title : option string)
    (options : MarkdownExportOptions.t) : JsError + string :=
  let opts := spread DEFAULT_EXPORT_OPTIONS options in
  let lines := header_lines opts title in
  match
    match tree with
    | Trees trees => export_each (fun node => exportNode node 0 opts) trees
    | OneTree node => exportNode node 0 opts
    end
  with
  | inl e => inl e
  | inr pushed => inr (String.concat newline (lines ++ pushed))
  end.

(** [exportNotesToMarkdown(notes, title, options)] *)
Definition exportNotesToMarkdown (notes : list TFile) (title : option string)
    (options : MarkdownExportOptions.t) : string :=
  let opts := spread DEFAULT_EXPORT_OPTIONS options in
  let lines := header_lines opts title in
  String.concat newline
    (lines
     ++ map (fun note =>
               String.append "- "
                 (note_name (MarkdownExportOptions.useWikiLinks opts) note))
          notes).

(** [exportPathToMarkdown(path, options)] *)
Definition exportPathToMarkdown (pth : list TFile)
    (options : MarkdownExportOptions.t) : string :=
  let opts := spread DEFAULT_EXPORT_OPTIONS options in
  String.concat " â†’ "
    (map (note_name (MarkdownExportOptions.useWikiLinks opts)) pth).

(* ===================================================================== *)
(** ** Sample vaults *)
(* ===================================================================== *)

Definition doc (name : string) : TFile := mkTFile (String.append name ".md") name.

(** A vault given by its notes and the references each one declares; a
    reference resolves to the note of that name, if there is one. *)
Definition vault (notes : list (string * list string)) : App :=
  mkApp (map (fun n => doc (fst n)) notes)
    (fun f =>
       match list_find (fun n => path (doc (fst n)) = path f) notes with
       | Some (_, (_, refs)) => FArray refs
       | None => FAbsent
       end)
    (fun ref _ =>
       match list_find (fun n => fst n = ref) notes with
       | Some (_, (name, _)) => Some (doc name)
       | None => None
       end).

Definition self_loop : Graph := build (vault [("A", ["A"])]).
Definition chain : Graph :=
  build (vault [("A", ["B"]); ("B", ["C"]); ("C", ["D"]); ("D", [])]).
Definition diamond : Graph :=
  build (vault [("A", ["B"; "C"]); ("B", ["D"]); ("C", ["D"]); ("D", [])]).
Definition two_cycle : Graph := build (vault [("A", ["B"]); ("B", ["A"])]).
Definition twice : Graph := build (vault [("C", ["P"; "P"]); ("P", [])]).
Definition pair : Graph := build (vault [("A", ["B"]); ("B", [])]).
Definition detour : Graph := build (vault [("A", ["B"; "A"]); ("B", ["A"])]).

(** Two notes whose parent reference resolves to a file that is no markdown
    file of the vault, so no node of the graph. *)
Definition outside_parent : App :=
  mkApp [doc "A"; doc "B"]
    (fun _ => FScalar "X.png")
    (fun ref _ =>
       if decide (ref = "X.png") then Some (mkTFile "X.png" "X") else None).

Definition sib : Graph := build outside_parent.

(** The frontmatter of a note with references to parents. *)
Definition note_frontmatter : Frontmatter :=
  {[ "parent" := JArr [JStr "[[A]]"; JStr "[[B]]"]; "title" := JStr "Note" ]}.

(** A small tree: [A] over [B] over [C], and [A] over [D]. *)
Definition sample_tree : TreeNode.t :=
  TreeNode.mk (doc "A")
    [TreeNode.mk (doc "B") [TreeNode.mk (doc "C") [] 2 false] 1 false;
     TreeNode.mk (doc "D") [] 1 true]
    0 false.

(* ===================================================================== *)
(** ** Vocabulary of the statements and of the invariants *)
(* ===================================================================== *)

(** *** The inverse index that [build] computes *)

(** The documents of [ns] that name [k] as a parent, in order, each one once
    per occurrence of [k] in its [parents]. *)
Definition naming (ns : list NodeInfo) (k : string) : list TFile :=
  flat_map
    (fun c => map (fun _ => file c) (filter (fun p => path p = k) (parents c)))
    ns.

(** The inverse index of the [parents] arrays of a graph, at [k]. *)
Definition inverse_index (g : Graph) (k : string) : list TFile :=
  naming (graph_values g) k.

(** The part of a graph the second pass of [build] never writes. *)
Definition skeleton (g : Graph) : list (string * TFile * list TFile) :=
  map (fun kv => (fst kv, file (snd kv), parents (snd kv))) g.

(** [children.push(...)] repeated. *)
Definition with_more_children (more : list TFile) (n : NodeInfo) : NodeInfo :=
  mkNodeInfo (file n) (parents n) (children n ++ more).

(** What the first pass establishes. *)
Definition fresh_nodes (g : Graph) : Prop :=
  NoDup (graph_keys g)
  /\ Forall (fun kv => path (file (snd kv)) = fst kv /\ children (snd kv) = []) g.

(** Every node is filed under the path of its document, as [build] does. *)
Definition keyed_by_path (g : Graph) : Prop :=
  Forall (fun kv => path (file (snd kv)) = fst kv) g.

(** *** Generations *)

(** What the walk keeps true: the documents listed so far are pairwise
    different and all of them are in [visited]. *)
Definition listed_once (visited : gset string) (result : list (list TFile)) : Prop :=
  NoDup (map path (concat result))
  /\ forall p, p ∈ map path (concat result) -> p ∈ visited.

(** *** Parent edges and cycles *)

(** [names_parent g c p]: the document with path [c] has a parent with path
    [p]. *)
Definition names_parent (g : Graph) (c p : string) : Prop :=
  exists f, path f = c /\ p ∈ map path (getParents g f).

(** A document is cycle-free when every chain of parent edges from it ends:
    accessibility for the parent-of relation. *)
Definition cycle_free (g : Graph) (c : string) : Prop :=
  Acc (fun p c => names_parent g c p) c.

(** [c] lies on a cycle of parent edges. *)
Definition on_cycle (g : Graph) (c : string) : Prop := tc (names_parent g) c c.

(** A cycle of parent edges can be reached from [c]. *)
Definition reaches_cycle (g : Graph) (c : string) : Prop :=
  exists k, rtc (names_parent g) c k /\ on_cycle g k.

(** No document of the graph lies on a cycle of parent edges. *)
Definition acyclic (g : Graph) : Prop := forall k, ~ on_cycle g k.

(** A well-formed cycle report: the path closes on the document it starts
    with, and the length counts the documents without the closing one. *)
Definition closed_cycle (ci : CycleInfo.t) : Prop :=
  (exists a mid b,
      CycleInfo.cyclePath ci = a :: mid ++ [b] /\ path a = path b)
  /\ CycleInfo.length ci = Z.of_nat (length (CycleInfo.cyclePath ci)) - 1.

(** *** Invariants of the three-colour walk *)

(** The documents of [U] that are still white. *)
Definition whites (U : gset string) (st : gmap string NodeState) : gset string :=
  filter (fun k => state_of st k = WHITE) U.

(** A walk only ever recolours white documents. *)
Definition frame (st st' : gmap string NodeState) : Prop :=
  forall k, state_of st k <> WHITE -> state_of st' k = state_of st k.

(** Gray documents are on the path stack. *)
Definition gray_on_stack (st : gmap string NodeState) (sk : list TFile) : Prop :=
  forall k, state_of st k = GRAY -> k ∈ map path sk.

(** Black documents are cycle-free. *)
Definition black_cycle_free (g : Graph) (st : gmap string NodeState) : Prop :=
  forall k, state_of st k = BLACK -> cycle_free g k.

(** A walk that returns without a cycle leaves no new gray document. *)
Definition gray_within (st' st : gmap string NodeState) : Prop :=
  forall k, state_of st' k = GRAY -> state_of st k = GRAY.

(** What [dfs] may assume when it is called on [cur]. *)
Definition dfs_pre (g : Graph) (U : gset string) (cur : TFile)
    (st : gmap string NodeState) (sk : list TFile) : Prop :=
  path cur ∈ U
  /\ state_of st (path cur) = WHITE
  /\ gray_on_stack st sk
  /\ (forall x, x ∈ map path sk -> rtc (names_parent g) x (path cur))
  /\ black_cycle_free g st.

(** What [dfs] guarantees when it returns. *)
Definition dfs_post (g : Graph) (cur : TFile)
    (st : gmap string NodeState) (sk : list TFile) (res : DfsResult) : Prop :=
  match res with
  | (Some ci, _, _) => reaches_cycle g (path cur) /\ closed_cycle ci
  | (None, st', sk') =>
      sk' = sk /\ frame st st' /\ state_of st' (path cur) = BLACK
      /\ black_cycle_free g st' /\ gray_within st' st
  end.

(** The paths a walk of [g] can meet: its documents and the targets of
    their parent edges. *)
Definition graph_paths (g : Graph) : gset string :=
  list_to_set (map path (getAllFiles g)) ∪ list_to_set (edge_targets g).

(** *** Paths of the undirected view *)

(** One step of a path: from [x] to one of its parents or children. *)
Definition linked (g : Graph) (x y : string) : Prop :=
  exists f, path f = x
            /\ (y ∈ map path (getParents g f) \/ y ∈ map path (getChildren g f)).

(** Consecutive documents of [pth] are linked. *)
Fixpoint is_walk (g : Graph) (pth : list TFile) : Prop :=
  match pth with
  | a :: (b :: _) as rest => linked g (path a) (path b) /\ is_walk g rest
  | _ => True
  end.

(** [pth] is a path of the undirected view from [s] to [e]. *)
Definition walk_between (g : Graph) (s e : string) (pth : list TFile) : Prop :=
  is_walk g pth
  /\ path <$> head pth = Some s
  /\ path <$> last pth = Some e.

(** What every path record pushed by the inner [dfs] satisfies, [first] being
    the head of the path the search started from. *)
Definition simple_path_record (g : Graph) (start end_ : TFile) (maxLength : Z)
    (first : option TFile) (target : TFile) (np : NotePath.t) : Prop :=
  NotePath.start np = start
  /\ NotePath.end_ np = end_
  /\ is_walk g (NotePath.path np)
  /\ NoDup (map path (NotePath.path np))
  /\ head (NotePath.path np) = first
  /\ path <$> last (NotePath.path np) = Some (path target)
  /\ Z.of_nat (length (NotePath.path np)) <= maxLength
  /\ NotePath.length np = Z.of_nat (length (NotePath.path np)) - 1.

(** *** The undirected view of a built graph *)

(** One step of the undirected view as the graph stores it: from a document
    to a parent it names, or from a document of the graph back to a document
    that names it as a parent.  A parent that is no document of the graph
    has no node, so no step leads back from it. *)
Definition undirected_step (g : Graph) (x y : string) : Prop :=
  names_parent g x y \/ (x ∈ graph_keys g /\ names_parent g y x).

(** Consecutive members of [l] are related by [R]. *)
Fixpoint stepwise {A : Type} (R : relation A) (l : list A) : Prop :=
  match l with
  | a :: (b :: _) as rest => R a b /\ stepwise R rest
  | _ => True
  end.

(** [l] lists the documents of a path of the undirected view from [s] to
    [e]. *)
Definition undirected_path (g : Graph) (s e : string) (l : list string) : Prop :=
  stepwise (undirected_step g) l /\ head l = Some s /\ last l = Some e.

(** *** Invariants of the breadth-first search *)

(** Every neighbour of [v] has been visited and none is the target. *)
Definition expanded (g : Graph) (end_ : TFile) (visited : gset string)
    (v : string) : Prop :=
  forall y, linked g v y -> y ∈ visited /\ y <> path end_.

(** The invariant of the search loop.  The queue is [qa ++ qb]; the paths in
    [qa] have [K] documents and those in [qb] have [K + 1]. *)
Record bfs_inv (g : Graph) (start end_ : TFile) (K : nat)
    (qa qb : list (TFile * list TFile)) (visited : gset string) : Prop :=
  mk_bfs_inv {
    inv_start : path start ∈ visited;
    inv_entries : forall n p, (n, p) ∈ qa ++ qb ->
      path n ∈ visited /\ is_walk g p /\ head p = Some start /\ last p = Some n;
    inv_qa : forall e, e ∈ qa -> length (snd e) = K;
    inv_qb : forall e, e ∈ qb -> length (snd e) = S K;
    inv_visited : forall v, v ∈ visited ->
      (exists e, e ∈ qa ++ qb /\ path (fst e) = v) \/ expanded g end_ visited v;
    inv_levels : forall x m, nsteps (linked g) m (path start) x -> (m < K)%nat ->
      x ∈ visited
      /\ (expanded g end_ visited x
          \/ exists e, e ∈ qa ++ qb /\ path (fst e) = x
                       /\ (length (snd e) <= S m)%nat)
  }.

(** What the search loop answers. *)
Definition bfs_post (g : Graph) (start end_ : TFile) (r : option NotePath.t) : Prop :=
  match r with
  | None => forall m, ~ nsteps (linked g) m (path start) (path end_)
  | Some np =>
      NotePath.start np = start
      /\ NotePath.end_ np = end_
      /\ walk_between g (path start) (path end_) (NotePath.path np)
      /\ head (NotePath.path np) = Some start
      /\ NotePath.length np = Z.of_nat (length (NotePath.path np)) - 1
      /\ forall m, nsteps (linked g) m (path start) (path end_) ->
           (length (NotePath.path np) <= S m)%nat
  end.

(** The paths the search can meet besides the start. *)
Definition link_targets (g : Graph) : gset string :=
  list_to_set (edge_targets g) ∪ list_to_set (child_targets g).

(** *** Cycle reports, levels of ancestors, hops of a path *)

(** Each document of [l] names the next one as a parent. *)
Fixpoint parent_chain (g : Graph) (l : list TFile) : Prop :=
  match l with
  | a :: (b :: _) as rest => names_parent g (path a) (path b) /\ parent_chain g rest
  | _ => True
  end.

(** The rendering of a cycle report is made from its path. *)
Definition described (ci : CycleInfo.t) : Prop :=
  CycleInfo.description ci
  = String.append "Cycle detected: "
      (String.concat " → " (map basename (CycleInfo.cyclePath ci))).

(** [x] is [k] parent edges away from [s], and not fewer. *)
Definition at_distance (g : Graph) (s : string) (k : nat) (x : string) : Prop :=
  nsteps (names_parent g) k s x
  /\ forall m, (m < k)%nat -> ~ nsteps (names_parent g) m s x.

(** The hops of a path: each document with the one after it. *)
Fixpoint hops (pth : list TFile) : list (TFile * TFile) :=
  match pth with
  | a :: (b :: _) as rest => (a, b) :: hops rest
  | _ => []
  end.

(** The hop leads to a parent of its first document. *)
Definition up_hop (g : Graph) (h : TFile * TFile) : Prop :=
  path (snd h) ∈ map path (getParents g (fst h)).

(** The hop leads to a child of its first document. *)
Definition down_hop (g : Graph) (h : TFile * TFile) : Prop :=
  path (snd h) ∈ map path (getChildren g (fst h)).

(** What the search keeps true of its queue: the target is never marked
    visited, and every queued path ends at its node, repeats no document and
    runs through visited documents only. *)
Definition queue_ok (end_ : TFile) (visited : gset string)
    (queue : list (TFile * list TFile)) : Prop :=
  (path end_ ∉ visited)
  /\ Forall (fun e => last (snd e) = Some (fst e)
                      /\ NoDup (map path (snd e))
                      /\ forall x, x ∈ map path (snd e) -> x ∈ visited) queue.

(** The path of a found record: it ends with a hop onto the target, repeats
    no document, and the direction tells which loop found the last hop. *)
Definition last_hop_record (g : Graph) (end_ : TFile) (np : NotePath.t) : Prop :=
  exists pre prev lst,
    NotePath.path np = pre ++ [prev; lst]
    /\ path lst = path end_
    /\ NoDup (map path (NotePath.path np))
    /\ match NotePath.direction np with
       | Up => lst ∈ getParents g prev
       | Down => lst ∈ getChildren g prev
                 /\ path end_ ∉ map path (getParents g prev)
       | Mixed => False
       end.

(** Every parent link of the vault resolves to a file of the vault. *)
Definition links_inside (app : App) : Prop :=
  Forall (fun f => Forall (fun p => path p ∈ map path (getMarkdownFiles app))
                     (extractParentLinks app f))
    (getMarkdownFiles app).

(** *** Frontmatter fields *)

(** The field read as an array, the way [addToField] reads it: a missing or
    [null] field is the empty array, a single value is wrapped. *)
Definition field_array (frontmatter : Frontmatter) (fieldName : string)
  : list JsValue :=
  match frontmatter !! fieldName with
  | None | Some JNull => []
  | Some fieldValue => to_array fieldValue
  end.

(** How many times the string [value] occurs in an array. *)
Definition occurrences (value : string) (l : list JsValue) : nat :=
  length (List.filter (strict_eq value) l).

(** A string that is not empty, as a reference to a note is. *)
Definition is_link (v : JsValue) : bool :=
  match v with
  | JStr s => negb (bool_decide (s = ""))
  | _ => false
  end.

(** The field holds a non-empty string or an array of non-empty strings. *)
Definition link_field (frontmatter : Frontmatter) (fieldName : string) : bool :=
  match frontmatter !! fieldName with
  | Some (JArr l) => forallb is_link l
  | Some v => is_link v
  | None => false
  end.

(** The field holds a value that [removeFromField] writes back as it finds
    it: something other than [null] that is no array, or an array of two or
    more values. *)
Definition settled_field (frontmatter : Frontmatter) (fieldName : string)
  : bool :=
  match frontmatter !! fieldName with
  | Some (JArr (_ :: _ :: _)) => true
  | Some (JArr _) | Some JNull | None => false
  | Some _ => true
  end.

(** *** Trees to export *)

(** The options with their [maxDepth] replaced. *)
Definition with_maxDepth (maxDepth : Optional Z)
    (options : MarkdownExportOptions.t) : MarkdownExportOptions.t :=
  MarkdownExportOptions.mk
    (MarkdownExportOptions.useWikiLinks options)
    (MarkdownExportOptions.showCycles options)
    (MarkdownExportOptions.indent options)
    maxDepth
    (MarkdownExportOptions.includeHeader options).

(** The tree cut below [levels] levels under its root. *)
Fixpoint prune (levels : nat) (node : TreeNode.t) : TreeNode.t :=
  match node with
  | TreeNode.mk file children depth isCycle =>
      TreeNode.mk file
        match levels with
        | O => []
        | S levels' => map (prune levels') children
        end
        depth isCycle
  end.

(** [prune] on either form of the first argument. *)
Definition prune_argument (levels : nat) (tree : TreeArgument) : TreeArgument :=
  match tree with
  | OneTree node => OneTree (prune levels node)
  | Trees trees => Trees (map (prune levels) trees)
  end.

(** A node without children that is not marked as closing a cycle. *)
Definition plain_leaf (node : TreeNode.t) : bool :=
  match TreeNode.children node with
  | [] => negb (TreeNode.isCycle node)
  | _ => false
  end.

(* ===================================================================== *)
(** ** Lookups in the node map *)
(* ===================================================================== *)

Lemma getParents_path g f f' :
  path f = path f' -> getParents g f = getParents g f'.
Proof. unfold getParents. by intros ->. Qed.

Lemma getChildren_path g f f' :
  path f = path f' -> getChildren g f = getChildren g f'.
Proof. unfold getChildren. by intros ->. Qed.

Lemma elem_of_map {A B : Type} (f : A -> B) (l : list A) (y : B) :
  y ∈ map f l <-> exists x, y = f x /\ x ∈ l.
Proof.
  induction l as [|a l IH]; simpl.
  - split; [by intros ?%elem_of_nil | by intros (? & _ & ?%elem_of_nil)].
  - rewrite elem_of_cons, IH. split.
    + intros [->|(x & -> & Hx)]; [exists a | exists x]; split; auto; [by left | by right].
    + intros (x & -> & [->|Hx]%elem_of_cons); [by left | right; eauto].
Qed.

Lemma graph_get_None g k : k ∉ graph_keys g -> graph_get g k = None.
Proof.
  induction g as [|[k' v] g IH]; simpl; [done|].
  intros Hk. case_decide as E.
  - subst. exfalso. apply Hk. left.
  - apply IH. intros ?. apply Hk. by right.
Qed.

Lemma graph_get_Some_key g k n : graph_get g k = Some n -> k ∈ graph_keys g.
Proof.
  induction g as [|[k' v] g IH]; simpl; [done|].
  case_decide as E.
  - subst. intros _. left.
  - intros H. right. by apply IH.
Qed.

Lemma graph_get_Some_value g k n : graph_get g k = Some n -> n ∈ graph_values g.
Proof.
  induction g as [|[k' v] g IH]; simpl; [done|].
  case_decide as E.
  - intros [= ->]. left.
  - intros H. right. by apply IH.
Qed.

(* ===================================================================== *)
(** ** The generational walk of [getAncestors] *)
(* ===================================================================== *)

Section Generations.
Variable graph : GraphObject.

Lemma stage_parents_spec ps : forall next seen visited,
  exists added,
    stage_parents ps next seen visited
    = (next ++ added,
       list_to_set (map path added) ∪ seen,
       list_to_set (map path added) ∪ visited)
    /\ NoDup (map path added)
    /\ (forall p, p ∈ map path added -> p ∉ visited)
    /\ (forall x, x ∈ added -> x ∈ ps).
Proof.
  induction ps as [|parent rest IH]; intros next seen visited; simpl.
  - exists []. rewrite app_nil_r. simpl.
    repeat split; [f_equal; [f_equal|]; set_solver | constructor | set_solver | set_solver].
  - case_decide as Hv; [|case_decide as Hs].
    + destruct (IH next seen visited) as (added & -> & Hnd & Hfresh & Hsub).
      exists added. repeat split; auto. intros x Hx. right. auto.
    + destruct (IH next seen visited) as (added & -> & Hnd & Hfresh & Hsub).
      exists added. repeat split; auto. intros x Hx. right. auto.
    + destruct (IH (next ++ [parent]) ({[path parent]} ∪ seen)
                  ({[path parent]} ∪ visited))
        as (added & -> & Hnd & Hfresh & Hsub).
      exists (parent :: added). simpl. repeat split.
      * rewrite <- app_assoc. simpl. f_equal; [f_equal|]; set_solver.
      * constructor; [|done]. intros Hin. apply Hfresh in Hin. set_solver.
      * intros p Hp. apply elem_of_cons in Hp as [->|Hp]; [done|].
        apply Hfresh in Hp. set_solver.
      * intros x Hx. apply elem_of_cons in Hx as [->|Hx]; [left|right; auto].
Qed.

Lemma stage_generation_spec cur : forall next seen visited,
  exists added,
    stage_generation graph cur next seen visited
    = (next ++ added,
       list_to_set (map path added) ∪ seen,
       list_to_set (map path added) ∪ visited)
    /\ NoDup (map path added)
    /\ (forall p, p ∈ map path added -> p ∉ visited)
    /\ (forall x, x ∈ added ->
          exists c, c ∈ cur /\ x ∈ obj_getParents graph c).
Proof.
  induction cur as [|c rest IH]; intros next seen visited; simpl.
  - exists []. rewrite app_nil_r. simpl.
    repeat split; [f_equal; [f_equal|]; set_solver | constructor | set_solver | set_solver].
  - destruct (stage_parents_spec (obj_getParents graph c) next seen visited)
      as (a1 & -> & Hnd1 & Hfresh1 & Hsub1).
    destruct (IH (next ++ a1) (list_to_set (map path a1) ∪ seen)
                (list_to_set (map path a1) ∪ visited))
      as (a2 & -> & Hnd2 & Hfresh2 & Hsub2).
    exists (a1 ++ a2). rewrite map_app. repeat split.
    + rewrite app_assoc. f_equal; [f_equal|]; set_solver.
    + apply NoDup_app. repeat split; [done| |done].
      intros p Hp1 Hp2. apply Hfresh2 in Hp2. set_solver.
    + intros p Hp. apply elem_of_app in Hp as [Hp|Hp]; [auto|].
      apply Hfresh2 in Hp. set_solver.
    + intros x Hx. apply elem_of_app in Hx as [Hx|Hx].
      * exists c. split; [left | auto].
      * destruct (Hsub2 x Hx) as (c' & Hc' & Hx'). exists c'. split; [by right | done].
Qed.

Lemma generations_spec levels : forall cur visited result,
  listed_once visited result ->
  NoDup (map path (concat (generations graph levels cur visited result)))
  /\ forall p, p ∈ visited ->
       p ∈ map path (concat (generations graph levels cur visited result)) ->
       p ∈ map path (concat result).
Proof.
  induction levels as [|levels IH]; intros cur visited result [Hnd Hvis]; simpl.
  - split; [done | auto].
  - destruct (stage_generation_spec cur [] ∅ visited)
      as (added & -> & Hnda & Hfresh & _).
    simpl. destruct added as [|a added]; [split; [done | auto]|].
    set (next := a :: added) in *.
    assert (Hconcat : concat (result ++ [next]) = concat result ++ next).
    { rewrite concat_app. simpl. by rewrite app_nil_r. }
    destruct (IH next (list_to_set (map path next) ∪ visited) (result ++ [next]))
      as [Hnd' Hold].
    { split; rewrite Hconcat, map_app.
      - apply NoDup_app. repeat split; [done| |done].
        intros p Hp1 Hp2. apply Hfresh in Hp2. auto.
      - intros p Hp. apply elem_of_app in Hp as [Hp|Hp]; [set_solver|].
        apply elem_of_union_l. by apply elem_of_list_to_set. }
    split; [done|].
    intros p Hp Hin.
    specialize (Hold p (elem_of_union_r _ _ _ Hp) Hin).
    rewrite Hconcat, map_app in Hold.
    apply elem_of_app in Hold as [Hold|Hold]; [done|].
    by apply Hfresh in Hold.
Qed.

End Generations.

Lemma getAncestors_explicit graph f d :
  getAncestors graph f (Some d)
  = inr (generations graph (Z.to_nat d) [f] {[path f]} []).
Proof. reflexivity. Qed.

Lemma generations_self_only (graph : GraphObject) f levels :
  (forall p, p ∈ obj_getParents graph f -> path p = path f) ->
  generations graph levels [f] {[path f]} [] = [].
Proof.
  intros Hself. destruct levels as [|levels]; [done|]. simpl.
  destruct (stage_parents_spec (obj_getParents graph f) [] ∅ {[path f]})
    as (added & -> & _ & Hfresh & Hsub).
  destruct added as [|a added]; [done|]. exfalso.
  apply (Hfresh (path a)); [left|].
  rewrite (Hself a); [set_solver|]. apply Hsub. left.
Qed.

Lemma generations_from_start (graph : GraphObject) f levels :
  NoDup (map path (concat (generations graph levels [f] {[path f]} [])))
  /\ path f ∉ map path (concat (generations graph levels [f] {[path f]} [])).
Proof.
  destruct (generations_spec graph levels [f] {[path f]} []) as [Hnd Hold].
  { split; simpl; [constructor | set_solver]. }
  split; [done|].
  intros Hin. specialize (Hold (path f) ltac:(set_solver) Hin).
  simpl in Hold. set_solver.
Qed.

(** C6.  Called without [maxDepth] on an instance of [RelationGraph],
    [getAncestors] throws a [TypeError]: evaluating
    [maxDepth ?? this.graph.getMaxDepth()] calls a member the class does not
    declare.  This holds for every graph and every file, so the default-depth
    mode never returns a generation list. *)
Theorem getAncestors_default_depth_throws (g : Graph) (f : TFile) :
  getAncestors (RelationGraph_object g) f None
  = inl (TypeError "this.graph.getMaxDepth is not a function").
Proof. reflexivity. Qed.

(** C7.  On the diamond ([A] has parents [B] and [C], both have parent [D])
    [getAncestors(A, 2)] is [[[B, C], [D]]].  In general the generations
    returned for an explicit depth list every document at most once over all
    generations together, and never list the start document. *)
Theorem ancestors_listed_once :
  getAncestors (RelationGraph_object diamond) (doc "A") (Some 2)
  = inr [[doc "B"; doc "C"]; [doc "D"]]
  /\ forall (graph : GraphObject) (f : TFile) (d : Z),
       exists gens,
         getAncestors graph f (Some d) = inr gens
         /\ NoDup (map path (concat gens))
         /\ path f ∉ map path (concat gens).
Proof.
  split; [by vm_compute|].
  intros graph f d. eexists. split; [apply getAncestors_explicit|].
  apply generations_from_start.
Qed.




(* ===================================================================== *)
(** ** [build]: the children arrays are the inverse index of the parents *)
(* ===================================================================== *)

Lemma graph_get_set g k v k' :
  graph_get (graph_set g k v) k' = if decide (k = k') then Some v else graph_get g k'.
Proof.
  induction g as [|[k0 v0] g IH]; simpl.
  - repeat case_decide; congruence.
  - destruct (decide (k0 = k)) as [->|Hne]; simpl.
    + repeat case_decide; congruence.
    + rewrite IH. repeat case_decide; congruence.
Qed.

Lemma graph_keys_set_in g k v :
  k ∈ graph_keys g -> graph_keys (graph_set g k v) = graph_keys g.
Proof.
  induction g as [|[k0 v0] g IH]; simpl; [by intros ?%elem_of_nil|].
  intros Hin. destruct (decide (k0 = k)) as [->|Hne]; simpl; [done|].
  f_equal. apply IH. apply elem_of_cons in Hin as [?|?]; congruence.
Qed.

Lemma graph_keys_set_notin g k v :
  k ∉ graph_keys g -> graph_keys (graph_set g k v) = graph_keys g ++ [k].
Proof.
  induction g as [|[k0 v0] g IH]; simpl; [done|].
  intros Hin. destruct (decide (k0 = k)) as [->|Hne]; simpl.
  - exfalso. apply Hin. left.
  - f_equal. apply IH. intros ?. apply Hin. by right.
Qed.

Lemma graph_set_NoDup g k v :
  NoDup (graph_keys g) -> NoDup (graph_keys (graph_set g k v)).
Proof.
  intros Hnd. destruct (decide (k ∈ graph_keys g)) as [Hin|Hin].
  - by rewrite graph_keys_set_in.
  - rewrite graph_keys_set_notin by done.
    apply NoDup_app. repeat split; [done | | apply NoDup_singleton].
    intros x Hx ->%list_elem_of_singleton. done.
Qed.

Lemma skeleton_set g k n v :
  graph_get g k = Some n -> file v = file n -> parents v = parents n ->
  skeleton (graph_set g k v) = skeleton g.
Proof.
  intros Hget Hf Hp. induction g as [|[k0 v0] g IH]; simpl in *; [done|].
  destruct (decide (k0 = k)) as [->|Hne]; simpl.
  - injection Hget as ->. by rewrite Hf, Hp.
  - f_equal. by apply IH.
Qed.

Lemma push_child_skeleton g p c : skeleton (push_child g p c) = skeleton g.
Proof.
  unfold push_child. destruct (graph_get g (path p)) as [n|] eqn:E; [|done].
  by apply (skeleton_set g (path p) n).
Qed.

Lemma push_child_get g p c k :
  graph_get (push_child g p c) k
  = with_more_children (if decide (path p = k) then [c] else []) <$> graph_get g k.
Proof.
  unfold push_child. destruct (graph_get g (path p)) as [n|] eqn:E.
  - rewrite graph_get_set. case_decide as Hk.
    + subst k. by rewrite E.
    + destruct (graph_get g k) as [[]|]; simpl; [|done].
      unfold with_more_children; simpl. by rewrite app_nil_r.
  - case_decide as Hk.
    + subst k. by rewrite E.
    + destruct (graph_get g k) as [[]|]; simpl; [|done].
      unfold with_more_children; simpl. by rewrite app_nil_r.
Qed.

Lemma with_more_children_twice a b n :
  with_more_children b (with_more_children a n) = with_more_children (a ++ b) n.
Proof. unfold with_more_children; simpl. by rewrite app_assoc. Qed.

Lemma link_parents_get c k ps : forall g,
  graph_get (fold_left (fun g p => push_child g p c) ps g) k
  = with_more_children (map (fun _ => c) (filter (fun p => path p = k) ps))
    <$> graph_get g k.
Proof.
  induction ps as [|p ps IH]; intros g; simpl.
  - destruct (graph_get g k) as [[]|]; simpl; [|done].
    unfold with_more_children; simpl. by rewrite app_nil_r.
  - rewrite IH, push_child_get. rewrite filter_cons.
    destruct (graph_get g k) as [n|]; simpl; [|done].
    rewrite with_more_children_twice. by case_decide.
Qed.

Lemma link_parents_skeleton c ps : forall g,
  skeleton (fold_left (fun g p => push_child g p c) ps g) = skeleton g.
Proof.
  induction ps as [|p ps IH]; intros g; simpl; [done|].
  by rewrite IH, push_child_skeleton.
Qed.

Lemma link_nodes_get k ns : forall g,
  graph_get (fold_left link_node ns g) k
  = with_more_children (naming ns k) <$> graph_get g k.
Proof.
  induction ns as [|c ns IH]; intros g; simpl.
  - destruct (graph_get g k) as [[]|]; simpl; [|done].
    unfold with_more_children; simpl. by rewrite app_nil_r.
  - rewrite IH. unfold link_node. rewrite link_parents_get.
    destruct (graph_get g k) as [n|]; simpl; [|done].
    by rewrite with_more_children_twice.
Qed.

Lemma link_nodes_skeleton ns : forall g,
  skeleton (fold_left link_node ns g) = skeleton g.
Proof.
  induction ns as [|c ns IH]; intros g; simpl; [done|].
  rewrite IH. apply link_parents_skeleton.
Qed.

Lemma naming_skeleton g g' k :
  skeleton g = skeleton g' -> inverse_index g k = inverse_index g' k.
Proof.
  unfold inverse_index, naming, graph_values, skeleton.
  revert g'. induction g as [|[k0 n0] g IH]; intros [|[k1 n1] g']; simpl;
    try done.
  intros [= _ Hf Hp Hrest]. rewrite Hf, Hp. f_equal. by apply IH.
Qed.

Lemma skeleton_keys g g' : skeleton g = skeleton g' -> graph_keys g = graph_keys g'.
Proof.
  unfold skeleton, graph_keys.
  revert g'. induction g as [|[k0 n0] g IH]; intros [|[k1 n1] g']; simpl;
    try done.
  intros [= -> _ _ Hrest]. f_equal. by apply IH.
Qed.

Lemma graph_set_Forall (P : string * NodeInfo -> Prop) g k v :
  Forall P g -> P (k, v) -> Forall P (graph_set g k v).
Proof.
  intros Hg Hv. induction Hg as [|[k0 v0] g H0 Hg IH]; simpl.
  - by constructor.
  - case_decide; constructor; auto.
Qed.

Lemma build_nodes_fresh app : fresh_nodes (build_nodes app).
Proof.
  unfold build_nodes.
  assert (H : fresh_nodes []) by (split; constructor).
  revert H. generalize (@nil (string * NodeInfo)).
  induction (getMarkdownFiles app) as [|f fs IH]; intros g Hg; simpl; [done|].
  apply IH. destruct Hg as [Hnd Hall]. split.
  - by apply graph_set_NoDup.
  - by apply graph_set_Forall.
Qed.

Lemma graph_get_Forall (P : string * NodeInfo -> Prop) g k n :
  Forall P g -> graph_get g k = Some n -> P (k, n).
Proof.
  intros Hg. induction Hg as [|[k0 v0] g H0 Hg IH]; simpl; [done|].
  case_decide; [|done]. subst. by intros [= ->].
Qed.

Lemma build_skeleton app : skeleton (build app) = skeleton (build_nodes app).
Proof. apply link_nodes_skeleton. Qed.

Lemma build_keys_NoDup app : NoDup (graph_keys (build app)).
Proof.
  rewrite (skeleton_keys _ _ (build_skeleton app)). apply build_nodes_fresh.
Qed.

Lemma build_get app k :
  graph_get (build app) k
  = with_more_children (inverse_index (build app) k) <$> graph_get (build_nodes app) k.
Proof.
  unfold build at 1, build_children. rewrite link_nodes_get.
  by rewrite (naming_skeleton _ _ k (build_skeleton app)).
Qed.

Lemma getChildren_build app p :
  getChildren (build app) p
  = if decide (path p ∈ graph_keys (build app))
    then inverse_index (build app) (path p) else [].
Proof.
  unfold getChildren. case_decide as Hin.
  - rewrite build_get.
    destruct (graph_get (build_nodes app) (path p)) as [n|] eqn:E; simpl.
    + pose proof (graph_get_Forall _ _ _ _ (proj2 (build_nodes_fresh app)) E) as [_ Hc].
      simpl in Hc. by rewrite Hc.
    + exfalso. rewrite (skeleton_keys _ _ (build_skeleton app)) in Hin.
      apply elem_of_map in Hin as ([k0 n0] & Hk & Hin). simpl in Hk. subst k0.
      clear -E Hin. induction (build_nodes app) as [|[k1 n1] g IH]; simpl in *.
      * by apply elem_of_nil in Hin.
      * case_decide; [done|]. apply elem_of_cons in Hin as [[= Hk Hn]|Hin]; [congruence|].
        by apply IH.
  - by rewrite graph_get_None.
Qed.

Lemma filter_map_const {A : Type} (P : TFile -> Prop) `{!forall x, Decision (P x)}
    (x : TFile) (l : list A) :
  filter P (map (fun _ => x) l) = if decide (P x) then map (fun _ => x) l else [].
Proof.
  induction l as [|a l IH]; simpl; [by case_decide|].
  rewrite filter_cons, IH. by case_decide.
Qed.

Lemma naming_filter_none ns k q :
  (forall n, n ∈ ns -> path (file n) <> q) ->
  filter (fun x => path x = q) (naming ns k) = [].
Proof.
  induction ns as [|n ns IH]; intros Hq; simpl; [done|].
  rewrite filter_app, filter_map_const.
  rewrite decide_False by (apply Hq; left).
  simpl. apply IH. intros n' Hn'. apply Hq. by right.
Qed.

Lemma naming_count ns k c :
  NoDup (map (fun n => path (file n)) ns) -> c ∈ ns ->
  length (filter (fun x => path x = path (file c)) (naming ns k))
  = length (filter (fun p => path p = k) (parents c)).
Proof.
  induction ns as [|n ns IH]; simpl; [by intros _ ?%elem_of_nil|].
  intros Hnd Hc. apply NoDup_cons in Hnd as [Hn Hnd].
  rewrite filter_app, filter_map_const, length_app.
  destruct (decide (path (file n) = path (file c))) as [E|E].
  - rewrite length_map.
    rewrite naming_filter_none.
    + simpl. apply elem_of_cons in Hc as [->|Hc]; [lia|].
      exfalso. apply Hn. apply elem_of_map. exists c. by split.
    + intros n' Hn' E'. apply Hn. apply elem_of_map. exists n'. split; [congruence | done].
  - apply elem_of_cons in Hc as [->|Hc]; [done|]. simpl. by apply IH.
Qed.

Lemma naming_elem ns k x :
  x ∈ naming ns k -> exists c, c ∈ ns /\ x = file c /\ k ∈ map path (parents c).
Proof.
  unfold naming. intros Hx. apply list_elem_of_In, in_flat_map in Hx as (c & Hc & Hx).
  apply list_elem_of_In, elem_of_map in Hx as (p & -> & Hp).
  apply list_elem_of_filter in Hp as [<- Hp].
  exists c. split; [by apply list_elem_of_In|]. split; [done|].
  apply elem_of_map. eauto.
Qed.

Lemma build_file_paths_NoDup app :
  NoDup (map (fun n => path (file n)) (graph_values (build app))).
Proof.
  assert (E : map (fun n => path (file n)) (graph_values (build app))
              = graph_keys (build_nodes app)).
  { unfold graph_values. rewrite map_map.
    transitivity (map (fun t : string * TFile * list TFile => path (snd (fst t)))
                    (skeleton (build app))).
    { unfold skeleton. by rewrite map_map. }
    rewrite build_skeleton. unfold skeleton, graph_keys. rewrite map_map. simpl.
    destruct (build_nodes_fresh app) as [_ Hall].
    induction Hall as [|[k n] g [Hk _] _ IH]; simpl in *; [done|]. by f_equal. }
  rewrite E. apply build_nodes_fresh.
Qed.

Lemma skeleton_keyed g g' :
  skeleton g = skeleton g' -> keyed_by_path g -> keyed_by_path g'.
Proof.
  unfold skeleton, keyed_by_path.
  revert g'. induction g as [|[k0 n0] g IH]; intros [|[k1 n1] g']; simpl;
    try done.
  intros [= -> Hf _ Hrest] [Hk Hall]%Forall_cons. constructor.
  - simpl in *. by rewrite <- Hf.
  - by apply IH.
Qed.

Lemma build_keyed app : keyed_by_path (build app).
Proof.
  apply (skeleton_keyed (build_nodes app)); [by rewrite build_skeleton|].
  destruct (build_nodes_fresh app) as [_ Hall].
  eapply Forall_impl; [exact Hall|]. by intros kv [? _].
Qed.

Lemma graph_get_of_entry g k n :
  NoDup (graph_keys g) -> (k, n) ∈ g -> graph_get g k = Some n.
Proof.
  induction g as [|[k0 n0] g IH]; simpl; [by intros _ ?%elem_of_nil|].
  intros [Hk Hnd]%NoDup_cons [[= -> ->]|Hin]%elem_of_cons.
  - by rewrite decide_True.
  - rewrite decide_False; [by apply IH|].
    intros ->. apply Hk. apply elem_of_map. by exists (k, n).
Qed.

Lemma build_get_file app c :
  c ∈ graph_values (build app) -> graph_get (build app) (path (file c)) = Some c.
Proof.
  intros ([k n] & -> & Hin)%elem_of_map. simpl.
  pose proof (proj1 (Forall_forall _ _) (build_keyed app) _ Hin) as Hk. simpl in Hk.
  rewrite Hk. apply graph_get_of_entry; [apply build_keys_NoDup | done].
Qed.

Lemma naming_intro ns k c :
  c ∈ ns -> k ∈ map path (parents c) -> file c ∈ naming ns k.
Proof.
  intros Hc (p & -> & Hp)%elem_of_map. unfold naming.
  apply list_elem_of_In, in_flat_map. exists c. split; [by apply list_elem_of_In|].
  apply list_elem_of_In, elem_of_map. exists p. split; [done|].
  by apply list_elem_of_filter.
Qed.

(** In a graph made by [build], the children of [f] are the documents that
    name [f] as a parent, provided [f] is a document of the graph. *)
Lemma build_children_names_parent app f y :
  y ∈ map path (getChildren (build app) f)
  <-> path f ∈ graph_keys (build app) /\ names_parent (build app) y (path f).
Proof.
  rewrite getChildren_build. split.
  - case_decide as Hk; [|by intros ?%elem_of_nil].
    intros (x & -> & Hx)%elem_of_map. split; [done|].
    apply naming_elem in Hx as (c & Hc & -> & Hp).
    exists (file c). split; [done|]. unfold getParents.
    by rewrite (build_get_file app c Hc).
  - intros (Hk & f' & <- & Hp). rewrite decide_True by done.
    unfold getParents in Hp.
    destruct (graph_get (build app) (path f')) as [c|] eqn:Hc;
      [|by apply elem_of_nil in Hp].
    assert (Hkey : path (file c) = path f').
    { apply (graph_get_Forall _ _ _ _ (build_keyed app) Hc). }
    rewrite <- Hkey. apply elem_of_map. exists (file c). split; [done|].
    apply naming_intro; [by eapply graph_get_Some_value | done].
Qed.

(** On a graph made by [build], one step of the undirected view is a parent
    edge taken forwards, or a parent edge into a document of the graph taken
    backwards; when every parent is itself a document of the graph, the view
    is the symmetric closure of the parent edges. *)
Lemma linked_build app x y :
  linked (build app) x y
  <-> names_parent (build app) x y
      \/ (x ∈ graph_keys (build app) /\ names_parent (build app) y x).
Proof.
  split.
  - intros (f & <- & [Hp|Hc]).
    + left. by exists f.
    + right. by apply build_children_names_parent.
  - intros [(f & <- & Hp)|[Hk Hy]].
    + exists f. split; [done|]. by left.
    + exists (mkTFile x ""). split; [done|]. right.
      by apply build_children_names_parent.
Qed.

(** C3, as the code has it.  After [build], the [children] of a document [P]
    of the graph are exactly the documents of the graph that name [P] as a
    parent, in graph order, each one once per occurrence of [P] in its
    [parents]; so [C] occurs in [P]'s children as often as [P] occurs in
    [C]'s parents (once when [C] names [P] once), and nothing else occurs in
    any children list.  A parent that is no document of the graph has no
    children list: [getChildren] answers [[]] for it. *)
Theorem children_inverse_of_parents (app : App) :
  (forall p : TFile,
     getChildren (build app) p
     = if decide (path p ∈ graph_keys (build app))
       then inverse_index (build app) (path p) else [])
  /\ (forall (c : NodeInfo) (p : TFile),
        c ∈ graph_values (build app) ->
        path p ∈ graph_keys (build app) ->
        length (filter (fun x => path x = path (file c)) (getChildren (build app) p))
        = length (filter (fun x => path x = path p) (parents c)))
  /\ (forall (p x : TFile),
        x ∈ getChildren (build app) p ->
        exists c, c ∈ graph_values (build app) /\ x = file c
                  /\ path p ∈ map path (parents c)).
Proof.
  split; [apply getChildren_build|]. split.
  - intros c p Hc Hp. rewrite getChildren_build, decide_True by done.
    apply naming_count; [apply build_file_paths_NoDup | done].
  - intros p x. rewrite getChildren_build. case_decide.
    + apply naming_elem.
    + by intros ?%elem_of_nil.
Qed.

Lemma children_inverse_of_parents_witness :
  length (filter (fun x => path x = path (doc "C")) (getChildren twice (doc "P")))
  = length (filter (fun x => path x = path (doc "P")) [doc "P"; doc "P"])
  /\ exists c, c ∈ graph_values twice /\ doc "C" = file c
               /\ path (doc "P") ∈ map path (parents c).
Proof.
  pose proof (children_inverse_of_parents
                (vault [("C", ["P"; "P"]); ("P", [])])) as (_ & Hcount & Hmem).
  split.
  - apply (Hcount (mkNodeInfo (doc "C") [doc "P"; doc "P"] []) (doc "P")).
    + vm_compute. left.
    + vm_compute. right. left.
  - apply (Hmem (doc "P") (doc "C")). vm_compute. left.
Defined.

(** C3, as stated: a note [C] that names [P] twice is twice among the
    children of [P]. *)
Lemma child_listed_twice :
  ~ (forall (app : App) (c : NodeInfo) (p : TFile),
       c ∈ graph_values (build app) -> p ∈ parents c ->
       length (filter (fun x => path x = path (file c)) (getChildren (build app) p))
       = 1%nat).
Proof.
  intros H.
  assert (E := H (vault [("C", ["P"; "P"]); ("P", [])])
                 (mkNodeInfo (doc "C") [doc "P"; doc "P"] []) (doc "P")
                 ltac:(vm_compute; left) ltac:(left)).
  vm_compute in E. discriminate.
Qed.

(* ===================================================================== *)
(** ** Parent edges, cycles and cycle-free documents *)
(* ===================================================================== *)

Lemma names_parent_intro g f p :
  p ∈ getParents g f -> names_parent g (path f) (path p).
Proof. intros Hp. exists f. split; [done|]. apply elem_of_map. eauto. Qed.

Lemma names_parent_inv g f q :
  names_parent g (path f) q -> exists p, p ∈ getParents g f /\ path p = q.
Proof.
  intros (f' & Hf & Hq). rewrite (getParents_path g f' f Hf) in Hq.
  apply elem_of_map in Hq as (p & -> & Hp). eauto.
Qed.

Lemma cycle_free_intro g f :
  (forall p, p ∈ getParents g f -> cycle_free g (path p)) -> cycle_free g (path f).
Proof.
  intros H. constructor. intros q Hq.
  apply names_parent_inv in Hq as (p & Hp & <-). by apply H.
Qed.

Lemma cycle_free_parent g c p :
  cycle_free g c -> names_parent g c p -> cycle_free g p.
Proof. intros Hc Hp. by apply (Acc_inv Hc). Qed.

Lemma cycle_free_not_on_cycle g c : cycle_free g c -> ~ on_cycle g c.
Proof.
  unfold on_cycle. induction 1 as [c _ IH]. intros Hc.
  inversion Hc as [? ? Hself|? y ? Hy Hback]; subst.
  - by apply (IH c).
  - apply (IH y Hy). by apply tc_r with c.
Qed.

Lemma reaches_cycle_not_cycle_free g c : reaches_cycle g c -> ~ cycle_free g c.
Proof.
  intros (k & Hreach & Hk) Hc. apply (cycle_free_not_on_cycle g k); [|done].
  clear Hk. induction Hreach as [|c p k Hp _ IH]; [done|].
  apply IH. by apply (cycle_free_parent g c).
Qed.

Lemma reaches_cycle_step g c p :
  names_parent g c p -> reaches_cycle g p -> reaches_cycle g c.
Proof. intros Hp (k & Hreach & Hk). exists k. split; [by eapply rtc_l | done]. Qed.

(** ** [findIndex] and [slice] on a stack that holds the wanted document *)

Lemma findIndex_found (q : string) (stack : list TFile) :
  q ∈ map path stack ->
  exists before a after,
    stack = before ++ a :: after /\ path a = q
    /\ findIndex (fun f => bool_decide (path f = q)) stack = Z.of_nat (length before).
Proof.
  induction stack as [|x stack IH]; simpl; [by intros ?%elem_of_nil|].
  intros Hq. destruct (decide (path x = q)) as [E|E].
  - exists [], x, stack. by rewrite bool_decide_true.
  - rewrite bool_decide_false by done.
    apply elem_of_cons in Hq as [?|Hq]; [congruence|].
    destruct (IH Hq) as (before & a & after & -> & Ha & ->).
    exists (x :: before), a, after. repeat split; [done|].
    destruct (Z.ltb_spec (Z.of_nat (length before)) 0); simpl length; lia.
Qed.

Lemma slice_from_length {A : Type} (before after : list A) :
  slice_from (before ++ after) (Z.of_nat (length before)) = after.
Proof.
  unfold slice_from. destruct (Z.ltb_spec (Z.of_nat (length before)) 0); [lia|].
  rewrite Nat2Z.id. by rewrite drop_app_length.
Qed.

Lemma buildCycleInfo_closed cycleStart stack :
  path cycleStart ∈ map path stack -> closed_cycle (buildCycleInfo cycleStart stack).
Proof.
  intros Hin. destruct (findIndex_found _ _ Hin) as (before & a & after & -> & Ha & Hidx).
  unfold closed_cycle, buildCycleInfo. simpl. rewrite Hidx, slice_from_length.
  split; [|done]. by exists a, after, cycleStart.
Qed.

(* ===================================================================== *)
(** ** The three-colour walk *)
(* ===================================================================== *)

Lemma state_of_insert st k s k' :
  state_of (<[k:=s]> st) k' = if decide (k = k') then s else state_of st k'.
Proof.
  unfold state_of. rewrite lookup_insert. by case_decide.
Qed.

Lemma state_of_empty k : state_of ∅ k = WHITE.
Proof. unfold state_of. by rewrite lookup_empty. Qed.

Lemma whites_insert U st k s :
  s <> WHITE -> whites U (<[k:=s]> st) = whites U st ∖ {[k]}.
Proof.
  intros Hs. apply set_eq. intros x. unfold whites.
  rewrite elem_of_difference, !elem_of_filter, state_of_insert, elem_of_singleton.
  case_decide; naive_solver.
Qed.

Lemma whites_insert_lt U st k s :
  s <> WHITE -> k ∈ U -> state_of st k = WHITE ->
  (size (whites U (<[k:=s]> st)) < size (whites U st))%nat.
Proof.
  intros Hs Hk Hw. rewrite whites_insert by done.
  apply subset_size. apply subset_difference_elem_of.
  by apply elem_of_filter.
Qed.

Lemma whites_frame U st st' : frame st st' -> whites U st' ⊆ whites U st.
Proof.
  intros Hf x. unfold whites. rewrite !elem_of_filter. intros [Hw Hx]. split; [|done].
  destruct (decide (state_of st x = WHITE)) as [|Hn]; [done|].
  rewrite (Hf x Hn) in Hw. done.
Qed.

Lemma frame_refl st : frame st st.
Proof. by intros k _. Qed.

Lemma frame_trans st1 st2 st3 : frame st1 st2 -> frame st2 st3 -> frame st1 st3.
Proof.
  intros H12 H23 k Hk. rewrite <- (H12 k Hk). apply H23. by rewrite (H12 k Hk).
Qed.

Section Dfs.
Variable g : Graph.
Variable U : gset string.
Hypothesis U_closed : forall f p, p ∈ getParents g f -> path p ∈ U.

Section Loop.
Variable rec : TFile -> gmap string NodeState -> list TFile -> run DfsResult.
Variable n : nat.
Hypothesis rec_total : forall cur st sk,
  dfs_pre g U cur st sk -> (size (whites U st) <= n)%nat ->
  exists res, rec cur st sk = Ret res /\ dfs_post g cur st sk res.

(** The parent loop, up to any point: either a parent in the part walked so
    far was not cycle-free and the loop returned a cycle, or the loop has
    reached the rest of the list with every parent walked so far black. *)
Lemma dfs_parents_prefix cur before : forall rest st sk,
  gray_on_stack st sk ->
  (forall x, x ∈ map path sk -> rtc (names_parent g) x (path cur)) ->
  (forall p, p ∈ before -> p ∈ getParents g cur) ->
  black_cycle_free g st ->
  (size (whites U st) <= n)%nat ->
  (exists ci st' sk' q,
      dfs_parents rec cur (before ++ rest) st sk = Ret (Some ci, st', sk')
      /\ q ∈ before /\ reaches_cycle g (path q) /\ closed_cycle ci)
  \/ (exists st_mid,
        dfs_parents rec cur (before ++ rest) st sk
        = dfs_parents rec cur rest st_mid sk
        /\ frame st st_mid /\ gray_within st_mid st
        /\ black_cycle_free g st_mid
        /\ forall p, p ∈ before -> state_of st_mid (path p) = BLACK).
Proof.
  induction before as [|p before IH]; intros rest st sk Hgray Hreach Hpar Hblack Hsize.
  { right. exists st. split_and!; [done | apply frame_refl | by intros k | done |].
    by intros p ?%elem_of_nil. }
  assert (Hp : p ∈ getParents g cur) by (apply Hpar; left).
  assert (Hedge : names_parent g (path cur) (path p)) by by apply names_parent_intro.
  assert (Hpar' : forall q, q ∈ before -> q ∈ getParents g cur)
    by (intros q Hq; apply Hpar; by right).
  simpl. destruct (state_of st (path p)) eqn:Hst.
  - (* white: recurse *)
    destruct (rec_total p st sk) as ([[r st1] sk1] & -> & Hpost).
    { unfold dfs_pre. split_and!; [by apply (U_closed cur) | done | done | | done].
      intros x Hx. eapply rtc_r; [by apply Hreach | done]. }
    { done. }
    destruct r as [ci|]; simpl in Hpost.
    + left. destruct Hpost as [Hcyc Hci]. exists ci, st1, sk1, p.
      split_and!; [done | left | done | done].
    + destruct Hpost as (-> & Hframe & Hpb & Hblack1 & Hgray1).
      destruct (IH rest st1 sk) as
        [(ci & st' & sk' & q & Heq & Hq & Hcyc & Hci)
        |(st_mid & Heq & Hframe2 & Hgray2 & Hblack2 & Hall)].
      * intros k Hk. apply Hgray. by apply Hgray1.
      * done.
      * done.
      * done.
      * pose proof (subseteq_size _ _ (whites_frame U _ _ Hframe)). lia.
      * left. exists ci, st', sk', q. split_and!; [done | by right | done | done].
      * right. exists st_mid. split_and!.
        -- done.
        -- by eapply frame_trans.
        -- intros k Hk. by apply Hgray1, Hgray2.
        -- done.
        -- intros q [->|Hq]%elem_of_cons; [|by apply Hall].
           rewrite (Hframe2 (path p)); rewrite Hpb; done.
  - (* gray: the parent is on the stack *)
    left. exists (buildCycleInfo p sk), st, sk, p. split_and!; [done | left | |].
    + apply Hgray in Hst.
      exists (path p). split; [done|].
      unfold on_cycle. eapply tc_rtc_l; [by apply Hreach | by apply tc_once].
    + apply buildCycleInfo_closed. by apply Hgray.
  - (* black: skip *)
    destruct (IH rest st sk) as
      [(ci & st' & sk' & q & Heq & Hq & Hcyc & Hci)
      |(st_mid & Heq & Hframe2 & Hgray2 & Hblack2 & Hall)]; try done.
    + left. exists ci, st', sk', q. split_and!; [done | by right | done | done].
    + right. exists st_mid. split_and!; [done | done | done | done |].
      intros q [->|Hq]%elem_of_cons; [|by apply Hall].
      rewrite (Hframe2 (path p)); rewrite Hst; done.
Qed.

End Loop.

Lemma removelast_snoc {A : Type} (l : list A) (x : A) : removelast (l ++ [x]) = l.
Proof. by rewrite removelast_app, app_nil_r. Qed.

(** With fuel for every white document of [U], [dfs] returns, and what it
    returns meets [dfs_post]. *)
Lemma dfs_total n : forall cur st sk,
  dfs_pre g U cur st sk -> (size (whites U st) <= n)%nat ->
  exists res, dfs n g cur st sk = Ret res /\ dfs_post g cur st sk res.
Proof.
  induction n as [|n IH]; intros cur st sk (HU & Hw & Hgray & Hreach & Hblack) Hsize.
  { exfalso. assert (path cur ∈ whites U st) as Hin by by apply elem_of_filter.
    apply size_empty_inv in Hin; [done|]. lia. }
  simpl.
  destruct (dfs_parents_prefix (dfs n g) n IH cur (getParents g cur) []
              (<[path cur:=GRAY]> st) (sk ++ [cur]))
    as [(ci & st' & sk' & q & Heq & Hq & Hcyc & Hci)
       |(st_mid & Heq & Hframe & Hgray' & Hblack' & Hall)].
  - intros k. rewrite state_of_insert, map_app, elem_of_app. case_decide; [subst|].
    + intros _. right. left.
    + intros Hk. left. by apply Hgray.
  - intros x. rewrite map_app, elem_of_app. intros [Hx|Hx%list_elem_of_singleton].
    + by apply Hreach.
    + by subst.
  - done.
  - intros k. rewrite state_of_insert. case_decide; [done|]. apply Hblack.
  - pose proof (whites_insert_lt U st (path cur) GRAY ltac:(done) HU Hw). lia.
  - rewrite app_nil_r in Heq. eexists. split; [exact Heq|]. simpl. split; [|done].
    apply (reaches_cycle_step g (path cur) (path q)); [|done].
    by apply names_parent_intro.
  - rewrite app_nil_r in Heq. simpl in Heq. eexists. split; [exact Heq|]. simpl.
    split_and!.
    + apply removelast_snoc.
    + intros k Hk. rewrite state_of_insert. case_decide; [congruence|].
      rewrite (Hframe k); rewrite state_of_insert; case_decide; congruence.
    + rewrite state_of_insert. by case_decide.
    + intros k. rewrite state_of_insert. case_decide; [subst|by apply Hblack'].
      intros _. apply cycle_free_intro. intros p Hp. apply Hblack'. by apply Hall.
    + intros k. rewrite state_of_insert. case_decide; [done|].
      intros Hk%Hgray'. rewrite state_of_insert in Hk. by case_decide.
Qed.

End Dfs.

Lemma size_list_to_set_le (l : list string) :
  (size (list_to_set l : gset string) <= length l)%nat.
Proof.
  induction l as [|x l IH].
  - rewrite list_to_set_nil, size_empty. simpl. lia.
  - rewrite list_to_set_cons, size_union_alt, size_singleton. simpl.
    pose proof (subseteq_size (list_to_set l ∖ {[x]}) (list_to_set l : gset string)
                  ltac:(set_solver)). lia.
Qed.

Lemma size_union_le (X Y : gset string) : (size (X ∪ Y) <= size X + size Y)%nat.
Proof.
  rewrite size_union_alt.
  pose proof (subseteq_size (Y ∖ X) Y ltac:(set_solver)). lia.
Qed.

Lemma graph_paths_size g :
  (size (graph_paths g) <= length (getAllFiles g) + length (edge_targets g))%nat.
Proof.
  unfold graph_paths.
  pose proof (size_union_le (list_to_set (map path (getAllFiles g)))
                (list_to_set (edge_targets g))).
  pose proof (size_list_to_set_le (map path (getAllFiles g))).
  pose proof (size_list_to_set_le (edge_targets g)).
  rewrite length_map in *. lia.
Qed.

Lemma getParents_target g f p : p ∈ getParents g f -> path p ∈ edge_targets g.
Proof.
  unfold getParents, edge_targets.
  destruct (graph_get g (path f)) as [n|] eqn:E; [|by intros ?%elem_of_nil].
  intros Hp. apply list_elem_of_In, in_flat_map. exists n. split.
  - apply list_elem_of_In. by eapply graph_get_Some_value.
  - apply list_elem_of_In, elem_of_map. eauto.
Qed.

Lemma graph_paths_closed g (X : gset string) f p :
  p ∈ getParents g f -> path p ∈ X ∪ graph_paths g.
Proof.
  intros Hp%getParents_target. unfold graph_paths.
  apply elem_of_union_r, elem_of_union_r. by apply elem_of_list_to_set.
Qed.

Lemma whites_size_le U st : (size (whites U st) <= size U)%nat.
Proof. apply subseteq_size. unfold whites. intros x. rewrite elem_of_filter. tauto. Qed.

(** [detectCycle] always returns; it reports a cycle exactly for the
    documents that are not cycle-free, and the report is well formed. *)
Lemma detectCycle_spec g d :
  exists r,
    detectCycle g d = Ret r
    /\ match r with
       | Some ci => reaches_cycle g (path d) /\ closed_cycle ci
       | None => cycle_free g (path d)
       end.
Proof.
  unfold detectCycle, detectCycle_fuel.
  destruct (dfs_total g ({[path d]} ∪ graph_paths g) (graph_paths_closed g _)
              (dfs_fuel g) d ∅ []) as ([[r st'] sk'] & -> & Hpost).
  - unfold dfs_pre. split_and!.
    + apply elem_of_union_l. by apply elem_of_singleton.
    + apply state_of_empty.
    + intros k. by rewrite state_of_empty.
    + by intros x ?%elem_of_nil.
    + intros k. by rewrite state_of_empty.
  - pose proof (whites_size_le ({[path d]} ∪ graph_paths g) ∅).
    pose proof (size_union_le {[path d]} (graph_paths g)).
    pose proof (graph_paths_size g). rewrite size_singleton in *.
    unfold dfs_fuel. lia.
  - exists r. split; [done|]. destruct r as [ci|]; simpl in Hpost; [done|].
    destruct Hpost as (_ & _ & Hb & Hcf & _). by apply Hcf.
Qed.

Lemma hasCycles_loop_spec g n files : forall st,
  (size (graph_paths g) <= n)%nat ->
  (forall f, f ∈ files -> path f ∈ graph_paths g) ->
  gray_on_stack st [] -> black_cycle_free g st ->
  exists b,
    hasCycles_loop n g files st = Ret b
    /\ if b then exists f, f ∈ files /\ reaches_cycle g (path f)
       else forall f, f ∈ files -> cycle_free g (path f).
Proof.
  induction files as [|f files IH]; intros st Hn Hin Hgray Hblack; simpl.
  { exists false. split; [done|]. by intros f ?%elem_of_nil. }
  assert (Hin' : forall f', f' ∈ files -> path f' ∈ graph_paths g)
    by (intros f' Hf'; apply Hin; by right).
  destruct (state_of st (path f)) eqn:Hst.
  - destruct (dfs_total g (∅ ∪ graph_paths g) (graph_paths_closed g _)
                n f st []) as ([[r st'] sk'] & -> & Hpost).
    { unfold dfs_pre. split_and!; [|done|done| |done].
      - apply elem_of_union_r, Hin. left.
      - by intros x ?%elem_of_nil. }
    { pose proof (whites_size_le (∅ ∪ graph_paths g) st).
      pose proof (size_union_le ∅ (graph_paths g)).
      rewrite size_empty in *. lia. }
    destruct r as [ci|]; simpl in Hpost.
    + exists true. split; [done|]. exists f. split; [left | apply Hpost].
    + destruct Hpost as (_ & _ & Hb & Hcf & Hg).
      destruct (IH st' Hn Hin') as (b & -> & Hb'); [|done|].
      { intros k Hk. apply Hgray. by apply Hg. }
      exists b. split; [done|]. destruct b.
      * destruct Hb' as (f' & Hf' & Hc). exists f'. split; [by right | done].
      * intros f' [->|Hf']%elem_of_cons; [by apply Hcf | by apply Hb'].
  - apply Hgray in Hst. by apply elem_of_nil in Hst.
  - destruct (IH st Hn Hin' Hgray Hblack) as (b & -> & Hb').
    exists b. split; [done|]. destruct b.
    + destruct Hb' as (f' & Hf' & Hc). exists f'. split; [by right | done].
    + intros f' [->|Hf']%elem_of_cons; [by apply Hblack | by apply Hb'].
Qed.

Lemma hasCycles_spec g :
  exists b,
    hasCycles g = Ret b
    /\ if b then exists f, f ∈ getAllFiles g /\ reaches_cycle g (path f)
       else forall f, f ∈ getAllFiles g -> cycle_free g (path f).
Proof.
  apply hasCycles_loop_spec.
  - pose proof (graph_paths_size g). unfold dfs_fuel. lia.
  - intros f Hf. unfold graph_paths. apply elem_of_union_l, elem_of_list_to_set.
    apply elem_of_map. eauto.
  - intros k. by rewrite state_of_empty.
  - intros k. by rewrite state_of_empty.
Qed.

Lemma dfs_S n g cur st sk :
  dfs (S n) g cur st sk
  = dfs_parents (dfs n g) cur (getParents g cur)
      (<[path cur:=GRAY]> st) (sk ++ [cur]).
Proof. reflexivity. Qed.

Lemma detectCycle_Some_iff g d :
  (exists ci, detectCycle g d = Ret (Some ci)) <-> reaches_cycle g (path d).
Proof.
  destruct (detectCycle_spec g d) as (r & Hr & Hspec). rewrite Hr. split.
  - intros (ci & [= ->]). apply Hspec.
  - intros Hcyc. destruct r as [ci|]; [eauto|].
    by apply reaches_cycle_not_cycle_free in Hcyc.
Qed.

Lemma no_parents_cycle_free g k : k ∉ graph_keys g -> cycle_free g k.
Proof.
  intros Hk. constructor. intros p (f & <- & Hp). exfalso.
  unfold getParents in Hp. rewrite graph_get_None in Hp by done.
  by apply elem_of_nil in Hp.
Qed.

Lemma keyed_by_path_files g k :
  keyed_by_path g -> k ∈ graph_keys g -> exists f, f ∈ getAllFiles g /\ path f = k.
Proof.
  intros Hkeyed Hk. apply elem_of_map in Hk as ([k' n] & -> & Hin).
  exists (file n). split.
  - unfold getAllFiles, graph_values. rewrite map_map. apply elem_of_map.
    by exists (k', n).
  - by apply (proj1 (Forall_forall _ _) Hkeyed (k', n)).
Qed.

Lemma hasCycles_false_acyclic g :
  keyed_by_path g -> hasCycles g = Ret false -> acyclic g.
Proof.
  intros Hkeyed Hfalse k. apply cycle_free_not_on_cycle.
  destruct (hasCycles_spec g) as (b & Hb & Hspec).
  rewrite Hfalse in Hb. injection Hb as <-.
  destruct (decide (k ∈ graph_keys g)) as [Hk|Hk]; [|by apply no_parents_cycle_free].
  destruct (keyed_by_path_files g k Hkeyed Hk) as (f & Hf & <-). by apply Hspec.
Qed.

(** C5.  [hasCycles()] returns [true] exactly when [detectCycle] returns a
    cycle for at least one document of the graph; it returns [false] on
    every graph without a cycle of parent edges, the empty graph included. *)
Theorem hasCycles_iff_detectCycle (g : Graph) :
  (exists b, hasCycles g = Ret b)
  /\ (hasCycles g = Ret true
      <-> exists d, d ∈ getAllFiles g /\ exists ci, detectCycle g d = Ret (Some ci))
  /\ (acyclic g -> hasCycles g = Ret false)
  /\ hasCycles [] = Ret false.
Proof.
  destruct (hasCycles_spec g) as (b & Hb & Hspec). rewrite Hb. split_and!.
  - eauto.
  - split.
    + intros [= ->]. destruct Hspec as (f & Hf & Hcyc).
      exists f. split; [done|]. by apply detectCycle_Some_iff.
    + intros (d & Hd & Hci). apply detectCycle_Some_iff in Hci.
      destruct b; [done|]. exfalso.
      apply (reaches_cycle_not_cycle_free _ _ Hci). by apply Hspec.
  - intros Hacyc. destruct b; [|done].
    destruct Hspec as (f & _ & k & _ & Hk). by apply Hacyc in Hk.
  - reflexivity.
Qed.

Lemma hasCycles_iff_detectCycle_witness :
  hasCycles chain = Ret false
  /\ exists d, d ∈ getAllFiles two_cycle
               /\ exists ci, detectCycle two_cycle d = Ret (Some ci).
Proof.
  split.
  - apply (proj1 (proj2 (proj2 (hasCycles_iff_detectCycle chain)))).
    apply hasCycles_false_acyclic.
    + vm_compute. repeat (constructor; [reflexivity|]). constructor.
    + by vm_compute.
  - apply (proj1 (proj1 (proj2 (hasCycles_iff_detectCycle two_cycle)))).
    by vm_compute.
Defined.

Lemma buildCycleInfo_self f p :
  path p = path f ->
  CycleInfo.cyclePath (buildCycleInfo p [f]) = [f; p]
  /\ CycleInfo.length (buildCycleInfo p [f]) = 1
  /\ CycleInfo.startFile (buildCycleInfo p [f]) = Some f.
Proof.
  intros Hp. unfold buildCycleInfo. simpl.
  rewrite bool_decide_true by done. by simpl.
Qed.

(** C8, as the code has it.  When a document is its own parent and no
    parent listed before it in its [parents] array leads into a cycle (in
    particular when it is its own first or only parent), [detectCycle]
    returns the cycle whose path is the document twice and whose length is 1.
    Every cycle [detectCycle] returns starts and ends with the same document
    and has a length one less than the length of its path. *)
Theorem self_parent_cycle_report :
  (forall (g : Graph) (f p : TFile) (before after : list TFile),
     getParents g f = before ++ p :: after ->
     path p = path f ->
     (forall q, q ∈ before -> cycle_free g (path q)) ->
     exists ci,
       detectCycle g f = Ret (Some ci)
       /\ CycleInfo.cyclePath ci = [f; p]
       /\ CycleInfo.length ci = 1
       /\ CycleInfo.startFile ci = Some f)
  /\ (forall (g : Graph) (d : TFile) (ci : CycleInfo.t),
        detectCycle g d = Ret (Some ci) -> closed_cycle ci).
Proof.
  split.
  - intros g f p before after Hpar Hp Hfree.
    exists (buildCycleInfo p [f]). split; [|by apply buildCycleInfo_self].
    unfold detectCycle, detectCycle_fuel, dfs_fuel. rewrite dfs_S, Hpar.
    set (n := S (length (getAllFiles g) + length (edge_targets g))).
    set (U := {[path f]} ∪ graph_paths g).
    set (st := <[path f:=GRAY]> (∅ : gmap string NodeState)).
    destruct (dfs_parents_prefix g U (graph_paths_closed g _) (dfs n g) n
                (dfs_total g U (graph_paths_closed g _) n)
                f before (p :: after) st ([] ++ [f]))
      as [(ci & st' & sk' & q & _ & Hq & Hcyc & _)
         |(st_mid & -> & Hframe & _)].
    + intros k. unfold st. rewrite state_of_insert, state_of_empty.
      case_decide; [subst; intros _; left | done].
    + intros x ->%list_elem_of_singleton. done.
    + intros q Hq. rewrite Hpar. apply elem_of_app. by left.
    + intros k. unfold st. rewrite state_of_insert, state_of_empty. by case_decide.
    + pose proof (whites_insert_lt U ∅ (path f) GRAY ltac:(done)
                    ltac:(apply elem_of_union_l; by apply elem_of_singleton)
                    (state_of_empty _)).
      pose proof (whites_size_le U ∅).
      pose proof (size_union_le {[path f]} (graph_paths g)).
      pose proof (graph_paths_size g). rewrite size_singleton in *.
      unfold st, U, n in *. lia.
    + exfalso. apply (reaches_cycle_not_cycle_free _ _ Hcyc). by apply Hfree.
    + simpl. rewrite Hp, (Hframe (path f)); unfold st; rewrite state_of_insert;
        rewrite decide_True by done; done.
  - intros g d ci Hci. destruct (detectCycle_spec g d) as (r & Hr & Hspec).
    rewrite Hr in Hci. injection Hci as ->. apply Hspec.
Qed.

Lemma self_parent_cycle_report_witness :
  (exists ci,
      detectCycle self_loop (doc "A") = Ret (Some ci)
      /\ CycleInfo.cyclePath ci = [doc "A"; doc "A"]
      /\ CycleInfo.length ci = 1
      /\ CycleInfo.startFile ci = Some (doc "A"))
  /\ closed_cycle
       (CycleInfo.mk [doc "A"; doc "B"; doc "A"] (Some (doc "A"))
          "Cycle detected: A → B → A" 2).
Proof.
  split.
  - apply (proj1 self_parent_cycle_report self_loop (doc "A") (doc "A") [] []).
    + by vm_compute.
    + reflexivity.
    + by intros q ?%elem_of_nil.
  - apply (proj2 self_parent_cycle_report two_cycle (doc "A")). by vm_compute.
Defined.

(** C8, as stated: a note that names another note before itself, on a cycle
    through both, gets the longer cycle reported. *)
Lemma self_parent_longer_cycle :
  ~ (forall (g : Graph) (f : TFile),
       path f ∈ map path (getParents g f) ->
       exists ci,
         detectCycle g f = Ret (Some ci)
         /\ map path (CycleInfo.cyclePath ci) = [path f; path f]
         /\ CycleInfo.length ci = 1).
Proof.
  intros H.
  destruct (H detour (doc "A")) as (ci & Hci & _ & Hlen).
  - vm_compute. right. left.
  - vm_compute in Hci. injection Hci as <-. discriminate.
Qed.

(* ===================================================================== *)
(** ** The undirected view and the breadth-first search *)
(* ===================================================================== *)

Lemma linked_intro g node y :
  y ∈ getParents g node ++ getChildren g node -> linked g (path node) (path y).
Proof.
  intros Hy. exists node. split; [done|].
  apply elem_of_app in Hy as [Hy|Hy]; [left|right]; apply elem_of_map; eauto.
Qed.

Lemma linked_inv g node y :
  linked g (path node) y ->
  exists y0, y0 ∈ getParents g node ++ getChildren g node /\ path y0 = y.
Proof.
  intros (f & Hf & Hy).
  rewrite (getParents_path g f node Hf), (getChildren_path g f node Hf) in Hy.
  destruct Hy as [Hy|Hy]; apply elem_of_map in Hy as (y0 & -> & Hy0);
    exists y0; (split; [|done]); apply elem_of_app; auto.
Qed.

Lemma is_walk_snoc g pth n y :
  is_walk g pth -> last pth = Some n -> linked g (path n) (path y) ->
  is_walk g (pth ++ [y]).
Proof.
  induction pth as [|a [|b pth] IH]; simpl; [done| |].
  - intros _ [= ->] Hl. done.
  - intros [Hab Hw] Hlast Hl. split; [done|]. by apply IH.
Qed.

Lemma walk_nsteps g pth : forall a b,
  is_walk g pth -> head pth = Some a -> last pth = Some b ->
  nsteps (linked g) (length pth - 1) (path a) (path b).
Proof.
  induction pth as [|x [|y pth] IH]; intros a b; simpl; [done| |].
  - intros _ [= ->] [= ->]. constructor.
  - intros [Hxy Hw] [= ->] Hlast.
    econstructor; [exact Hxy|].
    specialize (IH y b Hw eq_refl Hlast). simpl in IH.
    by rewrite Nat.sub_0_r in IH.
Qed.

Lemma scan_neighbours_app end_ pth ns1 ns2 : forall visited queue,
  scan_neighbours end_ pth (ns1 ++ ns2) visited queue
  = match scan_neighbours end_ pth ns1 visited queue with
    | inl full => inl full
    | inr (visited', queue') => scan_neighbours end_ pth ns2 visited' queue'
    end.
Proof.
  induction ns1 as [|n ns1 IH]; intros visited queue; simpl; [done|].
  repeat case_decide; auto.
Qed.

(** What one scan does: it stops at the first neighbour that is the target,
    or else it queues, in order, the neighbours not visited before. *)
Lemma scan_neighbours_spec end_ pth ns : forall visited queue,
  match scan_neighbours end_ pth ns visited queue with
  | inl full => exists y, y ∈ ns /\ path y = path end_ /\ full = pth ++ [y]
  | inr (visited', queue') =>
      exists new,
        queue' = queue ++ map (fun y => (y, pth ++ [y])) new
        /\ visited' = list_to_set (map path new) ∪ visited
        /\ (forall y, y ∈ new -> y ∈ ns)
        /\ (forall p, p ∈ map path new -> p ∉ visited)
        /\ NoDup (map path new)
        /\ (forall y, y ∈ ns -> path y <> path end_ /\ path y ∈ visited')
  end.
Proof.
  induction ns as [|n ns IH]; intros visited queue; simpl.
  { exists []. simpl. rewrite app_nil_r.
    split_and!; [done | set_solver | by intros ? ?%elem_of_nil
                | by intros ? ?%elem_of_nil | constructor | by intros ? ?%elem_of_nil]. }
  case_decide as Hend.
  { exists n. split_and!; [left | done | done]. }
  case_decide as Hvis.
  - specialize (IH visited queue).
    destruct (scan_neighbours end_ pth ns visited queue) as [full|[v' q']].
    + destruct IH as (y & Hy & Hp & ->). exists y. split_and!; [by right | done | done].
    + destruct IH as (new & -> & -> & Hsub & Hfresh & Hnd & Hall).
      exists new. split_and!; try done.
      * intros y Hy. right. auto.
      * intros y [->|Hy]%elem_of_cons; [|by apply Hall].
        split; [done|]. by apply elem_of_union_r.
  - specialize (IH ({[path n]} ∪ visited) (queue ++ [(n, pth ++ [n])])).
    destruct (scan_neighbours end_ pth ns ({[path n]} ∪ visited)
                (queue ++ [(n, pth ++ [n])])) as [full|[v' q']].
    + destruct IH as (y & Hy & Hp & ->). exists y. split_and!; [by right | done | done].
    + destruct IH as (new & -> & -> & Hsub & Hfresh & Hnd & Hall).
      exists (n :: new). simpl. split_and!.
      * by rewrite <- app_assoc.
      * set_solver.
      * intros y [->|Hy]%elem_of_cons; [left | right; auto].
      * intros p [->|Hp]%elem_of_cons; [done|]. apply Hfresh in Hp. set_solver.
      * constructor; [|done]. intros Hin. apply Hfresh in Hin. set_solver.
      * intros y [->|Hy]%elem_of_cons; [|by apply Hall].
        split; [done|]. set_solver.
Qed.

Lemma expanded_mono g end_ (visited visited' : gset string) v :
  visited ⊆ visited' -> expanded g end_ visited v -> expanded g end_ visited' v.
Proof. intros Hsub Hexp y Hy. destruct (Hexp y Hy). split; [set_solver | done]. Qed.

Lemma unvisited_size (U visited : gset string) (new : list TFile) :
  (forall p, p ∈ map path new -> p ∈ U /\ p ∉ visited) ->
  NoDup (map path new) ->
  (size (U ∖ (list_to_set (map path new) ∪ visited)) + length new
   <= size (U ∖ visited))%nat.
Proof.
  intros Hnew Hnd.
  assert (E : U ∖ (list_to_set (map path new) ∪ visited)
              = (U ∖ visited) ∖ list_to_set (map path new)) by set_solver.
  assert (Hsub : (list_to_set (map path new) : gset string) ⊆ U ∖ visited).
  { intros p Hp%elem_of_list_to_set. apply Hnew in Hp. set_solver. }
  rewrite E, size_difference by done.
  pose proof (subseteq_size _ _ Hsub) as Hle.
  rewrite size_list_to_set in * by done. rewrite length_map in *. lia.
Qed.

Lemma bfs_S fuel g start end_ node pth queue visited :
  bfs (S fuel) g start end_ ((node, pth) :: queue) visited
  = match scan_neighbours end_ pth (getParents g node ++ getChildren g node)
            visited queue with
    | inl full =>
        Ret (Some (NotePath.mk start end_ full (Z.of_nat (length full) - 1)
                     match scan_neighbours end_ pth (getParents g node)
                             visited queue with
                     | inl _ => Up
                     | inr _ => Down
                     end))
    | inr (visited', queue') => bfs fuel g start end_ queue' visited'
    end.
Proof.
  simpl. rewrite scan_neighbours_app.
  destruct (scan_neighbours end_ pth (getParents g node) visited queue)
    as [full|[v1 q1]]; [done|].
  by destruct (scan_neighbours end_ pth (getChildren g node) v1 q1) as [full|[v2 q2]].
Qed.

Section Bfs.
Variable g : Graph.
Variable U : gset string.
Variables start end_ : TFile.
Hypothesis U_closed :
  forall f y, y ∈ getParents g f ++ getChildren g f -> path y ∈ U.
Hypothesis distinct : path start <> path end_.

Lemma bfs_step K node pth qa qb visited :
  bfs_inv g start end_ K ((node, pth) :: qa) qb visited ->
  match scan_neighbours end_ pth (getParents g node ++ getChildren g node)
          visited (qa ++ qb) with
  | inl full =>
      walk_between g (path start) (path end_) full
      /\ head full = Some start
      /\ length full = S K
      /\ forall m, nsteps (linked g) m (path start) (path end_) -> (K <= m)%nat
  | inr (visited', queue') =>
      exists qb',
        queue' = qa ++ qb'
        /\ bfs_inv g start end_ K qa qb' visited'
        /\ (size (U ∖ visited') + length queue'
            <= size (U ∖ visited) + length (qa ++ qb))%nat
  end.
Proof.
  intros [Hstart Hentries Hqa Hqb Hvis Hlev].
  destruct (Hentries node pth ltac:(left)) as (Hnv & Hwalk & Hhead & Hlast).
  assert (Hlen : length pth = K) by (apply (Hqa (node, pth)); left).
  assert (Hhd : exists l, pth = start :: l) by by apply head_Some.
  destruct Hhd as (l & Hl).
  assert (Hold : forall e, e ∈ ((node, pth) :: qa) ++ qb -> (K <= length (snd e))%nat).
  { intros e [He|He]%elem_of_app; [rewrite (Hqa e He) | rewrite (Hqb e He)]; lia. }
  pose proof (scan_neighbours_spec end_ pth
                (getParents g node ++ getChildren g node) visited (qa ++ qb)) as Hscan.
  destruct (scan_neighbours end_ pth (getParents g node ++ getChildren g node)
              visited (qa ++ qb)) as [full|[v' q']].
  - destruct Hscan as (y & Hy & Hp & ->). split_and!.
    + split_and!.
      * apply (is_walk_snoc g pth node y); [done | done | by apply linked_intro].
      * by rewrite Hl.
      * by rewrite last_snoc; simpl; rewrite Hp.
    + by rewrite Hl.
    + rewrite length_app. simpl. lia.
    + intros m Hm. destruct (decide (K <= m)%nat) as [|Hlt]; [done|]. exfalso.
      destruct m as [|m].
      * inversion Hm. done.
      * apply nsteps_inv_r in Hm as (w & Hw & Hwe).
        destruct (Hlev w m Hw ltac:(lia)) as (_ & [Hexp|(e & He & _ & Hle)]).
        -- by destruct (Hexp _ Hwe).
        -- apply Hold in He. lia.
  - destruct Hscan as (new & -> & -> & Hsub & Hfresh & Hnd & Hall).
    assert (Hnode : expanded g end_ (list_to_set (map path new) ∪ visited) (path node)).
    { intros y (y0 & Hy0 & <-)%linked_inv. destruct (Hall y0 Hy0). done. }
    assert (Hmono : forall x, expanded g end_ visited x ->
                      expanded g end_ (list_to_set (map path new) ∪ visited) x).
    { intros x. apply expanded_mono. set_solver. }
    assert (Hkeep : forall e, e ∈ ((node, pth) :: qa) ++ qb ->
              e = (node, pth)
              \/ e ∈ qa ++ qb ++ map (fun y => (y, pth ++ [y])) new).
    { intros e [[->|He]%elem_of_cons|He]%elem_of_app; [by left | right | right];
        rewrite !elem_of_app; auto. }
    exists (qb ++ map (fun y => (y, pth ++ [y])) new). split_and!.
    + by rewrite app_assoc.
    + constructor.
      * by apply elem_of_union_r.
      * intros n p. rewrite !elem_of_app. intros [Hin|[Hin|Hin]].
        -- destruct (Hentries n p) as (? & ? & ? & ?);
             [apply elem_of_app; left; by right|].
           split_and!; try done. by apply elem_of_union_r.
        -- destruct (Hentries n p) as (? & ? & ? & ?);
             [apply elem_of_app; by right|].
           split_and!; try done. by apply elem_of_union_r.
        -- apply elem_of_map in Hin as (y & [= -> ->] & Hy). split_and!.
           ++ apply elem_of_union_l, elem_of_list_to_set, elem_of_map. eauto.
           ++ apply (is_walk_snoc g pth node y); [done | done |].
              apply linked_intro. by apply Hsub.
           ++ by rewrite Hl.
           ++ apply last_snoc.
      * intros e He. apply Hqa. by right.
      * intros e [He|He]%elem_of_app; [by apply Hqb|].
        apply elem_of_map in He as (y & -> & Hy). simpl.
        rewrite length_app. simpl. lia.
      * intros v [Hv|Hv]%elem_of_union.
        -- apply elem_of_list_to_set, elem_of_map in Hv as (y & -> & Hy).
           left. exists (y, pth ++ [y]). split; [|done].
           rewrite !elem_of_app. right. right. apply elem_of_map. eauto.
        -- destruct (Hvis v Hv) as [(e & He & Hpe)|Hexp]; [|right; auto].
           destruct (Hkeep e He) as [->|He']; [right; by subst | left; eauto].
      * intros x m Hx Hm. destruct (Hlev x m Hx Hm) as (Hxv & Hcase).
        split; [by apply elem_of_union_r|].
        destruct Hcase as [Hexp|(e & He & Hpe & Hle)]; [left; auto|].
        destruct (Hkeep e He) as [->|He']; [left; by subst | right; eauto].
    + rewrite !length_app, length_map.
      pose proof (unvisited_size U visited new) as Hsize.
      assert (size (U ∖ (list_to_set (map path new) ∪ visited)) + length new
              <= size (U ∖ visited))%nat; [|lia].
      apply Hsize; [|done]. intros p Hp. split; [|by apply Hfresh].
      apply elem_of_map in Hp as (y & -> & Hy). apply (U_closed node). by apply Hsub.
Qed.

(** When the shorter paths are used up, the longer ones take their place. *)
Lemma bfs_inv_shift K qb visited :
  bfs_inv g start end_ K [] qb visited -> bfs_inv g start end_ (S K) qb [] visited.
Proof.
  intros [Hstart Hentries Hqa Hqb Hvis Hlev]. simpl in *.
  constructor; rewrite ?app_nil_r; try done.
  - by intros e ?%elem_of_nil.
  - intros x m Hx Hm.
    destruct (decide (m < K)%nat) as [Hlt|Hge]; [by apply Hlev|].
    assert (m = K) as -> by lia.
    assert (Hxv : x ∈ visited).
    { destruct K as [|K]; [by inversion Hx; subst|].
      apply nsteps_inv_r in Hx as (w & Hw & Hwx).
      destruct (Hlev w K Hw ltac:(lia)) as (_ & [Hexp|(e & He & _ & Hle)]).
      - by destruct (Hexp _ Hwx).
      - rewrite (Hqb e He) in Hle. lia. }
    split; [done|].
    destruct (Hvis x Hxv) as [(e & He & Hpe)|Hexp]; [right | by left].
    exists e. split_and!; [done | done |]. rewrite (Hqb e He). lia.
Qed.

Lemma bfs_total_cons fuel :
  (forall K qa qb visited,
     bfs_inv g start end_ K qa qb visited ->
     (size (U ∖ visited) + length (qa ++ qb) < fuel)%nat ->
     exists r, bfs fuel g start end_ (qa ++ qb) visited = Ret r
               /\ bfs_post g start end_ r) ->
  forall K node pth qa qb visited,
    bfs_inv g start end_ K ((node, pth) :: qa) qb visited ->
    (size (U ∖ visited) + length (((node, pth) :: qa) ++ qb) < S fuel)%nat ->
    exists r, bfs (S fuel) g start end_ (((node, pth) :: qa) ++ qb) visited = Ret r
              /\ bfs_post g start end_ r.
Proof.
  intros IH K node pth qa qb visited Hinv Hsize.
  rewrite <- app_comm_cons, bfs_S.
  pose proof (bfs_step K node pth qa qb visited Hinv) as Hstep.
  destruct (scan_neighbours end_ pth (getParents g node ++ getChildren g node)
              visited (qa ++ qb)) as [full|[v' q']].
  - destruct Hstep as (Hwalk & Hhead & Hlen & Hmin).
    eexists. split; [done|]. simpl. split_and!; try done.
    intros m Hm. rewrite Hlen. apply Hmin in Hm. lia.
  - destruct Hstep as (qb' & -> & Hinv' & Hsize').
    apply (IH K qa qb' v' Hinv'). simpl in Hsize. lia.
Qed.

Lemma bfs_total fuel : forall K qa qb visited,
  bfs_inv g start end_ K qa qb visited ->
  (size (U ∖ visited) + length (qa ++ qb) < fuel)%nat ->
  exists r, bfs fuel g start end_ (qa ++ qb) visited = Ret r
            /\ bfs_post g start end_ r.
Proof.
  induction fuel as [|fuel IH]; intros K qa qb visited Hinv Hsize; [lia|].
  destruct qa as [|[node pth] qa].
  - destruct qb as [|[node pth] qb].
    + exists None. split; [done|]. simpl.
      destruct Hinv as [Hstart _ _ _ Hvis _]. simpl in Hvis.
      assert (Hexp : forall v, v ∈ visited -> expanded g end_ visited v).
      { intros v Hv. destruct (Hvis v Hv) as [(e & He & _)|]; [|done].
        by apply elem_of_nil in He. }
      assert (Hreach : forall m x, nsteps (linked g) m (path start) x -> x ∈ visited).
      { induction m as [|m IHm]; intros x Hx; [by inversion Hx; subst|].
        apply nsteps_inv_r in Hx as (w & Hw & Hwx).
        by destruct (Hexp w (IHm w Hw) x Hwx). }
      intros [|m] Hm; [by inversion Hm|].
      apply nsteps_inv_r in Hm as (w & Hw & Hwx).
      by destruct (Hexp w (Hreach m w Hw) _ Hwx).
    + apply bfs_inv_shift in Hinv.
      replace ([] ++ (node, pth) :: qb) with (((node, pth) :: qb) ++ []) in *
        by by rewrite app_nil_r.
      by apply (bfs_total_cons fuel IH (S K)).
  - by apply (bfs_total_cons fuel IH K).
Qed.

End Bfs.

Lemma getChildren_target g f y : y ∈ getChildren g f -> path y ∈ child_targets g.
Proof.
  unfold getChildren, child_targets.
  destruct (graph_get g (path f)) as [n|] eqn:E; [|by intros ?%elem_of_nil].
  intros Hp. apply list_elem_of_In, in_flat_map. exists n. split.
  - apply list_elem_of_In. by eapply graph_get_Some_value.
  - apply list_elem_of_In, elem_of_map. eauto.
Qed.

Lemma link_targets_closed g f y :
  y ∈ getParents g f ++ getChildren g f -> path y ∈ link_targets g.
Proof.
  unfold link_targets. intros [Hy|Hy]%elem_of_app.
  - apply elem_of_union_l, elem_of_list_to_set. by eapply getParents_target.
  - apply elem_of_union_r, elem_of_list_to_set. by eapply getChildren_target.
Qed.

(** [findShortestPath] always returns, and what it returns for two
    different documents meets [bfs_post]. *)
Lemma findShortestPath_spec g start end_ :
  path start <> path end_ ->
  exists r, findShortestPath g start end_ = Ret r /\ bfs_post g start end_ r.
Proof.
  intros Hne. unfold findShortestPath. rewrite decide_False by done.
  apply (bfs_total g (link_targets g) start end_ (link_targets_closed g) Hne
           (bfs_fuel g) 1 [(start, [start])] [] {[path start]}).
  - constructor.
    + by apply elem_of_singleton.
    + intros n p [= -> ->]%list_elem_of_singleton. split_and!; try done.
      by apply elem_of_singleton.
    + by intros e ->%list_elem_of_singleton.
    + by intros e ?%elem_of_nil.
    + intros v ->%elem_of_singleton. left. exists (start, [start]). split; [left | done].
    + intros x m Hx Hm. assert (m = 0)%nat as -> by lia. inversion Hx; subst.
      split; [by apply elem_of_singleton|]. right.
      exists (start, [start]). split_and!; [left | done | simpl; lia].
  - pose proof (subseteq_size (link_targets g ∖ {[path start]}) (link_targets g)
                  ltac:(set_solver)).
    pose proof (size_union_le (list_to_set (edge_targets g))
                  (list_to_set (child_targets g))).
    pose proof (size_list_to_set_le (edge_targets g)).
    pose proof (size_list_to_set_le (child_targets g)).
    unfold link_targets, bfs_fuel in *. simpl. lia.
Qed.

Lemma findShortestPath_total g start end_ :
  exists r, findShortestPath g start end_ = Ret r.
Proof.
  destruct (decide (path start = path end_)) as [E|E].
  - unfold findShortestPath. rewrite decide_True by done. eauto.
  - destruct (findShortestPath_spec g start end_ E) as (r & Hr & _). eauto.
Qed.

Lemma walk_between_nsteps g s e pth :
  walk_between g s e pth ->
  nsteps (linked g) (length pth - 1) s e /\ (1 <= length pth)%nat.
Proof.
  intros (Hw & Hh & Hl).
  apply fmap_Some in Hh as (a & Hh & ->). apply fmap_Some in Hl as (b & Hl & ->).
  split; [by apply walk_nsteps|]. destruct pth; [done | simpl; lia].
Qed.


(* ===================================================================== *)
(** ** The bounded enumeration of [findAllPaths] *)
(* ===================================================================== *)

Lemma explore_total
    (rec : TFile -> list TFile -> gset string -> run (list NotePath.t))
    pth visited ns :
  (forall n v, exists ps, rec n (pth ++ [n]) v = Ret ps) ->
  exists ps, explore rec pth visited ns = Ret ps.
Proof.
  intros Hrec. induction ns as [|n ns [more IH]]; simpl; [eauto|].
  case_decide; [eauto|].
  destruct (Hrec n visited) as [found ->]. rewrite IH. eauto.
Qed.

(** The inner [dfs] returns as soon as the fuel covers the documents the
    path may still take. *)
Lemma paths_dfs_total g start end_ maxLength target fuel :
  forall current pth visited,
    (1 <= fuel)%nat ->
    maxLength + 2 <= Z.of_nat fuel + Z.of_nat (length pth) ->
    exists ps,
      paths_dfs fuel g start end_ maxLength current target pth visited = Ret ps.
Proof.
  induction fuel as [|fuel IH]; intros current pth visited Hfuel Hsum; [lia|].
  simpl. destruct (Z.gtb_spec (Z.of_nat (length pth)) maxLength) as [Hlong|Hshort];
    [eauto|].
  case_decide; [eauto|].
  assert (Hrec : forall n v, exists ps,
             paths_dfs fuel g start end_ maxLength n target (pth ++ [n]) v = Ret ps).
  { intros n v. apply IH; [lia|]. rewrite length_app. simpl. lia. }
  destruct (explore_total
              (fun n p v => paths_dfs fuel g start end_ maxLength n target p v)
              pth ({[path current]} ∪ visited) (getParents g current) Hrec)
    as [ups ->].
  destruct (explore_total
              (fun n p v => paths_dfs fuel g start end_ maxLength n target p v)
              pth ({[path current]} ∪ visited) (getChildren g current) Hrec)
    as [downs ->].
  eauto.
Qed.

Lemma findAllPaths_total g start end_ maxLength :
  exists ps, findAllPaths g start end_ maxLength = Ret ps.
Proof.
  unfold findAllPaths.
  destruct (paths_dfs_total g start end_ maxLength end_ (paths_fuel maxLength)
              start [start] ∅) as [ps ->]; [| |eauto].
  - unfold paths_fuel. lia.
  - unfold paths_fuel. simpl length. lia.
Qed.

(** C4.  On every graph, cyclic or not, [detectCycle] from any start,
    [getAncestors] for any depth, [findShortestPath] and [findAllPaths] for
    any bound return: with the fuel the entry points take from the graph and
    the bound, none of the walks runs dry. *)
Theorem traversals_return (g : Graph) :
  (forall start, exists r, detectCycle g start = Ret r)
  /\ (forall f d, exists gens,
        getAncestors (RelationGraph_object g) f (Some d) = inr gens)
  /\ (forall start end_, exists r, findShortestPath g start end_ = Ret r)
  /\ (forall start end_ maxLength, exists ps,
        findAllPaths g start end_ maxLength = Ret ps).
Proof.
  split_and!.
  - intros start. destruct (detectCycle_spec g start) as (r & Hr & _). eauto.
  - intros f d. eexists. apply getAncestors_explicit.
  - intros start end_. apply findShortestPath_total.
  - intros start end_ maxLength. apply findAllPaths_total.
Qed.

Lemma explore_sound (P : NotePath.t -> Prop)
    (rec : TFile -> list TFile -> gset string -> run (list NotePath.t))
    pth visited ns :
  (forall n found, n ∈ ns -> path n ∉ visited ->
     rec n (pth ++ [n]) visited = Ret found -> Forall P found) ->
  forall ps, explore rec pth visited ns = Ret ps -> Forall P ps.
Proof.
  induction ns as [|n ns IH]; intros Hrec ps; simpl.
  - intros [= <-]. constructor.
  - assert (Hrec' : forall n' found, n' ∈ ns -> path n' ∉ visited ->
              rec n' (pth ++ [n']) visited = Ret found -> Forall P found)
      by (intros n' found Hn'; apply Hrec; by right).
    case_decide as Hv; [by apply IH|].
    destruct (rec n (pth ++ [n]) visited) as [found|] eqn:Hfound; [|done].
    destruct (explore rec pth visited ns) as [more|] eqn:Hmore; [|done].
    intros [= <-]. apply Forall_app. split; [|by apply IH].
    apply (Hrec n); [left | done | done].
Qed.

Lemma paths_dfs_sound g start end_ maxLength target fuel :
  forall current pth visited ps,
    paths_dfs fuel g start end_ maxLength current target pth visited = Ret ps ->
    last pth = Some current ->
    is_walk g pth ->
    NoDup (map path pth) ->
    (forall x, x ∈ map path pth -> x ∈ ({[path current]} ∪ visited : gset string)) ->
    Forall (simple_path_record g start end_ maxLength (head pth) target) ps.
Proof.
  induction fuel as [|fuel IH]; intros current pth visited ps; simpl; [done|].
  destruct (Z.gtb_spec (Z.of_nat (length pth)) maxLength) as [Hlong|Hshort].
  { intros [= <-] _ _ _ _. constructor. }
  case_decide as Htarget.
  { intros [= <-] Hlast Hwalk Hnd Hvis. constructor; [|constructor].
    unfold simple_path_record; simpl. split_and!; try done.
    by rewrite Hlast; simpl; rewrite Htarget. }
  intros Hps Hlast Hwalk Hnd Hvis.
  assert (Hrec : forall n found,
            linked g (path current) (path n) ->
            path n ∉ ({[path current]} ∪ visited : gset string) ->
            paths_dfs fuel g start end_ maxLength n target (pth ++ [n])
              ({[path current]} ∪ visited) = Ret found ->
            Forall (simple_path_record g start end_ maxLength (head pth) target) found).
  { intros n found Hlink Hfresh Hfound.
    assert (Hhead : head (pth ++ [n]) = head pth)
      by (destruct pth; [done | done]).
    rewrite <- Hhead. apply (IH n (pth ++ [n]) _ found Hfound).
    - apply last_snoc.
    - by apply (is_walk_snoc g pth current n).
    - rewrite map_app. apply NoDup_app. split_and!; [done | | apply NoDup_singleton].
      intros x Hx ->%list_elem_of_singleton. apply Hfresh. by apply Hvis.
    - intros x. rewrite map_app, elem_of_app. intros [Hx|Hx%list_elem_of_singleton].
      + apply elem_of_union_r. by apply Hvis.
      + subst. apply elem_of_union_l. by apply elem_of_singleton. }
  destruct (explore _ pth _ (getParents g current)) as [ups|] eqn:Hups; [|done].
  destruct (explore _ pth _ (getChildren g current)) as [downs|] eqn:Hdowns; [|done].
  injection Hps as <-. apply Forall_app. split.
  - eapply explore_sound; [|exact Hups]. intros n found Hn Hfresh Hfound.
    apply (Hrec n found); [apply linked_intro, elem_of_app; by left | done | done].
  - eapply explore_sound; [|exact Hdowns]. intros n found Hn Hfresh Hfound.
    apply (Hrec n found); [apply linked_intro, elem_of_app; by right | done | done].
Qed.

Lemma paths_dfs_S fuel g start end_ maxLength current target pth visited :
  paths_dfs (S fuel) g start end_ maxLength current target pth visited
  = if Z.of_nat (length pth) >? maxLength then Ret []
    else if decide (path current = path target)
    then Ret [NotePath.mk start end_ pth (Z.of_nat (length pth) - 1)
                (determineDirection pth g)]
    else
      match explore
              (fun n p v => paths_dfs fuel g start end_ maxLength n target p v)
              pth ({[path current]} ∪ visited) (getParents g current) with
      | Timeout => Timeout
      | Ret ups =>
          match explore
                  (fun n p v => paths_dfs fuel g start end_ maxLength n target p v)
                  pth ({[path current]} ∪ visited) (getChildren g current) with
          | Timeout => Timeout
          | Ret downs => Ret (ups ++ downs)
          end
      end.
Proof. reflexivity. Qed.

Lemma insert_by_length_elem p l x : x ∈ insert_by_length p l <-> x = p \/ x ∈ l.
Proof.
  induction l as [|q l IH]; simpl.
  - rewrite list_elem_of_singleton. set_solver.
  - case_match; rewrite !elem_of_cons; [done|]. rewrite IH. tauto.
Qed.

Lemma sort_by_length_elem l x : x ∈ sort_by_length l <-> x ∈ l.
Proof.
  induction l as [|p l IH]; simpl; [done|].
  by rewrite insert_by_length_elem, IH, elem_of_cons.
Qed.

(** Every path [findAllPaths] returns is a simple path of the undirected view
    from [start] to [end] with at most [maxLength] documents, that is, with
    fewer than [maxLength] edges. *)
Lemma findAllPaths_sound g start end_ maxLength ps np :
  findAllPaths g start end_ maxLength = Ret ps -> np ∈ ps ->
  simple_path_record g start end_ maxLength (Some start) end_ np.
Proof.
  unfold findAllPaths.
  destruct (paths_dfs (paths_fuel maxLength) g start end_ maxLength start end_
              [start] ∅) as [found|] eqn:Hfound; [|done].
  intros [= <-] Hnp. apply (proj1 (sort_by_length_elem _ _)) in Hnp.
  pose proof (paths_dfs_sound g start end_ maxLength end_ _ start [start] ∅ found
                Hfound eq_refl I ltac:(apply NoDup_singleton)) as Hall.
  simpl in Hall. eapply Forall_forall; [apply Hall | exact Hnp].
  intros x ->%list_elem_of_singleton. apply elem_of_union_l. by apply elem_of_singleton.
Qed.

Lemma explore_complete
    (rec : TFile -> list TFile -> gset string -> run (list NotePath.t))
    pth visited ns n found np :
  (forall n v, exists ps, rec n (pth ++ [n]) v = Ret ps) ->
  n ∈ ns -> path n ∉ visited ->
  rec n (pth ++ [n]) visited = Ret found -> np ∈ found ->
  exists ps, explore rec pth visited ns = Ret ps /\ np ∈ ps.
Proof.
  intros Hrec Hn Hfresh Hfound Hnp.
  induction ns as [|n0 ns IH]; [by apply elem_of_nil in Hn|]. simpl.
  destruct (explore_total rec pth visited ns Hrec) as [more Hmore].
  apply elem_of_cons in Hn as [<-|Hn].
  - rewrite decide_False by done. rewrite Hfound, Hmore.
    eexists. split; [done|]. apply elem_of_app. by left.
  - destruct (IH Hn) as (ps & Hps & Hin). rewrite Hps in Hmore. injection Hmore as <-.
    case_decide; [eauto|].
    destruct (Hrec n0 visited) as [found0 ->]. rewrite Hps.
    eexists. split; [done|]. apply elem_of_app. by right.
Qed.

(** The inner [dfs] reaches every simple continuation of its path that ends
    at the target and fits the bound. *)
Lemma paths_dfs_complete g start end_ maxLength target suffix :
  forall fuel current c' pth visited,
    path c' = path current ->
    is_walk g (c' :: suffix) ->
    NoDup (map path (c' :: suffix)) ->
    (forall x, x ∈ map path suffix -> x ∉ visited) ->
    path <$> last (c' :: suffix) = Some (path target) ->
    Z.of_nat (length pth + length suffix) <= maxLength ->
    (1 <= fuel)%nat ->
    maxLength + 2 <= Z.of_nat fuel + Z.of_nat (length pth) ->
    exists ps np,
      paths_dfs fuel g start end_ maxLength current target pth visited = Ret ps
      /\ np ∈ ps
      /\ map path (NotePath.path np) = map path pth ++ map path suffix.
Proof.
  induction suffix as [|n' suffix IH];
    intros fuel current c' pth visited Hc Hwalk Hnd Hfresh Hlast Hlen Hfuel Hsum;
    (destruct fuel as [|fuel]; [lia|]); rewrite paths_dfs_S;
    (destruct (Z.gtb_spec (Z.of_nat (length pth)) maxLength) as [Hlong|_]; [lia|]).
  - simpl in Hlast. injection Hlast as Hlast.
    rewrite decide_True by congruence.
    eexists _, _. split; [done|]. split; [left|]. simpl. by rewrite app_nil_r.
  - assert (Hne : path current <> path target).
    { intros E. apply NoDup_cons in Hnd as [Hnotin _]. apply Hnotin.
      rewrite Hc, E. rewrite last_cons_cons in Hlast.
      apply fmap_Some in Hlast as (z & Hz & Hzp).
      change (path target ∈ map path (n' :: suffix)).
      apply elem_of_map. exists z. split; [done|]. by apply last_Some_elem_of. }
    rewrite decide_False by done.
    destruct Hwalk as [Hlink Hwalk]. rewrite Hc in Hlink.
    apply linked_inv in Hlink as (n & Hn & Hpn).
    apply NoDup_cons in Hnd as [Hc' Hnd].
    simpl length in Hlen.
    set (rec := fun n p v => paths_dfs fuel g start end_ maxLength n target p v).
    assert (Hrec : forall n v, exists ps, rec n (pth ++ [n]) v = Ret ps).
    { intros m v. apply paths_dfs_total; [lia|]. rewrite length_app. simpl. lia. }
    destruct (IH fuel n n' (pth ++ [n]) ({[path current]} ∪ visited))
      as (found & np & Hfound & Hnp & Hpath).
    + done.
    + done.
    + done.
    + intros x Hx. apply not_elem_of_union. split.
      * intros ->%elem_of_singleton. apply Hc'. rewrite Hc. by right.
      * apply Hfresh. by right.
    + by rewrite last_cons_cons in Hlast.
    + rewrite length_app. simpl. lia.
    + lia.
    + rewrite length_app. simpl. lia.
    + assert (Hfreshn : path n ∉ ({[path current]} ∪ visited : gset string)).
      { apply not_elem_of_union. split.
        - intros E%elem_of_singleton. apply Hc'. rewrite Hc, <- E, Hpn. left.
        - apply Hfresh. rewrite Hpn. left. }
      assert (Hres : map path (NotePath.path np)
                     = map path pth ++ map path (n' :: suffix)).
      { rewrite Hpath, map_app, <- app_assoc. simpl. by rewrite Hpn. }
      destruct (explore_total rec pth ({[path current]} ∪ visited)
                  (getParents g current) Hrec) as [ups Hups].
      destruct (explore_total rec pth ({[path current]} ∪ visited)
                  (getChildren g current) Hrec) as [downs Hdowns].
      fold rec. rewrite Hups, Hdowns. exists (ups ++ downs), np.
      split; [done|]. split; [|done].
      apply elem_of_app. apply elem_of_app in Hn as [Hn|Hn]; [left|right].
      * destruct (explore_complete rec pth _ _ n found np Hrec Hn Hfreshn Hfound Hnp)
          as (ps & Hps & Hin). rewrite Hps in Hups. by injection Hups as <-.
      * destruct (explore_complete rec pth _ _ n found np Hrec Hn Hfreshn Hfound Hnp)
          as (ps & Hps & Hin). rewrite Hps in Hdowns. by injection Hdowns as <-.
Qed.

(** [findAllPaths] returns every simple path of the undirected view from
    [start] to [end] that has at most [maxLength] documents. *)
Lemma findAllPaths_complete g start end_ maxLength w :
  walk_between g (path start) (path end_) w ->
  NoDup (map path w) ->
  Z.of_nat (length w) <= maxLength ->
  exists ps np,
    findAllPaths g start end_ maxLength = Ret ps
    /\ np ∈ ps
    /\ map path (NotePath.path np) = map path w.
Proof.
  intros (Hwalk & Hhead & Hlast) Hnd Hlen.
  destruct w as [|s' suffix]; [done|]. simpl in Hhead. injection Hhead as Hs.
  destruct (paths_dfs_complete g start end_ maxLength end_ suffix
              (paths_fuel maxLength) start s' [start] ∅)
    as (ps & np & Hps & Hnp & Hpath); try done.
  - unfold paths_fuel. lia.
  - unfold paths_fuel. simpl length in *. lia.
  - unfold findAllPaths. rewrite Hps. exists (sort_by_length ps), np.
    split; [done|]. split; [by apply sort_by_length_elem|].
    rewrite Hpath. simpl. by rewrite Hs.
Qed.

(** C1, at the input where the code parts from it.  In the vault where [A]'s
    parent is [B], the path [[A, B]] is a simple path from [A] to [B] with one
    edge, yet [findAllPaths(A, B, graph, 1)] returns no path: the inner [dfs]
    compares the number of documents on the path, not the number of edges,
    with [maxLength], so a path with exactly [maxLength] edges is dropped.
    With [maxLength = 2] the path is returned, with [length] 1.  What the
    function does return is in [findAllPaths_sound] and
    [findAllPaths_complete]: the simple paths with at most [maxLength]
    documents. *)
Theorem findAllPaths_drops_full_length :
  walk_between pair (path (doc "A")) (path (doc "B")) [doc "A"; doc "B"]
  /\ NoDup (map path [doc "A"; doc "B"])
  /\ Z.of_nat (length [doc "A"; doc "B"]) - 1 <= 1
  /\ findAllPaths pair (doc "A") (doc "B") 1 = Ret []
  /\ findAllPaths pair (doc "A") (doc "B") 2
     = Ret [NotePath.mk (doc "A") (doc "B") [doc "A"; doc "B"] 1 Up].
Proof.
  split_and!.
  - split_and!; [|done|done]. simpl. split; [|done].
    exists (doc "A"). split; [done|]. left. vm_compute. left.
  - vm_compute. repeat constructor; set_solver.
  - simpl. lia.
  - by vm_compute.
  - by vm_compute.
Qed.

(** C10.  A document that is not in the graph has no relationships: its
    parents and children are the empty array, [detectCycle] and
    [getCycleInfo] answer [null], its ancestors for any given depth are [[]],
    no path leads from it to a different document, and a search towards it
    returns as well.  One query fails on the absent key all the same:
    [getAncestors] called without a depth throws the [TypeError] of calling
    [this.graph.getMaxDepth], where the empty array is expected. *)
Theorem absent_document_queries (g : Graph) (f : TFile) :
  path f ∉ graph_keys g ->
  getParents g f = []
  /\ getChildren g f = []
  /\ detectCycle g f = Ret None
  /\ getCycleInfo g f = Ret None
  /\ (forall d, getAncestors (RelationGraph_object g) f (Some d) = inr [])
  /\ getAncestors (RelationGraph_object g) f None
     = inl (TypeError "this.graph.getMaxDepth is not a function")
  /\ (forall e, path f <> path e -> findShortestPath g f e = Ret None)
  /\ (forall e m, path f <> path e -> findAllPaths g f e m = Ret [])
  /\ (forall e, exists r, findShortestPath g e f = Ret r)
  /\ (forall e m, exists ps, findAllPaths g e f m = Ret ps).
Proof.
  intros Habsent.
  assert (Hp : getParents g f = []) by (unfold getParents; by rewrite graph_get_None).
  assert (Hc : getChildren g f = []) by (unfold getChildren; by rewrite graph_get_None).
  assert (Hd : detectCycle g f = Ret None).
  { unfold detectCycle, detectCycle_fuel, dfs_fuel. rewrite dfs_S, Hp. done. }
  split_and!; try done.
  - intros d. rewrite getAncestors_explicit. f_equal.
    apply generations_self_only. simpl. rewrite Hp. by intros p ?%elem_of_nil.
  - intros e Hne. unfold findShortestPath, bfs_fuel. rewrite decide_False by done.
    rewrite bfs_S, Hp, Hc. done.
  - intros e m Hne. unfold findAllPaths, paths_fuel.
    rewrite paths_dfs_S, Hp, Hc. rewrite decide_False by done. simpl.
    by destruct (Z.of_nat 1 >? m).
  - intros e. apply findShortestPath_total.
  - intros e m. apply findAllPaths_total.
Qed.

Lemma absent_document_queries_witness :
  getParents [] (doc "A") = []
  /\ getChildren [] (doc "A") = []
  /\ detectCycle [] (doc "A") = Ret None
  /\ getCycleInfo [] (doc "A") = Ret None
  /\ (forall d, getAncestors (RelationGraph_object []) (doc "A") (Some d) = inr [])
  /\ getAncestors (RelationGraph_object []) (doc "A") None
     = inl (TypeError "this.graph.getMaxDepth is not a function")
  /\ (forall e, path (doc "A") <> path e -> findShortestPath [] (doc "A") e = Ret None)
  /\ (forall e m, path (doc "A") <> path e -> findAllPaths [] (doc "A") e m = Ret [])
  /\ (forall e, exists r, findShortestPath [] e (doc "A") = Ret r)
  /\ (forall e m, exists ps, findAllPaths [] e (doc "A") m = Ret ps).
Proof.
  apply (absent_document_queries [] (doc "A")).
  vm_compute. by intros H%elem_of_nil.
Defined.

(* ===================================================================== *)
(** ** More fuel changes no answer *)
(* ===================================================================== *)

Lemma dfs_parents_mono
    (rec rec' : TFile -> gmap string NodeState -> list TFile -> run DfsResult)
    cur ps :
  (forall p st sk r, rec p st sk = Ret r -> rec' p st sk = Ret r) ->
  forall st sk r,
    dfs_parents rec cur ps st sk = Ret r -> dfs_parents rec' cur ps st sk = Ret r.
Proof.
  intros Hrec. induction ps as [|p ps IH]; intros st sk r; simpl; [done|].
  destruct (state_of st (path p)); [|done|by apply IH].
  destruct (rec p st sk) as [[[[ci|] st1] sk1]|] eqn:E; [| |done];
    rewrite (Hrec _ _ _ _ E); [done | by apply IH].
Qed.

Lemma dfs_mono g n : forall m cur st sk r,
  (n <= m)%nat -> dfs n g cur st sk = Ret r -> dfs m g cur st sk = Ret r.
Proof.
  induction n as [|n IH]; intros m cur st sk r Hle; [done|].
  destruct m as [|m]; [lia|]. rewrite !dfs_S.
  apply dfs_parents_mono. intros p st' sk' r'. apply IH. lia.
Qed.

Lemma detectCycle_fuel_enough g f n :
  (dfs_fuel g <= n)%nat -> detectCycle_fuel n g f = detectCycle g f.
Proof.
  intros Hle. destruct (detectCycle_spec g f) as (r & Hr & _). rewrite Hr.
  unfold detectCycle, detectCycle_fuel in *.
  destruct (dfs (dfs_fuel g) g f ∅ []) as [[[r' st] sk]|] eqn:E; [|done].
  by rewrite (dfs_mono g _ n _ _ _ _ Hle E).
Qed.

Lemma hasCycles_loop_mono g n m files : forall st b,
  (n <= m)%nat ->
  hasCycles_loop n g files st = Ret b -> hasCycles_loop m g files st = Ret b.
Proof.
  induction files as [|f files IH]; intros st b Hle; simpl; [done|].
  destruct (state_of st (path f)); [|by apply IH|by apply IH].
  destruct (dfs n g f st []) as [[[[ci|] st1] sk1]|] eqn:E; [| |done];
    rewrite (dfs_mono g n m _ _ _ _ Hle E); [done | by apply IH].
Qed.

Lemma bfs_mono g start end_ n : forall m queue visited r,
  (n <= m)%nat ->
  bfs n g start end_ queue visited = Ret r -> bfs m g start end_ queue visited = Ret r.
Proof.
  induction n as [|n IH]; intros m queue visited r Hle; [done|].
  destruct m as [|m]; [lia|]. destruct queue as [|[node pth] queue]; [done|].
  rewrite !bfs_S.
  destruct (scan_neighbours end_ pth (getParents g node ++ getChildren g node)
              visited queue) as [full|[v q]]; [done|].
  apply IH. lia.
Qed.

Lemma explore_mono
    (rec rec' : TFile -> list TFile -> gset string -> run (list NotePath.t))
    pth visited ns :
  (forall n p v ps, rec n p v = Ret ps -> rec' n p v = Ret ps) ->
  forall ps, explore rec pth visited ns = Ret ps -> explore rec' pth visited ns = Ret ps.
Proof.
  intros Hrec. induction ns as [|n ns IH]; intros ps; simpl; [done|].
  case_decide; [by apply IH|].
  destruct (rec n (pth ++ [n]) visited) as [found|] eqn:E; [|done].
  rewrite (Hrec _ _ _ _ E).
  destruct (explore rec pth visited ns) as [more|] eqn:E'; [|done].
  by rewrite (IH _ eq_refl).
Qed.

Lemma paths_dfs_mono g start end_ maxLength target n :
  forall m current pth visited ps,
    (n <= m)%nat ->
    paths_dfs n g start end_ maxLength current target pth visited = Ret ps ->
    paths_dfs m g start end_ maxLength current target pth visited = Ret ps.
Proof.
  induction n as [|n IH]; intros m current pth visited ps Hle; [done|].
  destruct m as [|m]; [lia|]. rewrite !paths_dfs_S.
  destruct (Z.of_nat (length pth) >? maxLength); [done|].
  case_decide; [done|].
  assert (Hrec : forall x p v qs,
            paths_dfs n g start end_ maxLength x target p v = Ret qs ->
            paths_dfs m g start end_ maxLength x target p v = Ret qs)
    by (intros x p v qs; apply IH; lia).
  destruct (explore _ pth _ (getParents g current)) as [ups|] eqn:Eu; [|done].
  rewrite (explore_mono _ _ _ _ _ Hrec _ Eu).
  destruct (explore _ pth _ (getChildren g current)) as [downs|] eqn:Ed; [|done].
  by rewrite (explore_mono _ _ _ _ _ Hrec _ Ed).
Qed.

Lemma hasCycles_fuel_enough g n :
  (dfs_fuel g <= n)%nat -> hasCycles_loop n g (getAllFiles g) ∅ = hasCycles g.
Proof.
  intros Hle. destruct (hasCycles_spec g) as (b & Hb & _). rewrite Hb.
  by apply (hasCycles_loop_mono g (dfs_fuel g)).
Qed.

Lemma findShortestPath_fuel_enough g start end_ n :
  (bfs_fuel g <= n)%nat -> path start <> path end_ ->
  bfs n g start end_ [(start, [start])] {[path start]}
  = findShortestPath g start end_.
Proof.
  intros Hle Hne. destruct (findShortestPath_total g start end_) as (r & Hr).
  rewrite Hr. unfold findShortestPath in Hr. rewrite decide_False in Hr by done.
  by apply (bfs_mono g start end_ (bfs_fuel g)).
Qed.

Lemma findAllPaths_fuel_enough g start end_ maxLength n :
  (paths_fuel maxLength <= n)%nat ->
  match paths_dfs n g start end_ maxLength start end_ [start] ∅ with
  | Timeout => Timeout
  | Ret paths => Ret (sort_by_length paths)
  end = findAllPaths g start end_ maxLength.
Proof.
  intros Hle. unfold findAllPaths.
  destruct (paths_dfs_total g start end_ maxLength end_ (paths_fuel maxLength)
              start [start] ∅) as [ps Hps].
  - unfold paths_fuel. lia.
  - unfold paths_fuel. simpl length. lia.
  - by rewrite Hps, (paths_dfs_mono _ _ _ _ _ _ n _ _ _ _ Hle Hps).
Qed.

(* ===================================================================== *)
(** ** [build] and the lookups, on a vault with distinct paths *)
(* ===================================================================== *)

Lemma graph_set_fresh g k v : k ∉ graph_keys g -> graph_set g k v = g ++ [(k, v)].
Proof.
  induction g as [|[k0 v0] g IH]; simpl; [done|].
  intros Hk. rewrite decide_False by (intros ->; apply Hk; left).
  f_equal. apply IH. intros ?. apply Hk. by right.
Qed.

Lemma build_nodes_from app files : forall g,
  NoDup (map path files) ->
  (forall f, f ∈ files -> path f ∉ graph_keys g) ->
  fold_left
    (fun g f => graph_set g (path f) (mkNodeInfo f (extractParentLinks app f) []))
    files g
  = g ++ map (fun f => (path f, mkNodeInfo f (extractParentLinks app f) [])) files.
Proof.
  induction files as [|f files IH]; intros g Hnd Hfresh; simpl.
  - by rewrite app_nil_r.
  - apply NoDup_cons in Hnd as [Hf Hnd].
    rewrite graph_set_fresh by (apply Hfresh; left).
    rewrite IH; [by rewrite <- app_assoc | done |].
    intros f' Hf'. unfold graph_keys. rewrite map_app. simpl.
    rewrite elem_of_app, list_elem_of_singleton. intros [Hin|E].
    + apply (Hfresh f'); [by right | done].
    + apply Hf. rewrite <- E. apply elem_of_map. eauto.
Qed.

Lemma build_nodes_distinct app :
  NoDup (map path (getMarkdownFiles app)) ->
  build_nodes app
  = map (fun f => (path f, mkNodeInfo f (extractParentLinks app f) []))
      (getMarkdownFiles app).
Proof.
  intros Hnd. unfold build_nodes.
  rewrite (build_nodes_from app _ [] Hnd); [done|].
  by intros f _ ?%elem_of_nil.
Qed.

Lemma graph_get_map_node app files f :
  f ∈ files ->
  NoDup (map path files) ->
  graph_get
    (map (fun f => (path f, mkNodeInfo f (extractParentLinks app f) [])) files)
    (path f)
  = Some (mkNodeInfo f (extractParentLinks app f) []).
Proof.
  intros Hf Hnd. apply graph_get_of_entry.
  - unfold graph_keys. rewrite map_map. simpl. done.
  - apply elem_of_map. eauto.
Qed.

Lemma getAllFiles_skeleton g :
  getAllFiles g = map (fun t : string * TFile * list TFile => snd (fst t)) (skeleton g).
Proof. unfold getAllFiles, graph_values, skeleton. by rewrite !map_map. Qed.

Lemma graph_keys_skeleton g :
  graph_keys g = map (fun t : string * TFile * list TFile => fst (fst t)) (skeleton g).
Proof. unfold graph_keys, skeleton. by rewrite !map_map. Qed.

(** X1.  On a vault whose markdown files have pairwise different paths,
    [build] makes one node per file, in the order of the vault:
    [getAllFiles] gives the files back, the keys are their paths, and
    [getParents] of each file is what [extractParentLinks] resolved for it. *)
Theorem build_distinct_vault (app : App) :
  NoDup (map path (getMarkdownFiles app)) ->
  getAllFiles (build app) = getMarkdownFiles app
  /\ graph_keys (build app) = map path (getMarkdownFiles app)
  /\ forall f, f ∈ getMarkdownFiles app ->
       getParents (build app) f = extractParentLinks app f.
Proof.
  intros Hnd. split_and!.
  - rewrite getAllFiles_skeleton, build_skeleton, build_nodes_distinct by done.
    unfold skeleton. rewrite !map_map. simpl. apply map_id.
  - rewrite graph_keys_skeleton, build_skeleton, build_nodes_distinct by done.
    unfold skeleton. by rewrite !map_map.
  - intros f Hf. unfold getParents.
    rewrite build_get, build_nodes_distinct, graph_get_map_node by done. done.
Qed.

Lemma build_distinct_vault_witness :
  getAllFiles diamond = [doc "A"; doc "B"; doc "C"; doc "D"]
  /\ graph_keys diamond = ["A.md"; "B.md"; "C.md"; "D.md"]
  /\ forall f, f ∈ [doc "A"; doc "B"; doc "C"; doc "D"] ->
       getParents diamond f
       = extractParentLinks
           (vault [("A", ["B"; "C"]); ("B", ["D"]); ("C", ["D"]); ("D", [])]) f.
Proof.
  apply (build_distinct_vault
           (vault [("A", ["B"; "C"]); ("B", ["D"]); ("C", ["D"]); ("D", [])])).
  apply (bool_decide_unpack _). by vm_compute.
Defined.

(* ===================================================================== *)
(** ** What the cycle detector reports *)
(* ===================================================================== *)

(** X2.  [detectCycle(start)] returns a cycle exactly when some cycle of
    parent edges can be reached from [start] along parent edges ([start]
    itself need not lie on it), and [null] exactly when every chain of parent
    edges from [start] ends. *)
Theorem detectCycle_reachable_cycle (g : Graph) (d : TFile) :
  ((exists ci, detectCycle g d = Ret (Some ci)) <-> reaches_cycle g (path d))
  /\ (detectCycle g d = Ret None <-> cycle_free g (path d)).
Proof.
  destruct (detectCycle_spec g d) as (r & Hr & Hspec). rewrite Hr.
  destruct r as [ci|]; split; split.
  - intros _. apply Hspec.
  - eauto.
  - done.
  - intros Hcf. by apply reaches_cycle_not_cycle_free in Hcf; [|apply Hspec].
  - by intros (ci & ?).
  - intros Hcyc. by apply reaches_cycle_not_cycle_free in Hcyc.
  - done.
  - done.
Qed.

Lemma detectCycle_reachable_cycle_witness :
  reaches_cycle two_cycle (path (doc "A"))
  /\ cycle_free chain (path (doc "A")).
Proof.
  split.
  - apply (proj1 (proj1 (detectCycle_reachable_cycle two_cycle (doc "A")))).
    eexists. by vm_compute.
  - apply (proj1 (proj2 (detectCycle_reachable_cycle chain (doc "A")))).
    by vm_compute.
Defined.

(** X3.  On a graph made by [build], [hasCycles()] decides whether the
    parent edges have a cycle: it returns [true] exactly when some document
    lies on a cycle, and [false] exactly when none does. *)
Theorem hasCycles_build (app : App) :
  (hasCycles (build app) = Ret true <-> exists k, on_cycle (build app) k)
  /\ (hasCycles (build app) = Ret false <-> acyclic (build app)).
Proof.
  destruct (hasCycles_spec (build app)) as (b & Hb & Hspec).
  assert (Hfalse : hasCycles (build app) = Ret false -> acyclic (build app))
    by (apply hasCycles_false_acyclic, build_keyed).
  rewrite Hb in *. destruct b.
  - destruct Hspec as (f & _ & k & _ & Hk). split; split; try done; [eauto|].
    intros Hacyc. by apply Hacyc in Hk.
  - specialize (Hfalse eq_refl). split; split; try done.
    intros (k & Hk). by apply Hfalse in Hk.
Qed.

Lemma hasCycles_build_witness :
  (exists k, on_cycle two_cycle k) /\ acyclic chain.
Proof.
  split.
  - apply (proj1 (proj1 (hasCycles_build (vault [("A", ["B"]); ("B", ["A"])])))).
    by vm_compute.
  - apply (proj1 (proj2 (hasCycles_build
             (vault [("A", ["B"]); ("B", ["C"]); ("C", ["D"]); ("D", [])])))).
    by vm_compute.
Defined.

Lemma parent_chain_snoc g l c p :
  parent_chain g l -> last l = Some c -> names_parent g (path c) (path p) ->
  parent_chain g (l ++ [p]).
Proof.
  induction l as [|a [|b l] IH]; simpl; [done| |].
  - by intros _ [= ->] Hp.
  - intros [Hab Hl] Hlast Hp. split; [done|]. by apply IH.
Qed.

Lemma parent_chain_suffix g before l :
  parent_chain g (before ++ l) -> parent_chain g l.
Proof.
  induction before as [|a before IH]; [done|].
  destruct before as [|b before]; simpl.
  - destruct l; [done | by intros [_ ?]].
  - intros [_ H]. by apply IH.
Qed.

Lemma buildCycleInfo_chain g cur p sk :
  path p ∈ map path sk -> parent_chain g sk -> last sk = Some cur ->
  names_parent g (path cur) (path p) ->
  parent_chain g (CycleInfo.cyclePath (buildCycleInfo p sk)).
Proof.
  intros Hin Hchain Hlast Hp.
  destruct (findIndex_found _ _ Hin) as (before & a & after & -> & Ha & Hidx).
  unfold buildCycleInfo. simpl. rewrite Hidx, slice_from_length.
  apply (parent_chain_snoc g (a :: after) cur p); [|by rewrite last_app_cons in Hlast|done].
  by apply parent_chain_suffix in Hchain.
Qed.

Section Report.
Variable g : Graph.

Section Loop.
Variable rec : TFile -> gmap string NodeState -> list TFile -> run DfsResult.
Hypothesis rec_report : forall p st sk res,
  rec p st sk = Ret res ->
  state_of st (path p) = WHITE -> gray_on_stack st sk ->
  parent_chain g (sk ++ [p]) ->
  match res with
  | (Some ci, _, _) =>
      parent_chain g (CycleInfo.cyclePath ci)
      /\ CycleInfo.startFile ci = head (sk ++ [p])
      /\ described ci
  | (None, st', sk') => sk' = sk /\ frame st st' /\ gray_within st' st
  end.

Lemma dfs_parents_report cur ps : forall st sk res,
  dfs_parents rec cur ps st sk = Ret res ->
  gray_on_stack st sk -> parent_chain g sk -> last sk = Some cur ->
  (forall p, p ∈ ps -> p ∈ getParents g cur) ->
  match res with
  | (Some ci, _, _) =>
      parent_chain g (CycleInfo.cyclePath ci)
      /\ CycleInfo.startFile ci = head sk
      /\ described ci
  | (None, st', sk') =>
      exists st_end,
        st' = <[path cur:=BLACK]> st_end /\ sk' = removelast sk
        /\ frame st st_end /\ gray_within st_end st
  end.
Proof.
  induction ps as [|p ps IH]; intros st sk res; simpl.
  { intros [= <-] _ _ _ _. exists st. split_and!; [done | done | apply frame_refl | by intros k]. }
  intros Hres Hgray Hchain Hlast Hpar.
  assert (Hp : names_parent g (path cur) (path p))
    by (apply names_parent_intro, Hpar; left).
  assert (Hpar' : forall q, q ∈ ps -> q ∈ getParents g cur)
    by (intros q Hq; apply Hpar; by right).
  destruct (state_of st (path p)) eqn:Hst.
  - destruct (rec p st sk) as [[[r st1] sk1]|] eqn:Hrec; [|done].
    pose proof (rec_report p st sk _ Hrec Hst Hgray
                  (parent_chain_snoc g sk cur p Hchain Hlast Hp)) as Hpost.
    destruct r as [ci|].
    + injection Hres as <-. destruct Hpost as (? & Hstart & ?).
      split_and!; [done | | done]. rewrite Hstart. by destruct sk.
    + destruct Hpost as (-> & Hframe & Hgw).
      specialize (IH st1 sk res Hres).
      destruct res as [[[ci|] st'] sk'].
      * apply IH; try done. intros k Hk. by apply Hgray, Hgw.
      * destruct IH as (st_end & -> & -> & Hframe2 & Hgw2); try done.
        { intros k Hk. by apply Hgray, Hgw. }
        exists st_end. split_and!; [done | done | by eapply frame_trans |].
        intros k Hk. by apply Hgw, Hgw2.
  - injection Hres as <-. split_and!; [|done|done].
    apply (buildCycleInfo_chain g cur); [by apply Hgray | done | done | done].
  - specialize (IH st sk res Hres Hgray Hchain Hlast Hpar'). done.
Qed.

End Loop.

Lemma dfs_report_spec n : forall cur st sk res,
  dfs n g cur st sk = Ret res ->
  state_of st (path cur) = WHITE -> gray_on_stack st sk ->
  parent_chain g (sk ++ [cur]) ->
  match res with
  | (Some ci, _, _) =>
      parent_chain g (CycleInfo.cyclePath ci)
      /\ CycleInfo.startFile ci = head (sk ++ [cur])
      /\ described ci
  | (None, st', sk') => sk' = sk /\ frame st st' /\ gray_within st' st
  end.
Proof.
  induction n as [|n IH]; intros cur st sk res; [done|]. rewrite dfs_S.
  intros Hres Hw Hgray Hchain.
  pose proof (dfs_parents_report (dfs n g) IH cur (getParents g cur)
                (<[path cur:=GRAY]> st) (sk ++ [cur]) res Hres) as Hloop.
  destruct res as [[[ci|] st'] sk'].
  - apply Hloop; [|done|apply last_snoc|done].
    intros k. rewrite state_of_insert, map_app, elem_of_app. case_decide; [subst|].
    + intros _. right. left.
    + intros Hk. left. by apply Hgray.
  - destruct Hloop as (st_end & -> & -> & Hframe & Hgw); [|done|apply last_snoc|done|].
    { intros k. rewrite state_of_insert, map_app, elem_of_app. case_decide; [subst|].
      - intros _. right. left.
      - intros Hk. left. by apply Hgray. }
    split_and!.
    + apply removelast_snoc.
    + intros k Hk. rewrite state_of_insert. case_decide; [congruence|].
      rewrite (Hframe k); rewrite state_of_insert; case_decide; congruence.
    + intros k. rewrite state_of_insert. case_decide; [done|].
      intros Hk%Hgw. rewrite state_of_insert in Hk. by case_decide.
Qed.

End Report.

(** X4.  A cycle returned by [detectCycle(start)] is a real one: every entry
    of its path names the next entry as a parent, its [startFile] is [start],
    and its description is the rendering of that path. *)
Theorem detectCycle_report (g : Graph) (start : TFile) (ci : CycleInfo.t) :
  detectCycle g start = Ret (Some ci) ->
  parent_chain g (CycleInfo.cyclePath ci)
  /\ CycleInfo.startFile ci = Some start
  /\ described ci.
Proof.
  unfold detectCycle, detectCycle_fuel.
  destruct (dfs (dfs_fuel g) g start ∅ []) as [[[r st] sk]|] eqn:Hdfs; [|done].
  intros [= ->].
  apply (dfs_report_spec g _ start ∅ [] _ Hdfs).
  - apply state_of_empty.
  - intros k. by rewrite state_of_empty.
  - done.
Qed.

Lemma detectCycle_report_witness :
  parent_chain detour [doc "A"; doc "B"; doc "A"]
  /\ Some (doc "A") = Some (doc "A")
  /\ described
       (CycleInfo.mk [doc "A"; doc "B"; doc "A"] (Some (doc "A"))
          "Cycle detected: A → B → A" 2).
Proof.
  apply (detectCycle_report detour (doc "A")
           (CycleInfo.mk [doc "A"; doc "B"; doc "A"] (Some (doc "A"))
              "Cycle detected: A → B → A" 2)).
  by vm_compute.
Defined.

(* ===================================================================== *)
(** ** More on [getAncestors] *)
(* ===================================================================== *)

Lemma generations_app graph n : forall cur visited result,
  generations graph n cur visited result
  = result ++ generations graph n cur visited [].
Proof.
  induction n as [|n IH]; intros cur visited result; simpl.
  - by rewrite app_nil_r.
  - destruct (stage_generation graph cur [] ∅ visited) as [[next seen] visited'].
    destruct next as [|x next]; [by rewrite app_nil_r|].
    rewrite IH, (IH _ _ [_]). by rewrite <- app_assoc.
Qed.

Lemma generations_S graph n cur visited :
  generations graph (S n) cur visited []
  = match stage_generation graph cur [] ∅ visited with
    | ([], _, _) => []
    | (x :: next, _, visited') =>
        (x :: next) :: generations graph n (x :: next) visited' []
    end.
Proof.
  simpl. destruct (stage_generation graph cur [] ∅ visited) as [[next seen] visited'].
  destruct next as [|x next]; [done|]. by rewrite generations_app.
Qed.

Lemma generations_bound graph n : forall cur visited,
  (length (generations graph n cur visited []) <= n)%nat
  /\ Forall (fun gen => gen <> []) (generations graph n cur visited []).
Proof.
  induction n as [|n IH]; intros cur visited; [by split; [simpl; lia | constructor]|].
  rewrite generations_S.
  destruct (stage_generation graph cur [] ∅ visited) as [[next seen] visited'].
  destruct next as [|x next]; [split; [simpl; lia | constructor]|].
  destruct (IH (x :: next) visited') as [Hlen Hall].
  split; [simpl; lia | by constructor].
Qed.

Lemma generations_take graph n : forall m cur visited,
  (n <= m)%nat ->
  generations graph n cur visited [] = take n (generations graph m cur visited []).
Proof.
  induction n as [|n IH]; intros m cur visited Hle; [done|].
  destruct m as [|m]; [lia|]. rewrite !generations_S.
  destruct (stage_generation graph cur [] ∅ visited) as [[next seen] visited'].
  destruct next as [|x next]; [done|]. simpl. f_equal. apply IH. lia.
Qed.

(** X5.  [getAncestors(file, maxDepth)] returns at most [maxDepth]
    generations, none at all for [maxDepth <= 0], and never an empty
    generation: the list stops at the first generation that would be
    empty. *)
Theorem getAncestors_bounded (graph : GraphObject) (f : TFile) (d : Z) :
  exists gens,
    getAncestors graph f (Some d) = inr gens
    /\ Z.of_nat (length gens) <= Z.max 0 d
    /\ Forall (fun gen => gen <> []) gens.
Proof.
  eexists. split; [apply getAncestors_explicit|].
  destruct (generations_bound graph (Z.to_nat d) [f] {[path f]}) as [Hlen Hall].
  split; [lia | done].
Qed.

(** X6.  Asking [getAncestors] for fewer generations gives the first
    generations of the longer answer; so once an answer has fewer
    generations than the depth asked for, every larger depth gives the same
    answer. *)
Theorem getAncestors_prefix (graph : GraphObject) (f : TFile) (d d' : Z) :
  d <= d' ->
  exists gens gens',
    getAncestors graph f (Some d) = inr gens
    /\ getAncestors graph f (Some d') = inr gens'
    /\ gens = take (Z.to_nat d) gens'
    /\ (Z.of_nat (length gens) < d -> gens' = gens).
Proof.
  intros Hle. eexists _, _.
  split; [apply getAncestors_explicit|]. split; [apply getAncestors_explicit|].
  assert (E : generations graph (Z.to_nat d) [f] {[path f]} []
              = take (Z.to_nat d) (generations graph (Z.to_nat d') [f] {[path f]} []))
    by (apply generations_take; lia).
  split; [done|]. intros Hshort. rewrite E in *.
  symmetry. apply take_ge. rewrite length_take in Hshort. lia.
Qed.

Lemma getAncestors_prefix_witness :
  exists gens gens',
    getAncestors (RelationGraph_object chain) (doc "A") (Some 2) = inr gens
    /\ getAncestors (RelationGraph_object chain) (doc "A") (Some 7) = inr gens'
    /\ gens = take (Z.to_nat 2) gens'
    /\ (Z.of_nat (length gens) < 2 -> gens' = gens).
Proof. apply (getAncestors_prefix (RelationGraph_object chain) (doc "A") 2 7). lia. Defined.

Lemma stage_parents_covers ps : forall next seen visited p,
  seen ⊆ visited -> p ∈ ps ->
  path p ∈ (stage_parents ps next seen visited).2.
Proof.
  induction ps as [|q ps IH]; intros next seen visited p Hsub Hp;
    [by apply elem_of_nil in Hp|].
  simpl. apply elem_of_cons in Hp as [->|Hp].
  - case_decide as Hv; [|case_decide as Hs; [set_solver|]].
    + destruct (stage_parents_spec ps next seen visited) as (added & -> & _).
      simpl. by apply elem_of_union_r.
    + destruct (stage_parents_spec ps (next ++ [q]) ({[path q]} ∪ seen)
                  ({[path q]} ∪ visited)) as (added & -> & _).
      simpl. set_solver.
  - case_decide as Hv; [|case_decide as Hs]; apply IH; try done. set_solver.
Qed.

Lemma stage_generation_covers graph cur : forall next seen visited c p,
  seen ⊆ visited -> c ∈ cur -> p ∈ obj_getParents graph c ->
  path p ∈ (stage_generation graph cur next seen visited).2.
Proof.
  induction cur as [|c0 cur IH]; intros next seen visited c p Hsub Hc Hp;
    [by apply elem_of_nil in Hc|].
  simpl.
  pose proof (stage_parents_covers (obj_getParents graph c0) next seen visited) as Hcov.
  destruct (stage_parents_spec (obj_getParents graph c0) next seen visited)
    as (a1 & E & _).
  rewrite E in *. simpl in Hcov.
  apply elem_of_cons in Hc as [->|Hc].
  - specialize (Hcov p Hsub Hp).
    destruct (stage_generation_spec graph cur (next ++ a1)
                (list_to_set (map path a1) ∪ seen)
                (list_to_set (map path a1) ∪ visited)) as (a2 & -> & _).
    simpl. by apply elem_of_union_r.
  - apply (IH _ _ _ c p); [set_solver | done | done].
Qed.

Section Levels.
Variable g : Graph.
Variable s : string.

Lemma generations_levels n : forall cur visited L,
  (forall x, x ∈ map path cur <-> at_distance g s L x) ->
  (forall x, x ∈ visited <-> exists m, (m <= L)%nat /\ nsteps (names_parent g) m s x) ->
  (forall i gen,
     generations (RelationGraph_object g) n cur visited [] !! i = Some gen ->
     forall x, x ∈ map path gen <-> at_distance g s (S (L + i)) x)
  /\ ((length (generations (RelationGraph_object g) n cur visited []) < n)%nat ->
      forall x,
        ~ at_distance g s
            (S (L + length (generations (RelationGraph_object g) n cur visited []))) x).
Proof.
  induction n as [|n IH]; intros cur visited L Hcur Hvis.
  { split; [done | simpl; intros H; exfalso; lia]. }
  rewrite generations_S.
  pose proof (stage_generation_covers (RelationGraph_object g) cur [] ∅ visited)
    as Hcov.
  destruct (stage_generation_spec (RelationGraph_object g) cur [] ∅ visited)
    as (added & E & _ & Hfresh & Hsub).
  rewrite E in *. simpl in Hcov. clear E.
  assert (Hadded : forall x, x ∈ map path added <-> at_distance g s (S L) x).
  { intros x. split.
    - intros Hx. pose proof (Hfresh x Hx) as Hnv.
      apply elem_of_map in Hx as (p & -> & Hp).
      destruct (Hsub p Hp) as (c & Hc & Hpc). simpl in Hpc.
      assert (Hcd : at_distance g s L (path c))
        by (apply Hcur, elem_of_map; eauto).
      split.
      + eapply nsteps_r; [apply Hcd | by apply names_parent_intro].
      + intros m Hm Hsteps. apply Hnv, Hvis. exists m. split; [lia | done].
    - intros [Hsteps Hmin].
      apply nsteps_inv_r in Hsteps as (w & Hw & Hwx).
      assert (Hwd : at_distance g s L w).
      { split; [done|]. intros m Hm Hsm. apply (Hmin (S m)); [lia|].
        by eapply nsteps_r. }
      apply Hcur, elem_of_map in Hwd as (c & -> & Hc).
      apply names_parent_inv in Hwx as (p & Hp & <-).
      assert (Hnv : path p ∉ visited).
      { intros (m & Hm & Hsm)%Hvis. apply (Hmin m); [lia | done]. }
      specialize (Hcov c p ltac:(done) Hc Hp).
      apply elem_of_union in Hcov as [Hin|Hin]; [|done].
      by apply elem_of_list_to_set in Hin. }
  destruct added as [|a added].
  { split; [done|]. simpl. intros _ x Hx. rewrite Nat.add_0_r in Hx.
    apply Hadded in Hx. by apply elem_of_nil in Hx. }
  cbn [app].
  set (R := generations (RelationGraph_object g) n (a :: added)
              (list_to_set (map path (a :: added)) ∪ visited) []).
  destruct (IH (a :: added) (list_to_set (map path (a :: added)) ∪ visited) (S L))
    as [Hgens Hstop].
  { done. }
  { intros x. split.
    - intros [Hx|Hx]%elem_of_union.
      + apply elem_of_list_to_set, Hadded in Hx as [Hx _]. exists (S L). split; [lia | done].
      + apply Hvis in Hx as (m & Hm & Hx). exists m. split; [lia | done].
    - intros (m & Hm & Hx).
      destruct (decide (x ∈ visited)) as [Hv|Hv]; [by apply elem_of_union_r|].
      apply elem_of_union_l, elem_of_list_to_set, Hadded.
      assert (m = S L) as ->.
      { destruct (decide (m <= L)%nat); [|lia]. exfalso. apply Hv, Hvis. eauto. }
      split; [done|]. intros m' Hm' Hx'. apply Hv, Hvis. exists m'. split; [lia | done]. }
  fold R in Hgens, Hstop. split.
  - intros [|i] gen; simpl.
    + intros [= <-] x. rewrite Nat.add_0_r. apply Hadded.
    + intros Hi x. rewrite (Hgens i gen Hi x).
      by replace (S (S L + i)) with (S (L + S i)) by lia.
  - change (length ((a :: added) :: R)) with (S (length R)).
    intros Hlen x Hx.
    assert (Hlen' : (length R < n)%nat) by lia.
    apply (Hstop Hlen' x).
    by replace (S (S L + length R)) with (S (L + S (length R))) by lia.
Qed.

End Levels.

(** X7.  The generations of [getAncestors] are the levels of a
    breadth-first walk along parent edges: generation [i + 1] holds exactly
    the documents that are [i + 1] parent edges away from the start and not
    fewer; and when fewer generations come back than the depth allows, there
    is no document at the next distance, so every ancestor is listed. *)
Theorem getAncestors_levels (g : Graph) (f : TFile) (d : Z) :
  exists gens,
    getAncestors (RelationGraph_object g) f (Some d) = inr gens
    /\ (forall i gen, gens !! i = Some gen ->
          forall x, x ∈ map path gen <-> at_distance g (path f) (S i) x)
    /\ (Z.of_nat (length gens) < d ->
        forall x, ~ at_distance g (path f) (S (length gens)) x).
Proof.
  eexists. split; [apply getAncestors_explicit|].
  destruct (generations_levels g (path f) (Z.to_nat d) [f] {[path f]} 0%nat)
    as [Hgens Hstop].
  - intros x. simpl. rewrite list_elem_of_singleton. split.
    + intros ->. split; [constructor | lia].
    + intros [Hx _]. by inversion Hx.
  - intros x. rewrite elem_of_singleton. split.
    + intros ->. exists 0%nat. split; [lia | constructor].
    + intros (m & Hm & Hx). assert (m = 0)%nat as -> by lia. by inversion Hx.
  - split; [done|]. intros Hlen. apply Hstop. lia.
Qed.

Lemma getAncestors_levels_witness :
  at_distance diamond (path (doc "A")) 2 (path (doc "D")).
Proof.
  destruct (getAncestors_levels diamond (doc "A") 2) as (gens & Hgens & Hlev & _).
  vm_compute in Hgens. injection Hgens as <-.
  apply (Hlev 1%nat [doc "D"] eq_refl). left.
Defined.

(* ===================================================================== *)
(** ** All paths: exact answer and order *)
(* ===================================================================== *)

(** X8.  [findAllPaths] returns exactly the simple paths of the undirected
    view: a sequence of document paths is the path of some returned record
    if and only if it is a walk from [start] to [end_] along parent or child
    links, repeats no document, and has at most [maxLength] documents.  Each
    record carries [start], [end_] and the number of hops. *)
Theorem findAllPaths_exact (g : Graph) (start end_ : TFile) (maxLength : Z) :
  exists ps,
    findAllPaths g start end_ maxLength = Ret ps
    /\ (forall l : list string,
          (exists np, np ∈ ps /\ map path (NotePath.path np) = l)
          <-> (exists w, map path w = l
                         /\ walk_between g (path start) (path end_) w
                         /\ NoDup l
                         /\ Z.of_nat (length l) <= maxLength))
    /\ (forall np, np ∈ ps ->
          NotePath.start np = start /\ NotePath.end_ np = end_
          /\ head (NotePath.path np) = Some start
          /\ NotePath.length np = Z.of_nat (length (NotePath.path np)) - 1).
Proof.
  destruct (findAllPaths_total g start end_ maxLength) as [ps Hps].
  exists ps. split; [done|]. split.
  - intros l. split.
    + intros (np & Hnp & <-).
      destruct (findAllPaths_sound _ _ _ _ _ _ Hps Hnp)
        as (_ & _ & Hw & Hnd & Hhd & Hlast & Hlen & _).
      exists (NotePath.path np). split_and!; try done.
      * split_and!; [done | by rewrite Hhd | done].
      * by rewrite length_map.
    + intros (w & <- & Hw & Hnd & Hlen). rewrite length_map in Hlen.
      destruct (findAllPaths_complete _ _ _ _ _ Hw Hnd Hlen)
        as (ps' & np & Hps' & Hnp & Heq).
      rewrite Hps in Hps'. injection Hps' as <-. by exists np.
  - intros np Hnp.
    destruct (findAllPaths_sound _ _ _ _ _ _ Hps Hnp)
      as (? & ? & _ & _ & ? & _ & _ & ?).
    done.
Qed.

Lemma insert_by_length_sorted p l :
  StronglySorted (fun a b => NotePath.length a <= NotePath.length b) l ->
  StronglySorted (fun a b => NotePath.length a <= NotePath.length b)
    (insert_by_length p l).
Proof.
  induction 1 as [|q l Hl IH Hq]; simpl.
  - repeat constructor.
  - destruct (Z.leb_spec (NotePath.length p) (NotePath.length q)).
    + constructor; [by constructor|]. constructor; [done|].
      eapply Forall_impl; [exact Hq|]. simpl. intros; lia.
    + constructor; [done|]. apply Forall_forall. intros x Hx.
      apply insert_by_length_elem in Hx as [->|Hx]; [lia|].
      by apply (proj1 (Forall_forall _ _) Hq).
Qed.

Lemma insert_by_length_Permutation p l : insert_by_length p l ≡ₚ p :: l.
Proof.
  induction l as [|q l IH]; simpl; [done|].
  destruct (NotePath.length p <=? NotePath.length q); [done|].
  rewrite IH. apply Permutation_swap.
Qed.

Lemma sort_by_length_Permutation l : sort_by_length l ≡ₚ l.
Proof.
  induction l as [|p l IH]; simpl; [done|].
  rewrite insert_by_length_Permutation. by rewrite IH.
Qed.

Lemma sort_by_length_sorted l :
  StronglySorted (fun a b => NotePath.length a <= NotePath.length b)
    (sort_by_length l).
Proof.
  induction l as [|p l IH]; simpl; [constructor|].
  by apply insert_by_length_sorted.
Qed.

(** X9.  The records [findAllPaths] returns are ordered by their number of
    hops, shortest first: every record is at most as long as each record
    after it; and sorting only reorders what the search collected. *)
Theorem findAllPaths_sorted (g : Graph) (start end_ : TFile) (maxLength : Z) :
  exists found ps,
    paths_dfs (paths_fuel maxLength) g start end_ maxLength start end_
      [start] ∅ = Ret found
    /\ findAllPaths g start end_ maxLength = Ret ps
    /\ ps ≡ₚ found
    /\ StronglySorted (fun a b => NotePath.length a <= NotePath.length b) ps.
Proof.
  destruct (findAllPaths_total g start end_ maxLength) as [ps Hps].
  unfold findAllPaths in *.
  destruct (paths_dfs _ _ _ _ _ _ _ _ _) as [found|]; [|done].
  injection Hps as <-. exists found, (sort_by_length found).
  split_and!; try done.
  - apply sort_by_length_Permutation.
  - apply sort_by_length_sorted.
Qed.

(* ===================================================================== *)
(** ** Direction of a path *)
(* ===================================================================== *)

Lemma existsb_path (l : list TFile) (next : TFile) :
  existsb (fun p => bool_decide (path p = path next)) l = true
  <-> path next ∈ map path l.
Proof.
  rewrite existsb_exists. split.
  - intros (x & Hx & Heq). apply bool_decide_eq_true in Heq.
    rewrite <- Heq. apply elem_of_map. exists x. split; [done|].
    by apply list_elem_of_In.
  - intros (x & Heq & Hx)%elem_of_map. exists x. split.
    + by apply list_elem_of_In.
    + by apply bool_decide_eq_true.
Qed.

Lemma direction_flags_spec g pth : forall hasUp hasDown,
  (fst (direction_flags g pth hasUp hasDown) = true
   <-> hasUp = true \/ Exists (up_hop g) (hops pth))
  /\ (snd (direction_flags g pth hasUp hasDown) = true
      <-> hasDown = true \/ Exists (down_hop g) (hops pth)).
Proof.
  induction pth as [|a [|b rest] IH]; intros hasUp hasDown.
  - simpl. rewrite !Exists_nil. tauto.
  - simpl. rewrite !Exists_nil. tauto.
  - change (direction_flags g (a :: b :: rest) hasUp hasDown)
      with (direction_flags g (b :: rest)
              (if existsb (fun p => bool_decide (path p = path b))
                    (getParents g a) then true else hasUp)
              (if existsb (fun c => bool_decide (path c = path b))
                    (getChildren g a) then true else hasDown)).
    change (hops (a :: b :: rest)) with ((a, b) :: hops (b :: rest)).
    rewrite !Exists_cons.
    destruct (IH (if existsb (fun p => bool_decide (path p = path b))
                       (getParents g a) then true else hasUp)
                 (if existsb (fun c => bool_decide (path c = path b))
                       (getChildren g a) then true else hasDown))
      as [-> ->].
    unfold up_hop, down_hop. simpl fst. simpl snd.
    rewrite <- !existsb_path.
    destruct (existsb _ (getParents g a)), (existsb _ (getChildren g a));
      intuition congruence.
Qed.

(** X10.  [determineDirection] answers up exactly when some hop of the path
    leads to a parent and no hop leads to a child, down exactly when some hop
    leads to a child and none to a parent, and mixed in every other case:
    when hops of both kinds occur, and when no hop is a link at all, as for
    a path of fewer than two documents. *)
Theorem determineDirection_spec (g : Graph) (pth : list TFile) :
  (determineDirection pth g = Up
   <-> Exists (up_hop g) (hops pth) /\ ~ Exists (down_hop g) (hops pth))
  /\ (determineDirection pth g = Down
      <-> Exists (down_hop g) (hops pth) /\ ~ Exists (up_hop g) (hops pth))
  /\ (determineDirection pth g = Mixed
      <-> (Exists (up_hop g) (hops pth) <-> Exists (down_hop g) (hops pth))).
Proof.
  unfold determineDirection.
  destruct (Z.ltb_spec (Z.of_nat (length pth)) 2) as [Hlen|Hlen].
  - assert (hops pth = []) as ->.
    { destruct pth as [|a [|b rest]]; simpl in *; try done. lia. }
    rewrite !Exists_nil. split_and!; split; try done; tauto.
  - destruct (direction_flags_spec g pth false false) as [Hup Hdown].
    destruct (direction_flags g pth false false) as [hasUp hasDown].
    simpl in Hup, Hdown.
    assert (Hu : hasUp = true <-> Exists (up_hop g) (hops pth))
      by (rewrite Hup; intuition congruence).
    assert (Hd : hasDown = true <-> Exists (down_hop g) (hops pth))
      by (rewrite Hdown; intuition congruence).
    rewrite <- Hu, <- Hd.
    destruct hasUp, hasDown; simpl; split_and!; split;
      try done; try intuition congruence.
Qed.

(* ===================================================================== *)
(** ** Shortest path: shape of the answer *)
(* ===================================================================== *)

Lemma map_path_snoc (pth : list TFile) (y : TFile) :
  map path (pth ++ [y]) = map path pth ++ [path y].
Proof. by rewrite map_app. Qed.

Lemma scan_neighbours_ok end_ pth ns visited queue visited' queue' :
  queue_ok end_ visited queue ->
  NoDup (map path pth) ->
  (forall x, x ∈ map path pth -> x ∈ visited) ->
  scan_neighbours end_ pth ns visited queue = inr (visited', queue') ->
  queue_ok end_ visited' queue'
  /\ (forall x, x ∈ visited -> x ∈ visited')
  /\ (forall y, y ∈ ns -> path y <> path end_).
Proof.
  intros [Hend Hq] Hnd Hin Hscan.
  pose proof (scan_neighbours_spec end_ pth ns visited queue) as Hspec.
  rewrite Hscan in Hspec.
  destruct Hspec as (new & -> & -> & Hsub & Hfresh & Hndnew & Hall).
  assert (Hnew_end : forall p, p ∈ map path new -> p <> path end_).
  { intros p (y & -> & Hy)%elem_of_map. by apply Hall, Hsub. }
  split_and!.
  - split.
    + rewrite elem_of_union, elem_of_list_to_set.
      intros [H|H]; [by apply (Hnew_end _ H)|done].
    + apply Forall_app. split.
      * eapply Forall_impl; [exact Hq|]. intros e (? & ? & He).
        split_and!; try done. intros x Hx. apply elem_of_union. right. auto.
      * apply Forall_forall. intros e (y & -> & Hy)%elem_of_map. simpl.
        split_and!.
        -- by rewrite last_snoc.
        -- rewrite map_path_snoc. apply NoDup_app. split_and!; [done| |].
           ++ intros x Hx ->%list_elem_of_singleton.
              apply (Hfresh (path y)); [|by apply Hin].
              apply elem_of_map. by exists y.
           ++ apply NoDup_singleton.
        -- intros x. rewrite map_path_snoc, elem_of_app, list_elem_of_singleton.
           rewrite elem_of_union, elem_of_list_to_set.
           intros [Hx| ->]; [right; by apply Hin|].
           left. apply elem_of_map. by exists y.
  - intros x Hx. apply elem_of_union. by right.
  - intros y Hy. by apply Hall.
Qed.

Lemma scan_neighbours_found end_ pth node ns visited queue full :
  path end_ ∉ visited ->
  last pth = Some node ->
  NoDup (map path pth) ->
  (forall x, x ∈ map path pth -> x ∈ visited) ->
  scan_neighbours end_ pth ns visited queue = inl full ->
  exists pre lst,
    full = pre ++ [node; lst] /\ lst ∈ ns /\ path lst = path end_
    /\ NoDup (map path full).
Proof.
  intros Hend Hlast Hnd Hin Hscan.
  pose proof (scan_neighbours_spec end_ pth ns visited queue) as Hspec.
  rewrite Hscan in Hspec. destruct Hspec as (y & Hy & Hpath & ->).
  destruct (last_Some pth node) as [[pre ->] _]; [done|].
  exists pre, y. split_and!; try done.
  - by rewrite <- app_assoc.
  - rewrite map_path_snoc. apply NoDup_app. split_and!; [done| |].
    + intros x Hx ->%list_elem_of_singleton. rewrite Hpath in Hx.
      by apply Hend, Hin.
    + apply NoDup_singleton.
Qed.

Lemma bfs_last_hop g start end_ fuel : forall queue visited np,
  queue_ok end_ visited queue ->
  bfs fuel g start end_ queue visited = Ret (Some np) ->
  last_hop_record g end_ np.
Proof.
  induction fuel as [|fuel IH]; intros queue visited np Hok Hrun; [done|].
  destruct queue as [|[node pth] queue]; [done|].
  destruct Hok as [Hend Hq].
  apply Forall_cons in Hq as [(Hlast & Hnd & Hin) Hq]. simpl in Hlast, Hnd, Hin.
  simpl in Hrun.
  destruct (scan_neighbours end_ pth (getParents g node) visited queue)
    as [full|[visited1 queue1]] eqn:Hups.
  - injection Hrun as <-.
    destruct (scan_neighbours_found _ _ _ _ _ _ _ Hend Hlast Hnd Hin Hups)
      as (pre & lst & -> & Hlst & Hpath & Hndf).
    by exists pre, node, lst.
  - destruct (scan_neighbours_ok _ _ _ _ _ _ _ (conj Hend Hq) Hnd Hin Hups)
      as ([Hend1 Hq1] & Hmono1 & Hnone).
    destruct (scan_neighbours end_ pth (getChildren g node) visited1 queue1)
      as [full|[visited2 queue2]] eqn:Hdowns.
    + injection Hrun as <-.
      destruct (scan_neighbours_found _ _ _ _ _ _ _ Hend1 Hlast Hnd
                  (fun x Hx => Hmono1 x (Hin x Hx)) Hdowns)
        as (pre & lst & -> & Hlst & Hpath & Hndf).
      exists pre, node, lst. split_and!; try done.
      simpl. split; [done|]. intros Hmem. apply elem_of_map in Hmem as (y & Hy & Hyin).
      by apply (Hnone y).
    + destruct (scan_neighbours_ok _ _ _ _ _ _ _ (conj Hend1 Hq1) Hnd
                  (fun x Hx => Hmono1 x (Hin x Hx)) Hdowns)
        as (Hok2 & _ & _).
      by apply (IH queue2 visited2).
Qed.

Lemma findShortestPath_last_hop g start end_ np :
  path start <> path end_ ->
  findShortestPath g start end_ = Ret (Some np) ->
  last_hop_record g end_ np.
Proof.
  intros Hne. unfold findShortestPath. rewrite decide_False by done.
  apply bfs_last_hop. split.
  - rewrite elem_of_singleton. congruence.
  - constructor; [|constructor]. simpl. split_and!; [done| |].
    + apply NoDup_singleton.
    + intros x ->%list_elem_of_singleton. by apply elem_of_singleton.
Qed.

(** X11.  The direction of a shortest path tells only how its last hop was
    found.  Between distinct documents the path ends with a hop onto the
    target, and the direction is up when the target is among the parents of
    the document before it, down when it is among its children and not among
    its parents, and never mixed; the hops before the last one do not count.
    Mixed is answered only for a path from a document to itself. *)
Theorem findShortestPath_direction (g : Graph) (start end_ : TFile)
    (np : NotePath.t) :
  findShortestPath g start end_ = Ret (Some np) ->
  (path start = path end_
   /\ NotePath.path np = [start] /\ NotePath.direction np = Mixed)
  \/ (path start <> path end_
      /\ exists pre prev lst,
           NotePath.path np = pre ++ [prev; lst]
           /\ path lst = path end_
           /\ match NotePath.direction np with
              | Up => lst ∈ getParents g prev
              | Down => lst ∈ getChildren g prev
                        /\ path end_ ∉ map path (getParents g prev)
              | Mixed => False
              end).
Proof.
  intros Hrun. destruct (decide (path start = path end_)) as [Heq|Hne].
  - left. unfold findShortestPath in Hrun. rewrite decide_True in Hrun by done.
    by injection Hrun as <-.
  - right. split; [done|].
    destruct (findShortestPath_last_hop _ _ _ _ Hne Hrun)
      as (pre & prev & lst & ? & ? & _ & ?).
    by exists pre, prev, lst.
Qed.

Lemma findShortestPath_direction_witness :
  exists np, findShortestPath detour (doc "B") (doc "A") = Ret (Some np)
             /\ NotePath.direction np = Up.
Proof.
  eexists. split; [by vm_compute|].
  destruct (findShortestPath_direction detour (doc "B") (doc "A") _ eq_refl)
    as [(_ & _ & H)|_]; [discriminate H | reflexivity].
Defined.

(** X12.  A path found by [findShortestPath] repeats no document. *)
Theorem findShortestPath_simple (g : Graph) (start end_ : TFile)
    (np : NotePath.t) :
  findShortestPath g start end_ = Ret (Some np) ->
  NoDup (map path (NotePath.path np)).
Proof.
  intros Hrun. destruct (decide (path start = path end_)) as [Heq|Hne].
  - unfold findShortestPath in Hrun. rewrite decide_True in Hrun by done.
    injection Hrun as <-. apply NoDup_singleton.
  - by destruct (findShortestPath_last_hop _ _ _ _ Hne Hrun)
      as (_ & _ & _ & _ & _ & ? & _).
Qed.

Lemma findShortestPath_simple_witness :
  NoDup [path (doc "A"); path (doc "B"); path (doc "D")].
Proof.
  exact (findShortestPath_simple diamond (doc "A") (doc "D") _ eq_refl).
Defined.

(* ===================================================================== *)
(** ** Shortest path and all paths together *)
(* ===================================================================== *)

Lemma findShortestPath_post g start end_ :
  exists r, findShortestPath g start end_ = Ret r /\ bfs_post g start end_ r.
Proof.
  destruct (decide (path start = path end_)) as [Heq|Hne].
  - unfold findShortestPath. rewrite decide_True by done.
    eexists. split; [done|]. simpl. split_and!; try done.
    + split_and!; simpl; [done | done | by rewrite Heq].
    + intros m _. lia.
  - by apply findShortestPath_spec.
Qed.

Lemma findShortestPath_nodup g start end_ np :
  findShortestPath g start end_ = Ret (Some np) ->
  NoDup (map path (NotePath.path np)).
Proof.
  intros Hrun. destruct (decide (path start = path end_)) as [Heq|Hne].
  - unfold findShortestPath in Hrun. rewrite decide_True in Hrun by done.
    injection Hrun as <-. apply NoDup_singleton.
  - by destruct (findShortestPath_last_hop _ _ _ _ Hne Hrun)
      as (_ & _ & _ & _ & _ & ? & _).
Qed.

Lemma record_walk g start end_ maxLength np :
  simple_path_record g start end_ maxLength (Some start) end_ np ->
  nsteps (linked g) (length (NotePath.path np) - 1) (path start) (path end_)
  /\ (1 <= length (NotePath.path np))%nat
  /\ Z.of_nat (length (NotePath.path np)) <= maxLength
  /\ NotePath.length np = Z.of_nat (length (NotePath.path np)) - 1.
Proof.
  intros (_ & _ & Hw & _ & Hhd & Hlast & Hlen & Hl).
  destruct (walk_between_nsteps g (path start) (path end_) (NotePath.path np))
    as [Hsteps Hne].
  { split_and!; [done | by rewrite Hhd | done]. }
  done.
Qed.

(** X13.  [findAllPaths] and [findShortestPath] agree.  When there is no
    shortest path, or the shortest path has more than [maxLength] documents,
    [findAllPaths] returns nothing; otherwise the shortest path is among the
    returned paths and the first returned record has as many hops as it. *)
Theorem findAllPaths_starts_with_shortest (g : Graph) (start end_ : TFile)
    (maxLength : Z) :
  exists r ps,
    findShortestPath g start end_ = Ret r
    /\ findAllPaths g start end_ maxLength = Ret ps
    /\ match r with
       | None => ps = []
       | Some np =>
           if decide (Z.of_nat (length (NotePath.path np)) <= maxLength)
           then (exists np', np' ∈ ps
                   /\ map path (NotePath.path np') = map path (NotePath.path np))
                /\ (exists first rest, ps = first :: rest
                      /\ NotePath.length first = NotePath.length np)
           else ps = []
       end.
Proof.
  destruct (findShortestPath_post g start end_) as (r & Hr & Hpost).
  destruct (findAllPaths_total g start end_ maxLength) as [ps Hps].
  exists r, ps. split_and!; try done.
  assert (Hsound : forall np', np' ∈ ps ->
            nsteps (linked g) (length (NotePath.path np') - 1)
              (path start) (path end_)
            /\ (1 <= length (NotePath.path np'))%nat
            /\ Z.of_nat (length (NotePath.path np')) <= maxLength
            /\ NotePath.length np' = Z.of_nat (length (NotePath.path np')) - 1).
  { intros np' Hnp'. eapply record_walk. by eapply findAllPaths_sound. }
  destruct r as [np|]; simpl in Hpost.
  - destruct Hpost as (_ & _ & Hw & _ & Hlen & Hmin).
    case_decide as Hfit.
    + destruct (findAllPaths_complete g start end_ maxLength (NotePath.path np))
        as (ps' & np' & Hps' & Hnp' & Heq);
        [done | by eapply findShortestPath_nodup | done |].
      rewrite Hps in Hps'. injection Hps' as <-.
      split; [by exists np'|].
      destruct ps as [|first rest]; [by apply elem_of_nil in Hnp'|].
      exists first, rest. split; [done|].
      destruct (Hsound first) as (Hsteps & Hne & _ & Hfl); [left|].
      pose proof (Hmin _ Hsteps) as Hge.
      assert (Hfirst : NotePath.length first <= NotePath.length np').
      { pose proof (sort_by_length_sorted) as Hsorted.
        unfold findAllPaths in Hps.
        destruct (paths_dfs _ _ _ _ _ _ _ _ _) as [found|]; [|done].
        injection Hps as Hps. specialize (Hsorted found). rewrite Hps in Hsorted.
        apply StronglySorted_inv in Hsorted as [_ Hall].
        apply elem_of_cons in Hnp' as [<-|Hin]; [lia|].
        by apply (proj1 (Forall_forall _ _) Hall). }
      destruct (Hsound np' Hnp') as (_ & _ & _ & Hl').
      assert (Hsame : length (NotePath.path np') = length (NotePath.path np)).
      { by rewrite <- (length_map path (NotePath.path np')), Heq, length_map. }
      lia.
    + destruct ps as [|np' rest]; [done|].
      destruct (Hsound np') as (Hsteps & Hne & Hfit' & _); [left|].
      pose proof (Hmin _ Hsteps). lia.
  - destruct ps as [|np' rest]; [done|].
    destruct (Hsound np') as (Hsteps & _); [left|].
    by destruct (Hpost _ Hsteps).
Qed.

(* ===================================================================== *)
(** ** Shortest path: both ways *)
(* ===================================================================== *)

Lemma nsteps_sym {A} (R : relation A) n x y :
  (forall a b, R a b -> R b a) -> nsteps R n x y -> nsteps R n y x.
Proof.
  intros Hsym. induction 1 as [|n x y z Hxy _ IH]; [constructor|].
  eapply nsteps_r; [exact IH | by apply Hsym].
Qed.

Lemma names_parent_inside app x y :
  NoDup (map path (getMarkdownFiles app)) ->
  links_inside app ->
  names_parent (build app) x y ->
  x ∈ graph_keys (build app) /\ y ∈ graph_keys (build app).
Proof.
  intros Hnd Hins (f & <- & Hy).
  assert (Hkeys : graph_keys (build app) = map path (getMarkdownFiles app)).
  { rewrite graph_keys_skeleton, build_skeleton, build_nodes_distinct by done.
    unfold skeleton. by rewrite !map_map. }
  split.
  - destruct (decide (path f ∈ graph_keys (build app))) as [|Hout]; [done|].
    unfold getParents in Hy. rewrite (graph_get_None _ _ Hout) in Hy.
    by apply elem_of_nil in Hy.
  - unfold getParents in Hy.
    rewrite build_get, build_nodes_distinct in Hy by done.
    destruct (graph_get _ (path f)) as [n|] eqn:Hget; simpl in Hy;
      [|by apply elem_of_nil in Hy].
    apply graph_get_Some_value in Hget. unfold graph_values in Hget.
    rewrite map_map in Hget. simpl in Hget.
    apply elem_of_map in Hget as (f0 & -> & Hf0). simpl in Hy.
    unfold links_inside in Hins.
    rewrite Forall_forall in Hins. specialize (Hins f0 Hf0).
    rewrite Forall_forall in Hins.
    apply elem_of_map in Hy as (p & -> & Hp).
    rewrite Hkeys. by apply Hins.
Qed.

Lemma linked_symmetric app x y :
  NoDup (map path (getMarkdownFiles app)) ->
  links_inside app ->
  linked (build app) x y -> linked (build app) y x.
Proof.
  intros Hnd Hins. rewrite !linked_build. intros [Hxy|[Hx Hyx]].
  - right. split; [|done]. by eapply names_parent_inside.
  - by left.
Qed.

(** X14.  On a vault whose files have pairwise different paths and whose
    parent links all resolve to files of the vault, the search is symmetric:
    there is a path from [a] to [b] exactly when there is one from [b] to
    [a], and the two shortest paths have the same number of hops. *)
Theorem findShortestPath_symmetric (app : App) (a b : TFile) :
  NoDup (map path (getMarkdownFiles app)) ->
  links_inside app ->
  exists r r',
    findShortestPath (build app) a b = Ret r
    /\ findShortestPath (build app) b a = Ret r'
    /\ NotePath.length <$> r = NotePath.length <$> r'.
Proof.
  intros Hnd Hins.
  destruct (findShortestPath_post (build app) a b) as (r & Hr & Hpost).
  destruct (findShortestPath_post (build app) b a) as (r' & Hr' & Hpost').
  exists r, r'. split_and!; try done.
  assert (Hsym : forall m u v, nsteps (linked (build app)) m u v ->
                               nsteps (linked (build app)) m v u).
  { intros m u v. apply nsteps_sym. intros ? ?. by apply linked_symmetric. }
  destruct r as [np|], r' as [np'|]; simpl in *.
  - destruct Hpost as (_ & _ & Hw & _ & Hlen & Hmin).
    destruct Hpost' as (_ & _ & Hw' & _ & Hlen' & Hmin').
    apply walk_between_nsteps in Hw as [Hsteps Hne].
    apply walk_between_nsteps in Hw' as [Hsteps' Hne'].
    pose proof (Hmin _ (Hsym _ _ _ Hsteps')).
    pose proof (Hmin' _ (Hsym _ _ _ Hsteps)).
    f_equal. lia.
  - destruct Hpost as (_ & _ & Hw & _).
    apply walk_between_nsteps in Hw as [Hsteps _].
    by destruct (Hpost' _ (Hsym _ _ _ Hsteps)).
  - destruct Hpost' as (_ & _ & Hw & _).
    apply walk_between_nsteps in Hw as [Hsteps _].
    by destruct (Hpost _ (Hsym _ _ _ Hsteps)).
  - done.
Qed.

Lemma findShortestPath_symmetric_witness :
  exists r r',
    findShortestPath diamond (doc "B") (doc "C") = Ret r
    /\ findShortestPath diamond (doc "C") (doc "B") = Ret r'
    /\ NotePath.length <$> r = NotePath.length <$> r'.
Proof.
  apply (findShortestPath_symmetric
           (vault [("A", ["B"; "C"]); ("B", ["D"]); ("C", ["D"]); ("D", [])])).
  - apply (bool_decide_unpack _). by vm_compute.
  - apply (bool_decide_unpack _). by vm_compute.
Defined.

(* ===================================================================== *)
(** ** Shortest path and the undirected view of a built graph *)
(* ===================================================================== *)

Lemma nsteps_implies {A : Type} (R R' : relation A) n x y :
  (forall a b, R a b -> R' a b) -> nsteps R n x y -> nsteps R' n x y.
Proof.
  intros Himp. induction 1 as [|n x y z Hxy _ IH]; [constructor|].
  eapply nsteps_l; [by apply Himp | exact IH].
Qed.

Lemma stepwise_implies {A : Type} (R R' : relation A) l :
  (forall a b, R a b -> R' a b) -> stepwise R l -> stepwise R' l.
Proof.
  intros Himp. induction l as [|a [|b l] IH]; try done.
  intros [Hab Hrest]. split; [by apply Himp | by apply IH].
Qed.

Lemma stepwise_nsteps {A : Type} (R : relation A) l : forall a b,
  stepwise R l -> head l = Some a -> last l = Some b ->
  nsteps R (length l - 1) a b.
Proof.
  induction l as [|x [|y l] IH]; intros a b Hsteps Hhead Hlast; [done| |].
  - simpl in *. injection Hhead as <-. injection Hlast as <-. constructor.
  - destruct Hsteps as [Hxy Hrest]. injection Hhead as <-.
    replace (length (x :: y :: l) - 1)%nat with (S (length (y :: l) - 1))
      by (simpl; lia).
    eapply nsteps_l; [exact Hxy|]. by apply IH.
Qed.

Lemma head_map_path (pth : list TFile) : head (map path pth) = path <$> head pth.
Proof. by destruct pth. Qed.

Lemma last_map_path (pth : list TFile) : last (map path pth) = path <$> last pth.
Proof.
  induction pth as [|a [|b pth] IH]; done.
Qed.

Lemma walk_stepwise g pth : is_walk g pth -> stepwise (linked g) (map path pth).
Proof.
  induction pth as [|a [|b pth] IH]; try done.
  intros [Hab Hrest]. split; [done | by apply IH].
Qed.

Lemma undirected_step_linked app x y :
  undirected_step (build app) x y <-> linked (build app) x y.
Proof. symmetry. apply linked_build. Qed.

Lemma walk_undirected_path app s e pth :
  walk_between (build app) s e pth ->
  undirected_path (build app) s e (map path pth).
Proof.
  intros (Hwalk & Hhead & Hlast). split_and!.
  - eapply stepwise_implies; [|by apply walk_stepwise].
    intros a b. apply undirected_step_linked.
  - by rewrite head_map_path.
  - by rewrite last_map_path.
Qed.

Lemma undirected_path_nsteps app s e l :
  undirected_path (build app) s e l ->
  nsteps (linked (build app)) (length l - 1) s e /\ (1 <= length l)%nat.
Proof.
  intros (Hsteps & Hhead & Hlast). split.
  - eapply nsteps_implies; [|by apply stepwise_nsteps].
    intros a b. apply undirected_step_linked.
  - destruct l; [done | simpl; lia].
Qed.

(** C9, as the code has it.  On a graph made by [build], for two different
    documents, [findShortestPath] always returns.  It returns [null] exactly
    when the undirected view has no path from [start] to [end]; otherwise it
    returns such a path, with [length] its number of edges, and no path of
    the undirected view between the two has fewer documents.  The undirected
    view is made of the parent edges, each taken from the child to the
    parent, and from the parent back to the child when the parent is itself
    a document of the graph: a parent that is no document of the graph has
    no children list and joins nothing.  When the files of the vault have
    different paths and every parent is a file of the vault, that is every
    parent edge taken in either direction.  On the chain where [A]'s parent
    is [B], [B]'s is [C] and [C]'s is [D], the path from [A] to [D] is
    [[A, B, C, D]], of length 3. *)
Theorem findShortestPath_shortest :
  (forall (app : App) (start end_ : TFile),
     path start <> path end_ ->
     exists r,
       findShortestPath (build app) start end_ = Ret r
       /\ (r = None
           <-> forall l, ~ undirected_path (build app) (path start) (path end_) l)
       /\ forall np, r = Some np ->
            undirected_path (build app) (path start) (path end_)
              (map path (NotePath.path np))
            /\ NotePath.length np = Z.of_nat (length (NotePath.path np)) - 1
            /\ forall l,
                 undirected_path (build app) (path start) (path end_) l ->
                 (length (NotePath.path np) <= length l)%nat)
  /\ (forall (app : App),
        NoDup (map path (getMarkdownFiles app)) ->
        links_inside app ->
        forall x y,
          undirected_step (build app) x y <-> sc (names_parent (build app)) x y)
  /\ findShortestPath chain (doc "A") (doc "D")
     = Ret (Some (NotePath.mk (doc "A") (doc "D")
                    [doc "A"; doc "B"; doc "C"; doc "D"] 3 Up)).
Proof.
  split_and!; [| |by vm_compute].
  - intros app start end_ Hne.
    destruct (findShortestPath_spec (build app) start end_ Hne)
      as (r & Hr & Hpost).
    exists r. split; [done|]. destruct r as [np|]; simpl in Hpost.
    + destruct Hpost as (_ & _ & Hwalk & _ & Hlen & Hmin).
      apply walk_undirected_path in Hwalk. split.
      * split; [done|]. intros Hnone. by destruct (Hnone _ Hwalk).
      * intros ? [= <-]. split_and!; [done | done |].
        intros l [Hn Hpos]%undirected_path_nsteps. apply Hmin in Hn. lia.
    + split; [|done]. split; [|done].
      intros _ l [Hn _]%undirected_path_nsteps. by apply Hpost in Hn.
  - intros app Hnd Hins x y. unfold undirected_step, sc. split.
    + intros [Hxy|[_ Hyx]]; [by left | by right].
    + intros [Hxy|Hyx]; [by left|]. right. split; [|done].
      by destruct (names_parent_inside app y x Hnd Hins Hyx).
Qed.

Lemma findShortestPath_shortest_witness :
  exists r,
    findShortestPath diamond (doc "A") (doc "D") = Ret r
    /\ (r = None
        <-> forall l, ~ undirected_path diamond (path (doc "A")) (path (doc "D")) l)
    /\ forall np, r = Some np ->
         undirected_path diamond (path (doc "A")) (path (doc "D"))
           (map path (NotePath.path np))
         /\ NotePath.length np = Z.of_nat (length (NotePath.path np)) - 1
         /\ forall l,
              undirected_path diamond (path (doc "A")) (path (doc "D")) l ->
              (length (NotePath.path np) <= length l)%nat.
Proof.
  apply (proj1 findShortestPath_shortest
           (vault [("A", ["B"; "C"]); ("B", ["D"]); ("C", ["D"]); ("D", [])])
           (doc "A") (doc "D")).
  by vm_compute.
Defined.

(** C9, as stated: the notes [A] and [B] both name a parent that resolves to
    the file [X.png], which is no note of the graph.  The two parent edges,
    taken in either direction, join [A] and [B] in two steps, yet
    [findShortestPath(A, B)] is [null]. *)
Lemma shortest_path_misses_outside_parent :
  ~ (forall (app : App) (start end_ : TFile),
       path start <> path end_ ->
       (findShortestPath (build app) start end_ = Ret None
        <-> forall m, ~ nsteps (sc (names_parent (build app))) m
                          (path start) (path end_))).
Proof.
  intros H.
  destruct (H outside_parent (doc "A") (doc "B")) as [Hnone _]; [by vm_compute|].
  apply (Hnone ltac:(by vm_compute) 2%nat).
  apply (nsteps_l _ _ _ "X.png").
  - left. exists (doc "A"). split; [done|]. vm_compute. left.
  - apply nsteps_once. right. exists (doc "B"). split; [done|]. vm_compute. left.
Qed.

(* ===================================================================== *)
(** ** Adding and removing frontmatter values *)
(* ===================================================================== *)

Lemma includes_app l1 l2 v : includes (l1 ++ l2) v = includes l1 v || includes l2 v.
Proof. apply existsb_app. Qed.

Lemma strict_eq_refl v : strict_eq v (JStr v) = true.
Proof. simpl. by apply bool_decide_eq_true. Qed.

Lemma filter_absent v l :
  includes l v = false -> List.filter (fun x => negb (strict_eq v x)) l = l.
Proof.
  induction l as [|x l IH]; simpl; [done|].
  intros [Hx Hl]%orb_false_iff. rewrite Hx. simpl. by rewrite IH.
Qed.

Lemma occurrences_absent v l : includes l v = false -> occurrences v l = 0%nat.
Proof.
  unfold occurrences. induction l as [|x l IH]; simpl; [done|].
  intros [Hx Hl]%orb_false_iff. rewrite Hx. by apply IH.
Qed.

Lemma edit_success op callback fm file f v r fm' :
  edit op callback fm file f v = (r, fm') ->
  FrontmatterEditResult.success r = true ->
  callback fm = inr fm'.
Proof.
  unfold edit. destruct (callback fm); intros [= <- <-]; [done|].
  by intros _.
Qed.

Lemma addToField_callback_inr f v o fm fm' :
  addToField_callback f v o fm = inr fm' ->
  includes (field_array fm f) v = false
  /\ fm' = <[f := JArr (field_array fm f ++ [JStr v])]> fm.
Proof.
  unfold addToField_callback, field_array.
  destruct (fm !! f) as [[]|]; simpl;
    repeat (match goal with
            | |- context [if ?b then _ else _] => destruct b eqn:?
            end; simpl; try done);
    by intros [= <-].
Qed.

(** X15.  When [addToField] succeeds, the field is an array that holds the
    values it held before, in their order, followed by the new value; the
    new value occurs in it exactly once, [hasFieldValue] finds it, and no
    other field of the frontmatter changes. *)
Theorem addToField_appends (fm : Frontmatter) (file : TFile) (f v : string)
    (o : FrontmatterEditOptions) (r : FrontmatterEditResult.t)
    (fm' : Frontmatter) :
  addToField fm file f v o = (r, fm') ->
  FrontmatterEditResult.success r = true ->
  getFieldValues (Some fm') f = field_array fm f ++ [JStr v]
  /\ occurrences v (getFieldValues (Some fm') f) = 1%nat
  /\ hasFieldValue (Some fm') f v = true
  /\ forall k, k <> f -> fm' !! k = fm !! k.
Proof.
  intros Hrun Hok. apply edit_success in Hrun; [|done].
  apply addToField_callback_inr in Hrun as [Hnew ->].
  unfold getFieldValues, hasFieldValue. rewrite lookup_insert_eq. simpl.
  split_and!.
  - done.
  - unfold occurrences. rewrite List.filter_app, length_app.
    fold (occurrences v (field_array fm f)).
    rewrite occurrences_absent by done. simpl.
    by rewrite bool_decide_eq_true_2.
  - rewrite includes_app. simpl. rewrite bool_decide_eq_true_2 by done.
    by rewrite orb_true_r.
  - intros k Hk. by rewrite lookup_insert_ne.
Qed.

Lemma addToField_appends_witness :
  getFieldValues
    (Some (snd (addToField note_frontmatter (doc "N") "parent" "[[C]]"
                  no_options)))
    "parent"
  = [JStr "[[A]]"; JStr "[[B]]"; JStr "[[C]]"].
Proof.
  exact (proj1 (addToField_appends note_frontmatter (doc "N") "parent" "[[C]]"
                  no_options _ _ eq_refl eq_refl)).
Defined.

(** X16.  [addToField] never stores a value twice: when the field already
    holds the value, the call fails whatever the options are, with the
    message of the validator when that rejects the value and the message
    that the value already exists otherwise, and the frontmatter stays as it
    was. *)
Theorem addToField_duplicate (fm : Frontmatter) (file : TFile) (f v : string)
    (o : FrontmatterEditOptions) :
  includes (field_array fm f) v = true ->
  addToField fm file f v o
  = (FrontmatterEditResult.mk false
       (Some (if match validator o with
                 | Some accepts => negb (accepts v)
                 | None => false
                 end
              then String.append "Invalid value: " v
              else String.append "Value already exists: " v))
       file f v OpAdd,
     fm).
Proof.
  intros Hin. unfold addToField, edit, addToField_callback.
  unfold field_array in Hin.
  destruct (fm !! f) as [x|]; [|done].
  destruct x; try done; cbv beta iota zeta in Hin |- *; rewrite Hin;
    (destruct (validator o) as [accepts|]; [destruct (accepts v)|]; done).
Qed.

Lemma addToField_duplicate_witness :
  snd (addToField note_frontmatter (doc "N") "parent" "[[B]]" no_options)
  = note_frontmatter.
Proof.
  by rewrite (addToField_duplicate note_frontmatter (doc "N") "parent" "[[B]]"
                no_options eq_refl).
Defined.

Lemma removeFromField_callback_inr f v o fm fm' :
  removeFromField_callback f v o fm = inr fm' ->
  exists x,
    fm !! f = Some x /\ x <> JNull
    /\ includes (to_array x) v = true
    /\ fm' = match List.filter (fun y => negb (strict_eq v y)) (to_array x) with
             | [] => if flag (removeIfEmpty o) then delete f fm
                     else <[f := JArr []]> fm
             | [only] => <[f := only]> fm
             | filtered => <[f := JArr filtered]> fm
             end.
Proof.
  unfold removeFromField_callback.
  destruct (fm !! f) as [x|]; [|done]. intros Hrun. exists x.
  assert (Hx : x <> JNull) by (by intros ->).
  assert (Hrun' :
    (if negb (includes (to_array x) v)
     then inl (String.append "Value not found: " v)
     else match List.filter (fun y => negb (strict_eq v y)) (to_array x) with
          | [] => if flag (removeIfEmpty o) then inr (delete f fm)
                  else inr (<[f := JArr []]> fm)
          | [only] => inr (<[f := only]> fm)
          | filtered => inr (<[f := JArr filtered]> fm)
          end) = inr fm').
  { destruct x; try done; cbv beta iota zeta in Hrun;
      destruct (negb _); try done;
      by destruct (List.filter _ _) as [|? [|? ?]]. }
  clear Hrun. destruct (includes (to_array x) v) eqn:Hin; [|done].
  simpl in Hrun'. split_and!; try done.
  destruct (List.filter _ _) as [|a [|b l]].
  - destruct (flag _); by injection Hrun' as <-.
  - by injection Hrun' as <-.
  - by injection Hrun' as <-.
Qed.

Lemma filter_includes v w l :
  w <> v ->
  includes (List.filter (fun y => negb (strict_eq v y)) l) w = includes l w.
Proof.
  intros Hne. induction l as [|x l IH]; simpl; [done|].
  destruct (strict_eq v x) eqn:Hx; simpl.
  - rewrite IH. destruct x; try done. simpl in *.
    apply bool_decide_eq_true in Hx as ->.
    by rewrite bool_decide_eq_false_2.
  - by rewrite IH.
Qed.

Lemma filter_excludes v l :
  includes (List.filter (fun y => negb (strict_eq v y)) l) v = false.
Proof.
  induction l as [|x l IH]; simpl; [done|].
  destruct (strict_eq v x) eqn:Hx; simpl; [done|]. by rewrite Hx, IH.
Qed.

Lemma filter_links v l :
  forallb is_link l = true ->
  forallb is_link (List.filter (fun y => negb (strict_eq v y)) l) = true.
Proof.
  induction l as [|x l IH]; simpl; [done|].
  intros [Hx Hl]%andb_true_iff.
  destruct (strict_eq v x); simpl; [by apply IH|]. by rewrite Hx, IH.
Qed.

Lemma is_link_truthy x : is_link x = true -> truthy x = true.
Proof. by destruct x. Qed.

(** X17.  On a field that holds a non-empty string or an array of non-empty
    strings, a successful [removeFromField] removes every occurrence of the
    value and nothing else: the values read back are the earlier ones
    without the value, in their order; [hasFieldValue] no longer finds the
    value and answers as before for every other string; and no other field
    of the frontmatter changes. *)
Theorem removeFromField_removes (fm : Frontmatter) (file : TFile) (f v : string)
    (o : FrontmatterEditOptions) (r : FrontmatterEditResult.t)
    (fm' : Frontmatter) :
  link_field fm f = true ->
  removeFromField fm file f v o = (r, fm') ->
  FrontmatterEditResult.success r = true ->
  getFieldValues (Some fm') f
  = List.filter (fun y => negb (strict_eq v y)) (getFieldValues (Some fm) f)
  /\ hasFieldValue (Some fm') f v = false
  /\ (forall w, w <> v ->
        hasFieldValue (Some fm') f w = hasFieldValue (Some fm) f w)
  /\ forall k, k <> f -> fm' !! k = fm !! k.
Proof.
  intros Hlink Hrun Hok. apply edit_success in Hrun; [|done].
  apply removeFromField_callback_inr in Hrun as (x & Hx & Hnull & Hin & ->).
  unfold link_field in Hlink. unfold getFieldValues, hasFieldValue.
  rewrite Hx in *.
  assert (Hlinks : forallb is_link (to_array x) = true).
  { destruct x; simpl in *; try done. by rewrite Hlink. }
  assert (Htruthy : truthy x = true) by (by destruct x).
  rewrite Htruthy. simpl negb. cbv iota.
  pose proof (filter_links v _ Hlinks) as Hflinks.
  pose proof (filter_excludes v (to_array x)) as Hfex.
  pose proof (fun w Hw => filter_includes v w (to_array x) Hw) as Hfin.
  destruct (List.filter _ (to_array x)) as [|a [|b l]] eqn:Hf.
  - split_and!.
    + destruct (flag _).
      * by rewrite lookup_delete_eq.
      * by rewrite lookup_insert_eq.
    + destruct (flag _).
      * by rewrite lookup_delete_eq.
      * by rewrite lookup_insert_eq.
    + intros w Hw. rewrite <- (Hfin w Hw). destruct (flag _).
      * by rewrite lookup_delete_eq.
      * by rewrite lookup_insert_eq.
    + intros k Hk. destruct (flag _).
      * by rewrite lookup_delete_ne.
      * by rewrite lookup_insert_ne.
  - rewrite lookup_insert_eq.
    assert (Ha : is_link a = true).
    { simpl in Hflinks. by apply andb_true_iff in Hflinks as [? _]. }
    rewrite (is_link_truthy a Ha). simpl negb. cbv iota.
    assert (Harr : to_array a = [a]) by (by destruct a).
    rewrite Harr.
    split_and!;
      [done | done | intros w Hw; by rewrite <- (Hfin w Hw)
      | intros k Hk; by rewrite lookup_insert_ne].
  - rewrite lookup_insert_eq. simpl truthy. simpl negb. cbv iota.
    simpl to_array.
    split_and!;
      [done | done | intros w Hw; by rewrite <- (Hfin w Hw)
      | intros k Hk; by rewrite lookup_insert_ne].
Qed.

Lemma removeFromField_removes_witness :
  getFieldValues
    (Some (snd (removeFromField note_frontmatter (doc "N") "parent" "[[A]]"
                  no_options)))
    "parent"
  = [JStr "[[B]]"].
Proof.
  exact (proj1 (removeFromField_removes note_frontmatter (doc "N") "parent"
                  "[[A]]" no_options _ _ eq_refl eq_refl eq_refl)).
Defined.

(** X18.  Removing a value right after adding it gives the frontmatter
    back: when the field held a single value that is no array, or an array
    of two or more values, and [addToField] succeeds, [removeFromField] of
    the same value succeeds whatever its options are and leaves the
    frontmatter exactly as it was before the two calls. *)
Theorem add_then_remove_restores (fm : Frontmatter) (file : TFile)
    (f v : string) (o o' : FrontmatterEditOptions)
    (r : FrontmatterEditResult.t) (fm' : Frontmatter) :
  settled_field fm f = true ->
  addToField fm file f v o = (r, fm') ->
  FrontmatterEditResult.success r = true ->
  removeFromField fm' file f v o'
  = (FrontmatterEditResult.mk true None file f v OpRemove, fm).
Proof.
  intros Hset Hrun Hok. apply edit_success in Hrun; [|done].
  apply addToField_callback_inr in Hrun as [Hnew ->].
  unfold settled_field in Hset. unfold field_array in *.
  unfold removeFromField, edit, removeFromField_callback.
  rewrite lookup_insert_eq. cbv beta iota zeta.
  destruct (fm !! f) as [x|] eqn:Hx; [|done].
  assert (Harr : match x with JNull => [] | _ => to_array x end = to_array x)
    by (by destruct x).
  rewrite Harr in *. clear Harr.
  change (to_array (JArr (to_array x ++ [JStr v]))) with (to_array x ++ [JStr v]).
  rewrite includes_app, Hnew. simpl includes. rewrite bool_decide_eq_true_2 by done.
  simpl negb. cbv iota.
  rewrite List.filter_app, (filter_absent _ _ Hnew). simpl List.filter.
  rewrite bool_decide_eq_true_2 by done. simpl negb. cbv iota.
  rewrite app_nil_r.
  assert (Hback : forall y z, <[f := y]> (<[f := z]> fm) = <[f := y]> fm)
    by (intros y z; apply insert_insert_eq).
  destruct x as [| | | |[|a [|b l]]]; try done;
    cbn [to_array]; cbv beta iota; by rewrite Hback, insert_id.
Qed.

Lemma add_then_remove_restores_witness :
  removeFromField
    (snd (addToField note_frontmatter (doc "N") "parent" "[[C]]" no_options))
    (doc "N") "parent" "[[C]]" no_options
  = (FrontmatterEditResult.mk true None (doc "N") "parent" "[[C]]" OpRemove,
     note_frontmatter).
Proof.
  exact (add_then_remove_restores note_frontmatter (doc "N") "parent" "[[C]]"
           no_options no_options _ _ eq_refl eq_refl eq_refl).
Defined.

(* ===================================================================== *)
(** ** Exporting trees and lists of notes *)
(* ===================================================================== *)

Lemma TreeNode_induction (P : TreeNode.t -> Prop) :
  (forall file children depth isCycle,
     Forall P children -> P (TreeNode.mk file children depth isCycle)) ->
  forall node, P node.
Proof.
  intros H. fix IH 1. intros [file children depth isCycle]. apply H.
  revert children. fix IHchildren 1.
  intros [|child children]; constructor; [apply IH | apply IHchildren].
Qed.

Lemma export_each_ext export export' nodes :
  Forall (fun node => export node = export' node) nodes ->
  export_each export nodes = export_each export' nodes.
Proof.
  induction 1 as [|node nodes Hnode _ IH]; simpl; [done|].
  by rewrite Hnode, IH.
Qed.

Lemma export_each_map export (change : TreeNode.t -> TreeNode.t) nodes :
  export_each export (map change nodes)
  = export_each (fun node => export (change node)) nodes.
Proof.
  induction nodes as [|node nodes IH]; simpl; [done|]. by rewrite IH.
Qed.

Lemma export_each_nothing export nodes :
  Forall (fun node => export node = inr []) nodes ->
  export_each export nodes = inr [].
Proof.
  induction 1 as [|node nodes Hnode _ IH]; simpl; [done|].
  by rewrite Hnode, IH.
Qed.

Lemma export_each_returns export nodes :
  Forall (fun node => exists pushed, export node = inr pushed) nodes ->
  exists pushed, export_each export nodes = inr pushed.
Proof.
  induction 1 as [|node nodes [pushed Hnode] _ [more IH]]; simpl; [by eexists|].
  rewrite Hnode, IH. by eexists.
Qed.

Lemma exportNode_eq file children d isCycle depth options :
  exportNode (TreeNode.mk file children d isCycle) depth options
  = if match MarkdownExportOptions.maxDepth options with
       | Value m => Z.of_nat depth >? m
       | _ => false
       end
    then inr []
    else
      match MarkdownExportOptions.indent options with
      | Value unit_indent =>
          match export_each (fun child => exportNode child (S depth) options)
                  children with
          | inl e => inl e
          | inr below =>
              inr (String.append (repeat_string unit_indent depth)
                     (String.append "- "
                        (if is_set (MarkdownExportOptions.showCycles options)
                            && isCycle
                         then String.append
                                (note_name
                                   (MarkdownExportOptions.useWikiLinks options)
                                   file) " ðŸ”„"
                         else note_name
                                (MarkdownExportOptions.useWikiLinks options)
                                file))
                     :: below)
          end
      | _ =>
          inl (TypeError
                 "Cannot read properties of undefined (reading 'repeat')")
      end.
Proof. done. Qed.

Lemma prune_eq levels file children d isCycle :
  prune levels (TreeNode.mk file children d isCycle)
  = TreeNode.mk file
      match levels with
      | O => []
      | S levels' => map (prune levels') children
      end
      d isCycle.
Proof. by destruct levels. Qed.

Lemma exportNode_too_deep node depth options m :
  MarkdownExportOptions.maxDepth options = Value m ->
  m < Z.of_nat depth ->
  exportNode node depth options = inr [].
Proof.
  intros Hmax Hdeep. destruct node. rewrite exportNode_eq, Hmax.
  destruct (Z.gtb_spec (Z.of_nat depth) m); [done | lia].
Qed.

Lemma exportNode_prune options m node : forall depth,
  (depth <= m)%nat ->
  exportNode node depth (with_maxDepth (Value (Z.of_nat m)) options)
  = exportNode (prune (m - depth) node) depth (with_maxDepth Absent options).
Proof.
  induction node as [file children d isCycle IH] using TreeNode_induction.
  intros depth Hdepth. rewrite prune_eq, !exportNode_eq.
  cbn [with_maxDepth MarkdownExportOptions.maxDepth MarkdownExportOptions.indent
       MarkdownExportOptions.showCycles MarkdownExportOptions.useWikiLinks].
  destruct (Z.gtb_spec (Z.of_nat depth) (Z.of_nat m)); [lia|].
  destruct (MarkdownExportOptions.indent options) as [| |unit_indent]; try done.
  assert (Hbelow :
    export_each
      (fun child => exportNode child (S depth)
                      (with_maxDepth (Value (Z.of_nat m)) options)) children
    = export_each
        (fun child => exportNode child (S depth) (with_maxDepth Absent options))
        match (m - depth)%nat with
        | O => []
        | S levels' => map (prune levels') children
        end).
  { destruct (m - depth)%nat as [|levels'] eqn:Hlevels.
    - apply export_each_nothing. apply Forall_forall. intros child _.
      apply (exportNode_too_deep _ _ _ (Z.of_nat m)); [done | lia].
    - rewrite export_each_map. apply export_each_ext.
      eapply Forall_impl; [exact IH|]. intros child Hchild. simpl in Hchild.
      rewrite (Hchild (S depth)) by lia.
      by replace (m - S depth)%nat with levels' by lia. }
  by rewrite Hbelow.
Qed.

Lemma spread_with_maxDepth maxDepth options :
  spread DEFAULT_EXPORT_OPTIONS (with_maxDepth maxDepth options)
  = with_maxDepth (spread_property Absent maxDepth)
      (spread DEFAULT_EXPORT_OPTIONS options).
Proof. done. Qed.

(** X20.  [maxDepth] cuts the tree: exporting with a [maxDepth] that is not
    negative gives what exporting the tree cut below that many levels gives
    without a [maxDepth], the same text or the same error; and with a
    negative [maxDepth] no node is exported at all, as for an empty array of
    trees. *)
Theorem maxDepth_prunes (tree : TreeArgument) (title : option string)
    (options : MarkdownExportOptions.t) (m : Z) :
  (0 <= m ->
   exportTreeToMarkdown tree title (with_maxDepth (Value m) options)
   = exportTreeToMarkdown (prune_argument (Z.to_nat m) tree) title
       (with_maxDepth Absent options))
  /\ (m < 0 ->
      exportTreeToMarkdown tree title (with_maxDepth (Value m) options)
      = exportTreeToMarkdown (Trees []) title options).
Proof.
  split; intros Hm; unfold exportTreeToMarkdown; rewrite !spread_with_maxDepth.
  - cbn [spread_property]. cbv zeta.
    set (opts := spread DEFAULT_EXPORT_OPTIONS options).
    change (header_lines (with_maxDepth (Value m) opts) title)
      with (header_lines (with_maxDepth Absent opts) title).
    assert (Hnat : m = Z.of_nat (Z.to_nat m)) by lia.
    revert Hnat. generalize (Z.to_nat m). intros n ->.
    destruct tree as [node|trees]; simpl prune_argument; cbv iota.
    + rewrite (exportNode_prune opts n node 0%nat) by lia.
      by rewrite Nat.sub_0_r.
    + rewrite export_each_map.
      rewrite (export_each_ext _
                 (fun node => exportNode (prune n node) 0%nat
                                (with_maxDepth Absent opts))); [done|].
      apply Forall_forall. intros node _.
      rewrite (exportNode_prune opts n node 0%nat) by lia.
      by rewrite Nat.sub_0_r.
  - cbn [spread_property]. cbv zeta.
    set (opts := spread DEFAULT_EXPORT_OPTIONS options).
    change (header_lines (with_maxDepth (Value m) opts) title)
      with (header_lines opts title).
    destruct tree as [node|trees]; simpl export_each; cbv iota.
    + by rewrite (exportNode_too_deep _ _ _ m) by (done || lia).
    + rewrite export_each_nothing; [done|]. apply Forall_forall. intros node _.
      apply (exportNode_too_deep _ _ _ m); [done | lia].
Qed.

Lemma maxDepth_prunes_witness :
  exportTreeToMarkdown (OneTree sample_tree) None
    (with_maxDepth (Value 1) no_export_options)
  = exportTreeToMarkdown
      (OneTree (TreeNode.mk (doc "A")
                  [TreeNode.mk (doc "B") [] 1 false;
                   TreeNode.mk (doc "D") [] 1 true] 0 false))
      None no_export_options.
Proof.
  apply (proj1 (maxDepth_prunes (OneTree sample_tree) None no_export_options 1)).
  lia.
Defined.

Lemma plain_leaf_export node options unit_indent :
  plain_leaf node = true ->
  MarkdownExportOptions.indent options = Value unit_indent ->
  match MarkdownExportOptions.maxDepth options with
  | Value m => 0 <= m
  | _ => True
  end ->
  exportNode node 0 options
  = inr [String.append "- "
           (note_name (MarkdownExportOptions.useWikiLinks options)
              (TreeNode.file node))].
Proof.
  destruct node as [file [|child children] d isCycle]; [|done].
  unfold plain_leaf.
  cbn [TreeNode.children TreeNode.isCycle TreeNode.file].
  intros HisCycle Hindent Hmax. rewrite exportNode_eq, Hindent.
  assert (Hshallow : match MarkdownExportOptions.maxDepth options with
                     | Value m => Z.of_nat 0 >? m
                     | _ => false
                     end = false).
  { destruct (MarkdownExportOptions.maxDepth options) as [| |m]; try done.
    destruct (Z.gtb_spec (Z.of_nat 0) m); [lia | done]. }
  rewrite Hshallow. destruct isCycle; [done|]. by rewrite andb_false_r.
Qed.

(** X19.  A flat list is a forest of leaves: for nodes without children that
    are not marked as closing a cycle, [exportTreeToMarkdown] on the array of
    nodes returns the text [exportNotesToMarkdown] returns for their files,
    provided the options do not set [indent] to [undefined] and do not set a
    negative [maxDepth]. *)
Theorem exportNotes_as_leaves (trees : list TreeNode.t) (title : option string)
    (options : MarkdownExportOptions.t) :
  forallb plain_leaf trees = true ->
  MarkdownExportOptions.indent options <> Undefined ->
  match MarkdownExportOptions.maxDepth options with
  | Value m => 0 <= m
  | _ => True
  end ->
  exportTreeToMarkdown (Trees trees) title options
  = inr (exportNotesToMarkdown (map TreeNode.file trees) title options).
Proof.
  intros Hleaves Hindent Hmax.
  unfold exportTreeToMarkdown, exportNotesToMarkdown. cbv zeta.
  set (opts := spread DEFAULT_EXPORT_OPTIONS options).
  assert (Hopts_indent : exists unit_indent,
            MarkdownExportOptions.indent opts = Value unit_indent).
  { unfold opts. simpl.
    destruct (MarkdownExportOptions.indent options); simpl; by eauto. }
  destruct Hopts_indent as [unit_indent Hopts_indent].
  assert (Hopts_max : match MarkdownExportOptions.maxDepth opts with
                      | Value m => 0 <= m
                      | _ => True
                      end).
  { unfold opts. simpl.
    by destruct (MarkdownExportOptions.maxDepth options). }
  assert (Heach :
    export_each (fun node => exportNode node 0 opts) trees
    = inr (map (fun note =>
                  String.append "- "
                    (note_name (MarkdownExportOptions.useWikiLinks opts) note))
             (map TreeNode.file trees))).
  { clearbody opts. induction trees as [|node trees IH]; [done|].
    simpl in Hleaves. apply andb_true_iff in Hleaves as [Hleaf Hleaves].
    cbn [export_each map].
    change ((fix go (nodes : list TreeNode.t) : JsError + list string :=
               match nodes with
               | [] => inr []
               | node :: rest =>
                   match exportNode node 0 opts with
                   | inl e => inl e
                   | inr pushed =>
                       match go rest with
                       | inl e => inl e
                       | inr more => inr (pushed ++ more)
                       end
                   end
               end) trees)
      with (export_each (fun node => exportNode node 0 opts) trees).
    by rewrite (plain_leaf_export _ _ _ Hleaf Hopts_indent Hopts_max),
         (IH Hleaves). }
  by rewrite Heach.
Qed.

Lemma exportNotes_as_leaves_witness :
  exportTreeToMarkdown
    (Trees [TreeNode.mk (doc "A") [] 0 false; TreeNode.mk (doc "B") [] 0 false])
    (Some "Roots") no_export_options
  = inr (exportNotesToMarkdown [doc "A"; doc "B"] (Some "Roots")
           no_export_options).
Proof.
  apply (exportNotes_as_leaves
           [TreeNode.mk (doc "A") [] 0 false; TreeNode.mk (doc "B") [] 0 false]
           (Some "Roots") no_export_options); [reflexivity | discriminate | exact I].
Defined.

Lemma exportNode_returns options unit_indent node : forall depth,
  MarkdownExportOptions.indent options = Value unit_indent ->
  exists pushed, exportNode node depth options = inr pushed.
Proof.
  induction node as [file children d isCycle IH] using TreeNode_induction.
  intros depth Hindent. rewrite exportNode_eq, Hindent.
  destruct (match MarkdownExportOptions.maxDepth options with
            | Value m => Z.of_nat depth >? m
            | _ => false
            end); [by eexists|].
  destruct (export_each_returns
              (fun child => exportNode child (S depth) options) children)
    as [below Hbelow].
  { eapply Forall_impl; [exact IH|]. intros child Hchild. by apply Hchild. }
  rewrite Hbelow. by eexists.
Qed.

(** X21.  [exportTreeToMarkdown] returns a text whenever the options do not
    set [indent] to [undefined]; when they do, exporting a tree throws the
    [TypeError] of calling [repeat] on [undefined], unless a negative
    [maxDepth] keeps every node out. *)
Theorem exportTreeToMarkdown_indent (tree : TreeArgument)
    (title : option string) (options : MarkdownExportOptions.t) :
  (MarkdownExportOptions.indent options <> Undefined ->
   exists text, exportTreeToMarkdown tree title options = inr text)
  /\ (MarkdownExportOptions.indent options = Undefined ->
      match MarkdownExportOptions.maxDepth options with
      | Value m => 0 <= m
      | _ => True
      end ->
      forall node,
        exportTreeToMarkdown (OneTree node) title options
        = inl (TypeError
                 "Cannot read properties of undefined (reading 'repeat')")).
Proof.
  split.
  - intros Hindent. unfold exportTreeToMarkdown. cbv zeta.
    set (opts := spread DEFAULT_EXPORT_OPTIONS options).
    assert (Hopts_indent : exists unit_indent,
              MarkdownExportOptions.indent opts = Value unit_indent).
    { unfold opts. simpl.
      destruct (MarkdownExportOptions.indent options); simpl; by eauto. }
    destruct Hopts_indent as [unit_indent Hopts_indent].
    destruct tree as [node|trees].
    + destruct (exportNode_returns opts unit_indent node 0%nat Hopts_indent)
        as [pushed ->].
      by eexists.
    + destruct (export_each_returns (fun node => exportNode node 0 opts) trees)
        as [pushed ->]; [|by eexists].
      apply Forall_forall. intros node _.
      by apply (exportNode_returns opts unit_indent).
  - intros Hindent Hmax [file children d isCycle].
    unfold exportTreeToMarkdown. rewrite exportNode_eq. simpl.
    rewrite Hindent. simpl.
    destruct (MarkdownExportOptions.maxDepth options) as [| |m]; simpl; try done.
    by destruct (Z.gtb_spec (Z.of_nat 0) m); [lia|].
Qed.
